(** * TDigest.h: a shallow embedding of the merging t-digest

    The development follows src/TDigest.h function by function.

    Numbers.  [Value], [Weight] are C++ [double]s.  They are modelled as the
    exact rationals extended with one [NaN]: comparisons with [NaN] are
    false, arithmetic propagates it, and a division by zero gives [NaN].
    Rounding, overflow and the infinities are outside the model, so every
    statement below is about the algorithm computed in exact arithmetic.
    Results are kept in lowest terms ([Qred]) so that computed values can be
    compared with Leibniz equality.

    Undefined behaviour and aborts.  Reading a vector or an iterator out of
    range, flowing off the end of a value-returning function and a failed
    glog [CHECK_*] are made explicit: every operation returns an [outcome].

    libm.  [std::sin] and [std::asin] are not part of the repository; they
    are taken through the interface [Libm].

    IEEE doubles.  Where a claim is decided by an infinity or an overflow,
    the functions on that path are embedded a second time, in the module
    [IEEE], over Rocq's primitive binary64 floats, and evaluated there. *)

From Stdlib Require Import QArith Qround Qreduction ZArith List Bool Lia Lqa.
From Stdlib Require Import Sorted Permutation PeanoNat.
From Stdlib Require PrimFloat SpecFloat FloatOps.
Import ListNotations.

Set Implicit Arguments.
Close Scope Q_scope.

(** ** Outcomes *)

Inductive fault : Type :=
| OutOfBounds   (* operator[] or iterator dereference outside the vector *)
| CheckFailed   (* a glog CHECK_xx aborted the process *)
| NoReturn      (* control left a value-returning function without return *)
| BadCast       (* static_cast of a NaN to an integer type *)
| LengthError   (* std::length_error thrown by vector::reserve *)
| OutOfFuel.    (* artefact of bounded loops in the model, never produced
                   with the fuel mergeProcessed passes
                   (see [mergeProcessed_within_fuel]) *)

Inductive outcome (A : Type) : Type :=
| Done (a : A)
| Fault (e : fault).
Arguments Fault {A} e.

Definition bind {A B} (m : outcome A) (k : A -> outcome B) : outcome B :=
  match m with
  | Done a => k a
  | Fault e => Fault e
  end.

Notation "x <- m ;; k" := (bind m (fun x => k))
  (at level 61, m at next level, right associativity).
Notation "' p <- m ;; k" := (bind m (fun p => k))
  (at level 61, p pattern, m at next level, right associativity).
Notation "m >>= k" := (bind m k) (at level 50, left associativity).

Definition CHECK (b : bool) : outcome unit :=
  if b then Done tt else Fault CheckFailed.

Definition at_index {A} (v : list A) (i : nat) : outcome A :=
  match nth_error v i with
  | Some a => Done a
  | None => Fault OutOfBounds
  end.

(** ** Values *)

Inductive Value : Type :=
| NaN
| Fin (q : Q).

Definition Weight := Value.
Definition Index := nat.

Definition lift2 (f : Q -> Q -> Q) (a b : Value) : Value :=
  match a, b with
  | Fin x, Fin y => Fin (Qred (f x y))
  | _, _ => NaN
  end.

Definition Vadd := lift2 Qplus.
Definition Vsub := lift2 Qminus.
Definition Vmul := lift2 Qmult.
Definition Vdiv (a b : Value) : Value :=
  match a, b with
  | Fin x, Fin y => if Qeq_bool y 0%Q then NaN else Fin (Qred (x / y)%Q)
  | _, _ => NaN
  end.

Definition Vltb (a b : Value) : bool :=
  match a, b with
  | Fin x, Fin y => negb (Qle_bool y x)
  | _, _ => false
  end.
Definition Vleb (a b : Value) : bool :=
  match a, b with
  | Fin x, Fin y => Qle_bool x y
  | _, _ => false
  end.
Definition Veqb (a b : Value) : bool :=
  match a, b with
  | Fin x, Fin y => Qeq_bool x y
  | _, _ => false
  end.
Definition Vgtb (a b : Value) : bool := Vltb b a.
Definition Vgeb (a b : Value) : bool := Vleb b a.

Definition isnan (x : Value) : bool :=
  match x with NaN => true | Fin _ => false end.

(* std::min(a, b) is (b < a) ? b : a and std::max(a, b) is (a < b) ? b : a *)
Definition std_min (a b : Value) : Value := if Vltb b a then b else a.
Definition std_max (a b : Value) : Value := if Vltb a b then b else a.

Definition std_ceil (x : Value) : Value :=
  match x with
  | NaN => NaN
  | Fin q => Fin (inject_Z (Qceiling q))
  end.

(* static_cast<Index>: truncation; a NaN or negative operand is undefined
   in C++ and mapped to 0 here. *)
Definition to_Index (x : Value) : Index :=
  match x with
  | NaN => 0%nat
  | Fin q => Z.to_nat (Z.quot (Qnum q) (Zpos (Qden q)))
  end.

(* static_cast<long>: truncation toward zero (no range check). *)
Definition to_long (x : Value) : outcome Z :=
  match x with
  | NaN => Fault BadCast
  | Fin q => Done (Z.quot (Qnum q) (Zpos (Qden q)))
  end.

Declare Scope value_scope.
Delimit Scope value_scope with V.
Bind Scope value_scope with Value.
Infix "+" := Vadd : value_scope.
Infix "-" := Vsub : value_scope.
Infix "*" := Vmul : value_scope.
Infix "/" := Vdiv : value_scope.
Infix "<?" := Vltb : value_scope.
Infix "<=?" := Vleb : value_scope.
Infix ">?" := Vgtb : value_scope.
Infix ">=?" := Vgeb : value_scope.
Infix "==?" := Veqb (at level 70) : value_scope.

Definition of_Z (z : Z) : Value := Fin (inject_Z z).
Definition of_nat (n : nat) : Value := of_Z (Z.of_nat n).

(* <cmath> M_PI and <cfloat>/<limits> constants, as exact rationals *)
Definition M_PI : Value := Fin (314159265358979323846 # 100000000000000000000)%Q.
Definition DBL_MAX : Value := Fin (inject_Z ((2 ^ 53 - 1) * 2 ^ 971)%Z).
Definition DBL_MIN : Value := Fin (1 # (2 ^ 1022))%Q.

Class Libm : Type := {
  sin : Value -> Value;
  asin : Value -> Value
}.

(** ** Centroid *)

Module Centroid.

Record t : Type := mk { mean : Value; weight : Weight }.

(* Centroid::add: weight_ += c.weight_;
   mean_ += c.weight_ * (c.mean_ - mean_) / weight_ *)
Definition add (self c : t) : outcome t :=
  _ <- CHECK (weight c >? of_Z 0)%V ;;
  let weight_ := (weight self + weight c)%V in
  let mean_ := (mean self + weight c * (mean c - mean self) / weight_)%V in
  Done (mk mean_ weight_).

End Centroid.

(** ** CentroidList, its comparator and the priority queue *)

(* A cursor into a vector: [iter] and [end_] are positions in [src]. *)
Record CentroidList : Type := {
  src : list Centroid.t;
  iter : nat;
  end_ : nat
}.

Definition CentroidList_of (s : list Centroid.t) : CentroidList :=
  {| src := s; iter := 0; end_ := length s |}.

(* *iter *)
Definition deref (l : CentroidList) : outcome Centroid.t :=
  at_index (src l) (iter l).

(* bool advance() { return ++iter != end; } *)
Definition advance (l : CentroidList) : CentroidList * bool :=
  let l' := {| src := src l; iter := S (iter l); end_ := end_ l |} in
  (l', negb (iter l' =? end_ l')%nat).

(* left.iter->mean() > right.iter->mean() *)
Definition CentroidListComparator (left right : CentroidList) : outcome bool :=
  l <- deref left ;;
  r <- deref right ;;
  Done (Centroid.mean l >? Centroid.mean r)%V.

(* std::priority_queue<CentroidList, ..., CentroidListComparator>: the
   adapter promises that top() is an element that the comparator puts below
   no other one, here a cursor of least current mean.  The queue is kept as
   a list in that order; a cursor pushed on equal means goes behind the
   ones already there (C++ fixes no order among them).  As std::push_heap
   does, a push into a queue that is not empty compares the new element. *)
Definition CentroidListQueue := list CentroidList.

Fixpoint pq_push (c : CentroidList) (q : CentroidListQueue)
  : outcome CentroidListQueue :=
  match q with
  | [] => Done [c]
  | d :: q' =>
      below <- CentroidListComparator d c ;;
      if below then Done (c :: d :: q')
      else q'' <- pq_push c q' ;; Done (d :: q'')
  end.

Definition CentroidComparator (a b : Centroid.t) : bool :=
  (Centroid.mean a <? Centroid.mean b)%V.

(* std::sort with CentroidComparator, as an insertion sort: an element goes
   in front of the first one that is not below it.  Equal means keep their
   order here; C++ leaves their order open. *)
Fixpoint sort_insert (c : Centroid.t) (l : list Centroid.t) : list Centroid.t :=
  match l with
  | [] => [c]
  | d :: l' => if CentroidComparator d c then d :: sort_insert c l'
               else c :: d :: l'
  end.

Definition std_sort (l : list Centroid.t) : list Centroid.t :=
  fold_right sort_insert [] l.

(* std::inplace_merge of [a] followed by [b]: an element of [b] goes first
   only when it compares below the element of [a]. *)
Fixpoint inplace_merge (a : list Centroid.t) : list Centroid.t -> list Centroid.t :=
  fix inner (b : list Centroid.t) : list Centroid.t :=
    match a, b with
    | [], _ => b
    | _, [] => a
    | x :: a', y :: b' =>
        if CentroidComparator y x then y :: inner b'
        else x :: inplace_merge a' b
    end.

(** ** TDigest *)

Module TDigest.

Record t : Type := mk {
  compression_ : Value;
  min : Value;
  max : Value;
  maxProcessed_ : Index;
  maxUnprocessed_ : Index;
  processedWeight_ : Value;
  unprocessedWeight_ : Value;
  processed_ : list Centroid.t;
  unprocessed_ : list Centroid.t;
  dirty_ : bool
}.

Definition processedSize (size : Index) (compression : Value) : Index :=
  if (size =? 0)%nat then to_Index (of_Z 2 * std_ceil compression)%V else size.

Definition unprocessedSize (size : Index) (compression : Value) : Index :=
  if (size =? 0)%nat then to_Index (of_Z 8 * std_ceil compression)%V else size.

(* TDigest(Value compression, Index unmergedSize, Index mergedSize) *)
Definition new (compression : Value) (unmergedSize mergedSize : Index) : t :=
  {| compression_ := compression;
     min := DBL_MAX;           (* std::numeric_limits<Value>::max() *)
     max := DBL_MIN;           (* std::numeric_limits<Value>::min() *)
     maxProcessed_ := processedSize mergedSize compression;
     maxUnprocessed_ := unprocessedSize unmergedSize compression;
     processedWeight_ := of_Z 0;
     unprocessedWeight_ := of_Z 0;
     processed_ := [];
     unprocessed_ := [];
     dirty_ := false |}.

(* TDigest(Value compression, Index bufferSize) and TDigest(Value compression) *)
Definition new2 (compression : Value) (bufferSize : Index) : t :=
  new compression bufferSize 0.
Definition new1 (compression : Value) : t := new2 compression 0.

(* TDigest(processed, unprocessed, compression, unmergedSize, mergedSize) *)
Definition of_vectors (processed unprocessed : list Centroid.t)
           (compression : Value) (unmergedSize mergedSize : Index) : t :=
  let d := new compression unmergedSize mergedSize in
  {| compression_ := compression_ d; min := min d; max := max d;
     maxProcessed_ := maxProcessed_ d; maxUnprocessed_ := maxUnprocessed_ d;
     processedWeight_ := processedWeight_ d;
     unprocessedWeight_ := unprocessedWeight_ d;
     processed_ := processed; unprocessed_ := unprocessed;
     dirty_ := dirty_ d |}.

Definition haveUnprocessed (s : t) : bool :=
  (0 <? length (unprocessed_ s))%nat.

Definition totalWeight (s : t) : outcome Z :=
  to_long (processedWeight_ s + unprocessedWeight_ s)%V.

(* mean(i), weight(i): processed_[i] without a range check *)
Definition mean (s : t) (i : nat) : outcome Value :=
  c <- at_index (processed_ s) i ;; Done (Centroid.mean c).
Definition weight (s : t) (i : nat) : outcome Weight :=
  c <- at_index (processed_ s) i ;; Done (Centroid.weight c).

Definition weightedAverageSorted (x1 w1 x2 w2 : Value) : outcome Value :=
  _ <- CHECK (x1 <=? x2)%V ;;
  let x := ((x1 * w1 + x2 * w2) / (w1 + w2))%V in
  Done (std_max x1 (std_min x x2)).

Definition weightedAverage (x1 w1 x2 w2 : Value) : outcome Value :=
  if (x1 <=? x2)%V then weightedAverageSorted x1 w1 x2 w2
  else weightedAverageSorted x2 w2 x1 w1.

Definition interpolate (x x0 x1 : Value) : Value := ((x - x0) / (x1 - x0))%V.

(** *** mergeUnprocessed / mergeProcessed *)

Definition mergeUnprocessed (tdigests : list t) (s : t) : t :=
  match tdigests with
  | [] => s
  | _ =>
      fold_left
        (fun acc td =>
           {| compression_ := compression_ acc; min := min acc; max := max acc;
              maxProcessed_ := maxProcessed_ acc;
              maxUnprocessed_ := maxUnprocessed_ acc;
              processedWeight_ := processedWeight_ acc;
              unprocessedWeight_ :=
                (unprocessedWeight_ acc + unprocessedWeight_ td)%V;
              processed_ := processed_ acc;
              unprocessed_ := unprocessed_ acc ++ unprocessed_ td;
              dirty_ := dirty_ acc |})
        tdigests s
  end.

(* the first loop of mergeProcessed: total, pq and processedWeight_ *)
Fixpoint collect (tdigests : list t) (total : nat) (pq : CentroidListQueue)
         (pw : Value) : outcome (nat * CentroidListQueue * Value) :=
  match tdigests with
  | [] => Done (total, pq, pw)
  | td :: rest =>
      let sorted := processed_ td in
      let size := length sorted in
      if (0 <? size)%nat then
        pq' <- pq_push (CentroidList_of sorted) pq ;;
        collect rest (total + size) pq' (pw + processedWeight_ td)%V
      else collect rest total pq pw
  end.

(* while (!pq.empty()) { best = pq.top(); pq.pop();
     sorted.push_back( *best.iter); if (best.advance()) pq.push(best); } *)
Fixpoint merge_loop (fuel : nat) (pq : CentroidListQueue)
         (sorted : list Centroid.t) : outcome (list Centroid.t) :=
  match pq with
  | [] => Done sorted
  | best :: pq' =>
      match fuel with
      | O => Fault OutOfFuel
      | S fuel' =>
          c <- deref best ;;
          let '(best', more) := advance best in
          pq'' <- (if more then pq_push best' pq' else Done pq') ;;
          merge_loop fuel' pq'' (sorted ++ [c])
      end
  end.

Definition mergeProcessed (tdigests : list t) (s : t) : outcome t :=
  match tdigests with
  | [] => Done s
  | _ =>
      '(total, pq, pw) <-
        collect tdigests (length (processed_ s)) [] (processedWeight_ s) ;;
      pq' <- pq_push (CentroidList_of (processed_ s)) pq ;;
      sorted <- merge_loop (S total) pq' [] ;;
      Done {| compression_ := compression_ s; min := min s; max := max s;
              maxProcessed_ := maxProcessed_ s;
              maxUnprocessed_ := maxUnprocessed_ s;
              processedWeight_ := pw;
              unprocessedWeight_ := unprocessedWeight_ s;
              processed_ := sorted;
              unprocessed_ := unprocessed_ s;
              dirty_ := dirty_ s |}
  end.

(** *** cdfProcessed *)

(* while (it < n && mean(it + 1) == x) {
     weightSoFar += (weight(it) + weight(it + 1)); it++; }
   [k] is n - it. *)
Fixpoint cdf_equal_run (s : t) (x : Value) (k it : nat) (weightSoFar : Value)
  : outcome Value :=
  match k with
  | O => Done weightSoFar
  | S k' =>
      m1 <- mean s (it + 1) ;;
      if (m1 ==? x)%V then
        w <- weight s it ;;
        w1 <- weight s (it + 1) ;;
        cdf_equal_run s x k' (S it) (weightSoFar + (w + w1))%V
      else Done weightSoFar
  end.

(* for (size_t it = 0; it < n; it++) { ... }; [k] is n - it.  The loop
   has no return after it: leaving it is [NoReturn]. *)
Fixpoint cdf_walk (s : t) (x : Value) (k it : nat) (weightSoFar : Value)
  : outcome Value :=
  match k with
  | O => Fault NoReturn
  | S k' =>
      m <- mean s it ;;
      if (m ==? x)%V then
        let w0 := weightSoFar in
        weightSoFar' <- cdf_equal_run s x k it weightSoFar ;;
        Done ((w0 + weightSoFar') / of_Z 2 / processedWeight_ s)%V
      else
        bracket <- (if (m <=? x)%V
                    then m1 <- mean s (it + 1) ;; Done (m1 >? x)%V
                    else Done false) ;;
        if bracket then
          m1 <- mean s (it + 1) ;;
          w <- weight s it ;;
          w1 <- weight s (it + 1) ;;
          let dw := ((w + w1) / of_Z 2)%V in
          if (m1 - m >? of_Z 0)%V then
            Done ((weightSoFar + dw * (x - m) / (m1 - m)) / processedWeight_ s)%V
          else
            Done (weightSoFar + dw / processedWeight_ s)%V
        else
          w <- weight s it ;;
          w1 <- weight s (it + 1) ;;
          cdf_walk s x k' (S it) (weightSoFar + (w + w1) / of_Z 2)%V
  end.

Definition half : Value := Fin (1 # 2)%Q.

(* Value cdfProcessed(Value x, bool* success) const *)
Definition cdfProcessed (x : Value) (s : t) : outcome (Value * bool) :=
  match processed_ s with
  | [] => Done (of_Z 0, false)
  | [_] =>
      let width := (max s - min s)%V in
      if (x <? min s)%V then Done (of_Z 0, true)
      else if (x >? max s)%V then Done (of_Z 1, true)
      else if (x - min s <=? width)%V then Done (half, true)
      else Done ((x - min s) / (max s - min s), true)%V
  | _ =>
      let n := length (processed_ s) in
      if (x <=? min s)%V then Done (of_Z 0, true)
      else if (x >=? max s)%V then Done (of_Z 1, true)
      else
        m0 <- mean s 0 ;;
        if (x <=? m0)%V then
          if (m0 - min s >? of_Z 0)%V then
            w0 <- weight s 0 ;;
            Done ((x - min s) / (m0 - min s) * w0 / processedWeight_ s
                  / of_Z 2, true)%V
          else Done (of_Z 0, true)
        else
          _ <- CHECK (x >? m0)%V ;;
          mn <- mean s (n - 1) ;;
          if (x >=? mn)%V then
            if (max s - mn >? of_Z 0)%V then
              wn <- weight s (n - 1) ;;
              Done (of_Z 1 - (max s - x) / (max s - mn) * wn
                              / processedWeight_ s / of_Z 2, true)%V
            else Done (of_Z 1, true)
          else
            _ <- CHECK (x <? mn)%V ;;
            w0 <- weight s 0 ;;
            r <- cdf_walk s x n 0 (w0 / of_Z 2)%V ;;
            Done (r, true)
  end.

(** *** quantileProcessed *)

(* for (Weight i = 0; i < n - 1; i++) { ... }; [k] is n - 1 - i.  The
   result is the bracketed interpolation, or nothing when the loop ends. *)
Fixpoint quantile_walk (s : t) (index : Value) (k i : nat)
         (weightSoFar : Value) : outcome (option Value) :=
  match k with
  | O => Done None
  | S k' =>
      wi <- weight s i ;;
      wi1 <- weight s (i + 1) ;;
      let dw := ((wi + wi1) / of_Z 2)%V in
      if (weightSoFar + dw >? index)%V then
        let z1 := (index - weightSoFar)%V in
        let z2 := (weightSoFar + dw - index)%V in
        mi <- mean s i ;;
        mi1 <- mean s (i + 1) ;;
        r <- weightedAverage mi z2 mi1 z1 ;;
        Done (Some r)
      else quantile_walk s index k' (S i) (weightSoFar + dw)%V
  end.

(* Value quantileProcessed(Value q, bool* success) const *)
Definition quantileProcessed (q : Value) (s : t) : outcome (Value * bool) :=
  if (q <? of_Z 0)%V || (q >? of_Z 1)%V then Done (of_Z 0, false)
  else
    match processed_ s with
    | [] => Done (of_Z 0, false)
    | [c] => Done (Centroid.mean c, true)
    | _ =>
        let n := length (processed_ s) in
        let index := (q * processedWeight_ s)%V in
        w0 <- weight s 0 ;;
        if (index <? w0 / of_Z 2)%V then
          _ <- CHECK (w0 >? of_Z 0)%V ;;
          m0 <- mean s 0 ;;
          Done (min s + of_Z 2 * index / w0 * (m0 - min s), true)%V
        else
          found <- quantile_walk s index (n - 1) 0 (w0 / of_Z 2)%V ;;
          match found with
          | Some r => Done (r, true)
          | None =>
              _ <- CHECK (index <=? processedWeight_ s)%V ;;
              wn <- weight s (n - 1) ;;
              _ <- CHECK (index >=? processedWeight_ s - wn / of_Z 2)%V ;;
              let z1 := (index - processedWeight_ s - wn / of_Z 2)%V in
              let z2 := (wn / of_Z 2 - z1)%V in
              mn <- mean s (n - 1) ;;
              r <- weightedAverage mn z1 (max s) z2 ;;
              Done (r, true)
          end
    end.

Section WithLibm.
Context {libm : Libm}.

Definition integratedLocation (s : t) (q : Value) : Value :=
  (compression_ s * (asin (of_Z 2 * q - of_Z 1) + M_PI / of_Z 2) / M_PI)%V.

Definition integratedQ (s : t) (k : Value) : Value :=
  ((sin (std_min k (compression_ s) * M_PI / compression_ s - M_PI / of_Z 2)
    + of_Z 1) / of_Z 2)%V.

(** *** process *)

(* (processed_.end() - 1)->add(centroid) *)
Definition add_to_back (v : list Centroid.t) (centroid : Centroid.t)
  : outcome (list Centroid.t) :=
  match v with
  | [] => Fault OutOfBounds
  | c0 :: _ =>
      c' <- Centroid.add (last v c0) centroid ;;
      Done (removelast v ++ [c'])
  end.

(* the locals of the clustering loop; [out] is the new processed_ *)
Record clustering : Type := {
  out : list Centroid.t;
  wSoFar : Weight;
  wLimit : Weight
}.

(* for (auto& centroid : unprocessed_) { ... } *)
Fixpoint cluster (s : t) (pw : Value) (l : list Centroid.t)
         (st : clustering) : outcome clustering :=
  match l with
  | [] => Done st
  | centroid :: l' =>
      let projectedW := (wSoFar st + Centroid.weight centroid)%V in
      if (projectedW <=? wLimit st)%V then
        out' <- add_to_back (out st) centroid ;;
        cluster s pw l'
                {| out := out'; wSoFar := projectedW; wLimit := wLimit st |}
      else
        let k1 := integratedLocation s (wSoFar st / pw)%V in
        cluster s pw l'
                {| out := out st ++ [centroid];
                   wSoFar := (wSoFar st + Centroid.weight centroid)%V;
                   wLimit := (pw * integratedQ s (k1 + of_Z 1))%V |}
  end.

Definition process (s : t) : outcome t :=
  if negb (dirty_ s) then Done s
  else
    let all := inplace_merge (std_sort (unprocessed_ s)) (processed_ s) in
    let pw := (processedWeight_ s + unprocessedWeight_ s)%V in
    let s1 := {| compression_ := compression_ s; min := min s; max := max s;
                 maxProcessed_ := maxProcessed_ s;
                 maxUnprocessed_ := maxUnprocessed_ s;
                 processedWeight_ := pw;
                 unprocessedWeight_ := of_Z 0;
                 processed_ := [];
                 unprocessed_ := all;
                 dirty_ := dirty_ s |} in
    first <- at_index all 0 ;;
    st <- cluster s1 pw all
            {| out := [first];
               wSoFar := Centroid.weight first;
               wLimit := (pw * integratedQ s1 (of_Z 1))%V |} ;;
    front <- at_index (out st) 0 ;;
    back <- at_index (out st) (length (out st) - 1) ;;
    Done {| compression_ := compression_ s;
            min := std_min (min s) (Centroid.mean front);
            max := std_max (max s) (Centroid.mean back);
            maxProcessed_ := maxProcessed_ s;
            maxUnprocessed_ := maxUnprocessed_ s;
            processedWeight_ := pw;
            unprocessedWeight_ := of_Z 0;
            processed_ := out st;
            unprocessed_ := [];
            dirty_ := false |}.

Definition processIfNecessary (s : t) : outcome t :=
  if (maxUnprocessed_ s <? length (unprocessed_ s))%nat
     || (maxProcessed_ s <? length (processed_ s))%nat
  then process s
  else Done s.

Definition compress (s : t) : outcome t := processIfNecessary s.

(** *** add, merge *)

(* bool add(Value x, Weight w) *)
Definition add_w (x : Value) (w : Weight) (s : t) : outcome (t * bool) :=
  if isnan x then Done (s, false)
  else
    s' <- processIfNecessary
            {| compression_ := compression_ s; min := min s; max := max s;
               maxProcessed_ := maxProcessed_ s;
               maxUnprocessed_ := maxUnprocessed_ s;
               processedWeight_ := processedWeight_ s;
               unprocessedWeight_ := (unprocessedWeight_ s + w)%V;
               processed_ := processed_ s;
               unprocessed_ := unprocessed_ s ++ [Centroid.mk x w];
               dirty_ := true |} ;;
    Done (s', true).

(* void add(Value x) { add(x, 1); } *)
Definition add (x : Value) (s : t) : outcome t :=
  '(s', _) <- add_w x (of_Z 1) s ;; Done s'.

(* void add(const std::vector<TDigest> others) *)
Definition add_all (others : list t) (s : t) : outcome t :=
  if (0 <? length others)%nat then
    s1 <- mergeProcessed others s ;;
    let s2 := mergeUnprocessed others s1 in
    processIfNecessary
      {| compression_ := compression_ s2; min := min s2; max := max s2;
         maxProcessed_ := maxProcessed_ s2;
         maxUnprocessed_ := maxUnprocessed_ s2;
         processedWeight_ := processedWeight_ s2;
         unprocessedWeight_ := unprocessedWeight_ s2;
         processed_ := processed_ s2;
         unprocessed_ := unprocessed_ s2;
         dirty_ := true |}
  else Done s.

Definition merge (other : t) (s : t) : outcome t := add_all [other] s.

(** *** cdf, quantile *)

Definition cdf (x : Value) (s : t) : outcome (t * (Value * bool)) :=
  s' <- process s ;;
  r <- cdfProcessed x s' ;;
  Done (s', r).

Definition quantile (q : Value) (s : t) : outcome (t * (Value * bool)) :=
  s' <- process s ;;
  r <- quantileProcessed q s' ;;
  Done (s', r).

End WithLibm.

End TDigest.

(** ** The constructor as the program runs it *)

(* static_cast<Index> of a double is defined when the truncated value fits
   the 64-bit Index: not for a NaN, a negative value or one from 2^64 on *)
Definition to_Index_defined (x : Value) : bool :=
  match x with
  | NaN => false
  | Fin q => Qle_bool 0 q && negb (Qle_bool (inject_Z (2 ^ 64)) q)
  end.

(* processedSize and unprocessedSize with the cast checked; [factor] is the
   2 or the 8 *)
Definition checked_size (factor : Z) (size : Index) (compression : Value)
  : outcome Index :=
  if (size =? 0)%nat then
    let x := (of_Z factor * std_ceil compression)%V in
    if to_Index_defined x then Done (to_Index x) else Fault BadCast
  else Done size.

(* std::vector<Centroid>::max_size(): PTRDIFF_MAX / sizeof(Centroid), two
   doubles, on a 64-bit target *)
Definition vector_max_size : Z := (2 ^ 63 - 1) / 16.

(* v.reserve(n) on an empty vector: std::length_error above max_size() *)
Definition reserve (n : Z) : outcome unit :=
  if (n <=? vector_max_size)%Z then Done tt else Fault LengthError.

(* TDigest(Value compression, Index unmergedSize, Index mergedSize): the
   member initialisers, then processed_.reserve(maxProcessed_) and
   unprocessed_.reserve(maxUnprocessed_ + 1), the sum taken in Index.
   [TDigest.new] is the object it leaves when it returns. *)
Definition construct (compression : Value) (unmergedSize mergedSize : Index)
  : outcome TDigest.t :=
  maxProcessed <- checked_size 2 mergedSize compression ;;
  maxUnprocessed <- checked_size 8 unmergedSize compression ;;
  _ <- reserve (Z.of_nat maxProcessed) ;;
  _ <- reserve ((Z.of_nat maxUnprocessed + 1) mod 2 ^ 64) ;;
  Done (TDigest.new compression unmergedSize mergedSize).

(** ** checkWeights *)

(* the for loop of checkWeights(sorted, total), from [iter] to the end *)
Fixpoint checkWeights_loop {libm : Libm} (s : TDigest.t)
         (sorted : list Centroid.t) (total : Value)
         (badWeight : Weight) (k1 q : Value) : Weight :=
  match sorted with
  | [] => badWeight
  | c :: rest =>
      let w := Centroid.weight c in
      let dq := (w / total)%V in
      let k2 := TDigest.integratedLocation s (q + dq)%V in
      let badWeight1 :=
        if (k2 - k1 >? of_Z 1)%V && negb (w ==? of_Z 1)%V
        then (badWeight + of_Z 1)%V else badWeight in
      let badWeight2 :=
        if (k2 - k1 >? Fin (3 # 2))%V && negb (w ==? of_Z 1)%V
        then (badWeight1 + of_Z 1)%V else badWeight1 in
      checkWeights_loop s rest total badWeight2 k2 (q + dq)%V
  end.

(* int checkWeights(const std::vector<Centroid>& sorted, Value total) *)
Definition checkWeights2 {libm : Libm} (s : TDigest.t)
           (sorted : list Centroid.t) (total : Value) : outcome Z :=
  to_long (checkWeights_loop s sorted total (of_Z 0) (of_Z 0) (of_Z 0)).

(* int checkWeights() *)
Definition checkWeights {libm : Libm} (s : TDigest.t) : outcome Z :=
  checkWeights2 s (TDigest.processed_ s) (TDigest.processedWeight_ s).


(** * The same code over binary64 floats

    The add and query paths once more, with [double] the primitive
    binary64 float of the kernel: infinities, NaN, overflow and rounding
    are those of IEEE 754.  Only the number type differs from the
    definitions above. *)

Module IEEE.

Import PrimFloat.
Local Open Scope float_scope.

Abbreviation double := float (only parsing).

(* <cmath> *)
Class Libm : Type := {
  sin : double -> double;
  asin : double -> double;
  ceil : double -> double
}.

Definition M_PI : double := 0x1.921fb54442d18p+1.
Definition DBL_MAX : double := 0x1.fffffffffffffp+1023.
Definition DBL_MIN : double := 0x1p-1022.

(* std::min(a, b) is (b < a) ? b : a and std::max(a, b) is (a < b) ? b : a *)
Definition std_min (a b : double) : double := if b <? a then b else a.
Definition std_max (a b : double) : double := if a <? b then b else a.

(* static_cast<Index>: truncation, defined when the truncated value fits
   the 64-bit Index *)
Definition to_Index (x : double) : outcome Index :=
  match FloatOps.Prim2SF x with
  | SpecFloat.S754_zero _ => Done 0%nat
  | SpecFloat.S754_finite s m e =>
      let z := if (0 <=? e)%Z then (Zpos m * 2 ^ e)%Z
               else (Zpos m / 2 ^ (- e))%Z in
      if s then (if (z =? 0)%Z then Done 0%nat else Fault BadCast)
      else if (z <? 2 ^ 64)%Z then Done (Z.to_nat z) else Fault BadCast
  | _ => Fault BadCast
  end.

Module Centroid.

Record t : Type := mk { mean : double; weight : double }.

(* Centroid::add: weight_ += c.weight_;
   mean_ += c.weight_ * (c.mean_ - mean_) / weight_ *)
Definition add (self c : t) : outcome t :=
  _ <- CHECK (0 <? weight c) ;;
  let weight_ := weight self + weight c in
  let mean_ := mean self + weight c * (mean c - mean self) / weight_ in
  Done (mk mean_ weight_).

End Centroid.

Definition CentroidComparator (a b : Centroid.t) : bool :=
  Centroid.mean a <? Centroid.mean b.

Fixpoint sort_insert (c : Centroid.t) (l : list Centroid.t) : list Centroid.t :=
  match l with
  | [] => [c]
  | d :: l' => if CentroidComparator d c then d :: sort_insert c l'
               else c :: d :: l'
  end.

Definition std_sort (l : list Centroid.t) : list Centroid.t :=
  fold_right sort_insert [] l.

Fixpoint inplace_merge (a : list Centroid.t) : list Centroid.t -> list Centroid.t :=
  fix inner (b : list Centroid.t) : list Centroid.t :=
    match a, b with
    | [], _ => b
    | _, [] => a
    | x :: a', y :: b' =>
        if CentroidComparator y x then y :: inner b'
        else x :: inplace_merge a' b
    end.

Module TDigest.

Record t : Type := mk {
  compression_ : double;
  min : double;
  max : double;
  maxProcessed_ : Index;
  maxUnprocessed_ : Index;
  processedWeight_ : double;
  unprocessedWeight_ : double;
  processed_ : list Centroid.t;
  unprocessed_ : list Centroid.t;
  dirty_ : bool
}.

(* mean(i), weight(i): processed_[i] without a range check *)
Definition mean (s : t) (i : nat) : outcome double :=
  c <- at_index (processed_ s) i ;; Done (Centroid.mean c).
Definition weight (s : t) (i : nat) : outcome double :=
  c <- at_index (processed_ s) i ;; Done (Centroid.weight c).

Definition weightedAverageSorted (x1 w1 x2 w2 : double) : outcome double :=
  _ <- CHECK (x1 <=? x2) ;;
  let x := (x1 * w1 + x2 * w2) / (w1 + w2) in
  Done (std_max x1 (std_min x x2)).

Definition weightedAverage (x1 w1 x2 w2 : double) : outcome double :=
  if x1 <=? x2 then weightedAverageSorted x1 w1 x2 w2
  else weightedAverageSorted x2 w2 x1 w1.

(* for (Weight i = 0; i < n - 1; i++) { ... }; [k] is n - 1 - i *)
Fixpoint quantile_walk (s : t) (index : double) (k i : nat)
         (weightSoFar : double) : outcome (option double) :=
  match k with
  | O => Done None
  | S k' =>
      wi <- weight s i ;;
      wi1 <- weight s (i + 1) ;;
      let dw := (wi + wi1) / 2 in
      if index <? weightSoFar + dw then
        let z1 := index - weightSoFar in
        let z2 := weightSoFar + dw - index in
        mi <- mean s i ;;
        mi1 <- mean s (i + 1) ;;
        r <- weightedAverage mi z2 mi1 z1 ;;
        Done (Some r)
      else quantile_walk s index k' (S i) (weightSoFar + dw)
  end.

(* Value quantileProcessed(Value q, bool* success) const *)
Definition quantileProcessed (q : double) (s : t) : outcome (double * bool) :=
  if (q <? 0) || (1 <? q) then Done (0, false)
  else
    match processed_ s with
    | [] => Done (0, false)
    | [c] => Done (Centroid.mean c, true)
    | _ =>
        let n := length (processed_ s) in
        let index := q * processedWeight_ s in
        w0 <- weight s 0 ;;
        if index <? w0 / 2 then
          _ <- CHECK (0 <? w0) ;;
          m0 <- mean s 0 ;;
          Done (min s + 2 * index / w0 * (m0 - min s), true)
        else
          found <- quantile_walk s index (n - 1) 0 (w0 / 2) ;;
          match found with
          | Some r => Done (r, true)
          | None =>
              _ <- CHECK (index <=? processedWeight_ s) ;;
              wn <- weight s (n - 1) ;;
              _ <- CHECK (processedWeight_ s - wn / 2 <=? index) ;;
              let z1 := index - processedWeight_ s - wn / 2 in
              let z2 := wn / 2 - z1 in
              mn <- mean s (n - 1) ;;
              r <- weightedAverage mn z1 (max s) z2 ;;
              Done (r, true)
          end
    end.

Section WithLibm.
Context {libm : Libm}.

Definition processedSize (size : Index) (compression : double) : outcome Index :=
  if (size =? 0)%nat then to_Index (2 * ceil compression) else Done size.

Definition unprocessedSize (size : Index) (compression : double)
  : outcome Index :=
  if (size =? 0)%nat then to_Index (8 * ceil compression) else Done size.

(* TDigest(Value compression, Index unmergedSize, Index mergedSize) *)
Definition new (compression : double) (unmergedSize mergedSize : Index)
  : outcome t :=
  maxProcessed <- processedSize mergedSize compression ;;
  maxUnprocessed <- unprocessedSize unmergedSize compression ;;
  _ <- reserve (Z.of_nat maxProcessed) ;;
  _ <- reserve ((Z.of_nat maxUnprocessed + 1) mod 2 ^ 64) ;;
  Done {| compression_ := compression;
          min := DBL_MAX;
          max := DBL_MIN;
          maxProcessed_ := maxProcessed;
          maxUnprocessed_ := maxUnprocessed;
          processedWeight_ := 0;
          unprocessedWeight_ := 0;
          processed_ := [];
          unprocessed_ := [];
          dirty_ := false |}.

Definition integratedLocation (s : t) (q : double) : double :=
  compression_ s * (asin (2 * q - 1) + M_PI / 2) / M_PI.

Definition integratedQ (s : t) (k : double) : double :=
  (sin (std_min k (compression_ s) * M_PI / compression_ s - M_PI / 2) + 1) / 2.

(* (processed_.end() - 1)->add(centroid) *)
Definition add_to_back (v : list Centroid.t) (centroid : Centroid.t)
  : outcome (list Centroid.t) :=
  match v with
  | [] => Fault OutOfBounds
  | c0 :: _ =>
      c' <- Centroid.add (last v c0) centroid ;;
      Done (removelast v ++ [c'])
  end.

Record clustering : Type := {
  out : list Centroid.t;
  wSoFar : double;
  wLimit : double
}.

(* for (auto& centroid : unprocessed_) { ... } *)
Fixpoint cluster (s : t) (pw : double) (l : list Centroid.t)
         (st : clustering) : outcome clustering :=
  match l with
  | [] => Done st
  | centroid :: l' =>
      let projectedW := wSoFar st + Centroid.weight centroid in
      if projectedW <=? wLimit st then
        out' <- add_to_back (out st) centroid ;;
        cluster s pw l'
                {| out := out'; wSoFar := projectedW; wLimit := wLimit st |}
      else
        let k1 := integratedLocation s (wSoFar st / pw) in
        cluster s pw l'
                {| out := out st ++ [centroid];
                   wSoFar := wSoFar st + Centroid.weight centroid;
                   wLimit := pw * integratedQ s (k1 + 1) |}
  end.

Definition process (s : t) : outcome t :=
  if negb (dirty_ s) then Done s
  else
    let all := inplace_merge (std_sort (unprocessed_ s)) (processed_ s) in
    let pw := processedWeight_ s + unprocessedWeight_ s in
    let s1 := {| compression_ := compression_ s; min := min s; max := max s;
                 maxProcessed_ := maxProcessed_ s;
                 maxUnprocessed_ := maxUnprocessed_ s;
                 processedWeight_ := pw;
                 unprocessedWeight_ := 0;
                 processed_ := [];
                 unprocessed_ := all;
                 dirty_ := dirty_ s |} in
    first <- at_index all 0 ;;
    st <- cluster s1 pw all
            {| out := [first];
               wSoFar := Centroid.weight first;
               wLimit := pw * integratedQ s1 1 |} ;;
    front <- at_index (out st) 0 ;;
    back <- at_index (out st) (length (out st) - 1) ;;
    Done {| compression_ := compression_ s;
            min := std_min (min s) (Centroid.mean front);
            max := std_max (max s) (Centroid.mean back);
            maxProcessed_ := maxProcessed_ s;
            maxUnprocessed_ := maxUnprocessed_ s;
            processedWeight_ := pw;
            unprocessedWeight_ := 0;
            processed_ := out st;
            unprocessed_ := [];
            dirty_ := false |}.

Definition processIfNecessary (s : t) : outcome t :=
  if (maxUnprocessed_ s <? length (unprocessed_ s))%nat
     || (maxProcessed_ s <? length (processed_ s))%nat
  then process s
  else Done s.

Definition compress (s : t) : outcome t := processIfNecessary s.

(* bool add(Value x, Weight w) *)
Definition add_w (x : double) (w : double) (s : t) : outcome (t * bool) :=
  if is_nan x then Done (s, false)
  else
    s' <- processIfNecessary
            {| compression_ := compression_ s; min := min s; max := max s;
               maxProcessed_ := maxProcessed_ s;
               maxUnprocessed_ := maxUnprocessed_ s;
               processedWeight_ := processedWeight_ s;
               unprocessedWeight_ := unprocessedWeight_ s + w;
               processed_ := processed_ s;
               unprocessed_ := unprocessed_ s ++ [Centroid.mk x w];
               dirty_ := true |} ;;
    Done (s', true).

(* void add(Value x) { add(x, 1); } *)
Definition add (x : double) (s : t) : outcome t :=
  '(s', _) <- add_w x 1 s ;; Done s'.

Definition quantile (q : double) (s : t) : outcome (t * (double * bool)) :=
  s' <- process s ;;
  r <- quantileProcessed q s' ;;
  Done (s', r).

End WithLibm.

End TDigest.

(* every centroid's mean is at most the next one's *)
Definition ascending (l : list Centroid.t) : Prop :=
  forall i a b,
    nth_error l i = Some a -> nth_error l (S i) = Some b ->
    (Centroid.mean a <=? Centroid.mean b) = true.

End IEEE.

(** * Properties *)

Unset Implicit Arguments.

(** ** Order on values *)

Definition Vle (a b : Value) : Prop :=
  match a, b with
  | Fin x, Fin y => (x <= y)%Q
  | _, _ => False
  end.

Definition finite (a : Value) : Prop := isnan a = false.

Lemma Vleb_true a b : (a <=? b)%V = true <-> Vle a b.
Proof.
  destruct a as [|x], b as [|y]; simpl; try (split; [discriminate | tauto]).
  apply Qle_bool_iff.
Qed.

Lemma Vltb_false a b : finite a -> finite b -> (a <? b)%V = false -> Vle b a.
Proof.
  destruct a as [|x], b as [|y]; unfold finite; simpl; try discriminate.
  intros _ _ H. apply negb_false_iff in H. now apply Qle_bool_iff.
Qed.

Lemma Vltb_true a b : (a <? b)%V = true -> Vle a b.
Proof.
  destruct a as [|x], b as [|y]; simpl; try discriminate.
  intros H. apply negb_true_iff in H.
  destruct (Qlt_le_dec x y) as [L | L]; [now apply Qlt_le_weak|].
  apply Qle_bool_iff in L. congruence.
Qed.

Lemma Vle_refl a : finite a -> Vle a a.
Proof. destruct a; unfold finite; simpl; [discriminate | intros; apply Qle_refl]. Qed.

Lemma Vle_trans a b c : Vle a b -> Vle b c -> Vle a c.
Proof.
  destruct a, b, c; simpl; try tauto. apply Qle_trans.
Qed.

Lemma Vle_finite_l a b : Vle a b -> finite a.
Proof. destruct a, b; simpl; try tauto; reflexivity. Qed.

Lemma Vle_finite_r a b : Vle a b -> finite b.
Proof. destruct a, b; simpl; try tauto; reflexivity. Qed.

Lemma std_min_le_r a b : finite a -> finite b -> Vle (std_min a b) b.
Proof.
  intros Fa Fb. unfold std_min. destruct (b <? a)%V eqn:E.
  - now apply Vle_refl.
  - now apply Vltb_false.
Qed.

Lemma std_min_le_l a b : finite a -> finite b -> Vle (std_min a b) a.
Proof.
  intros Fa Fb. unfold std_min. destruct (b <? a)%V eqn:E.
  - now apply Vltb_true.
  - now apply Vle_refl.
Qed.

Lemma std_max_ge_r a b : finite a -> finite b -> Vle b (std_max a b).
Proof.
  intros Fa Fb. unfold std_max. destruct (a <? b)%V eqn:E.
  - now apply Vle_refl.
  - now apply Vltb_false.
Qed.

Lemma std_max_ge_l a b : finite a -> finite b -> Vle a (std_max a b).
Proof.
  intros Fa Fb. unfold std_max. destruct (a <? b)%V eqn:E.
  - now apply Vltb_true.
  - now apply Vle_refl.
Qed.

Lemma std_min_finite a b : finite a -> finite b -> finite (std_min a b).
Proof. intros. unfold std_min. now destruct (b <? a)%V. Qed.

Lemma std_max_finite a b : finite a -> finite b -> finite (std_max a b).
Proof. intros. unfold std_max. now destruct (a <? b)%V. Qed.

(** ** Centroids with a finite mean and a positive weight *)

Definition good (c : Centroid.t) : Prop :=
  match Centroid.mean c, Centroid.weight c with
  | Fin _, Fin w => (0 < w)%Q
  | _, _ => False
  end.

Definition mean_le (a b : Centroid.t) : Prop :=
  Vle (Centroid.mean a) (Centroid.mean b).

Definition sorted_by_mean (l : list Centroid.t) : Prop :=
  StronglySorted mean_le l.

Lemma good_finite c : good c -> finite (Centroid.mean c).
Proof. unfold good. destruct (Centroid.mean c); [tauto | reflexivity]. Qed.

Lemma mean_le_refl c : good c -> mean_le c c.
Proof. intros G. apply Vle_refl. now apply good_finite. Qed.

Lemma mean_le_trans a b c : mean_le a b -> mean_le b c -> mean_le a c.
Proof. apply Vle_trans. Qed.

Lemma not_below c d :
  good c -> good d -> CentroidComparator c d = false -> mean_le d c.
Proof.
  intros Gc Gd H. apply Vltb_false; auto using good_finite.
Qed.

Lemma below c d : CentroidComparator c d = true -> mean_le c d.
Proof. apply Vltb_true. Qed.

Create HintDb tdigest.
#[local] Hint Resolve mean_le_refl not_below below : tdigest.
#[local] Hint Constructors StronglySorted Forall : tdigest.

Lemma all_below_trans l x y :
  Forall (fun a => mean_le a x) l -> mean_le x y ->
  Forall (fun a => mean_le a y) l.
Proof.
  intros H Hxy. eapply Forall_impl; [|exact H].
  intros a Ha. simpl in Ha. exact (mean_le_trans _ _ _ Ha Hxy).
Qed.

Lemma all_above_trans l x y :
  mean_le x y -> Forall (mean_le y) l -> Forall (mean_le x) l.
Proof.
  intros Hxy H. eapply Forall_impl; [|exact H].
  intros a Ha. exact (mean_le_trans _ _ _ Hxy Ha).
Qed.

(** ** Sortedness of lists built at the back *)

Lemma sorted_snoc l x :
  sorted_by_mean l -> Forall (fun y => mean_le y x) l ->
  sorted_by_mean (l ++ [x]).
Proof.
  unfold sorted_by_mean. induction 1 as [| a l Hs IH Ha]; intros Hx; simpl.
  - repeat constructor.
  - inversion Hx; subst. constructor; [now apply IH|].
    apply Forall_app. split; [assumption | now constructor].
Qed.

Lemma sorted_snoc_inv l x :
  sorted_by_mean (l ++ [x]) ->
  sorted_by_mean l /\ Forall (fun y => mean_le y x) l.
Proof.
  unfold sorted_by_mean. induction l as [| a l IH]; simpl; intros H.
  - split; constructor.
  - inversion H as [| ? ? Hs Ha]; subst.
    destruct (IH Hs) as [Hl Hx].
    apply Forall_app in Ha. destruct Ha as [Ha1 Ha2].
    split; constructor; auto. now inversion Ha2.
Qed.

(** ** std::sort and std::inplace_merge *)

Lemma sort_insert_perm c l : Permutation (c :: l) (sort_insert c l).
Proof.
  induction l as [| d l IH]; simpl; [reflexivity|].
  destruct (CentroidComparator d c); [|reflexivity].
  rewrite perm_swap. now constructor.
Qed.

Lemma std_sort_perm l : Permutation l (std_sort l).
Proof.
  induction l as [| c l IH]; simpl; [constructor|].
  rewrite <- sort_insert_perm. now constructor.
Qed.

Lemma sort_insert_sorted c l :
  good c -> Forall good l -> sorted_by_mean l -> sorted_by_mean (sort_insert c l).
Proof.
  intros Gc Gl Hs. induction Hs as [| d l Hs IH Hd]; simpl.
  - repeat constructor.
  - inversion Gl; subst.
    destruct (CentroidComparator d c) eqn:E.
    + constructor; [now apply IH|].
      rewrite <- sort_insert_perm. constructor; auto with tdigest.
    + assert (mean_le c d) by auto with tdigest.
      constructor; [now constructor|].
      constructor; [assumption|].
      eapply Forall_impl; [|exact Hd]. intros; eapply mean_le_trans; eauto.
Qed.

Lemma std_sort_sorted l : Forall good l -> sorted_by_mean (std_sort l).
Proof.
  induction 1 as [| c l Gc Gl IH]; simpl; [constructor|].
  apply sort_insert_sorted; auto.
  now rewrite <- std_sort_perm.
Qed.

Lemma inplace_merge_cons x a y b :
  inplace_merge (x :: a) (y :: b) =
  if CentroidComparator y x then y :: inplace_merge (x :: a) b
  else x :: inplace_merge a (y :: b).
Proof. reflexivity. Qed.

Lemma inplace_merge_nil_r a : inplace_merge a [] = a.
Proof. now destruct a. Qed.

Lemma inplace_merge_perm a b : Permutation (a ++ b) (inplace_merge a b).
Proof.
  revert b. induction a as [| x a IHa]; intros b.
  - destruct b; reflexivity.
  - induction b as [| y b IHb].
    + rewrite inplace_merge_nil_r. now rewrite app_nil_r.
    + rewrite inplace_merge_cons. destruct (CentroidComparator y x).
      * rewrite <- IHb. symmetry. apply Permutation_middle with (l1 := x :: a).
      * constructor. apply IHa.
Qed.

Lemma inplace_merge_sorted a b :
  Forall good a -> Forall good b ->
  sorted_by_mean a -> sorted_by_mean b -> sorted_by_mean (inplace_merge a b).
Proof.
  intros Ga Gb Sa. revert Ga b Gb.
  induction Sa as [| x a Sa IHa Hx]; intros Ga b Gb Sb.
  - destruct b; assumption.
  - inversion Ga; subst.
    induction Sb as [| y b Sb IHb Hy].
    + rewrite inplace_merge_nil_r. now constructor.
    + inversion Gb; subst. rewrite inplace_merge_cons.
      destruct (CentroidComparator y x) eqn:E.
      * constructor; [now apply IHb|].
        rewrite <- inplace_merge_perm.
        assert (mean_le y x) by auto with tdigest.
        apply Forall_app. split; [|assumption].
        constructor; [assumption|].
        eapply Forall_impl; [|exact Hx]. intros; eapply mean_le_trans; eauto.
      * constructor; [apply IHa; auto; now constructor|].
        rewrite <- inplace_merge_perm.
        assert (mean_le x y) by auto with tdigest.
        apply Forall_app. split; [assumption|].
        constructor; [assumption|].
        eapply Forall_impl; [|exact Hy]. intros; eapply mean_le_trans; eauto.
Qed.


(** ** Centroid::add *)

Lemma good_inv c :
  good c -> exists m w, c = Centroid.mk (Fin m) (Fin w) /\ (0 < w)%Q.
Proof.
  destruct c as [[|m] [|w]]; unfold good; simpl; try tauto.
  intros H. now exists m, w.
Qed.

Lemma weighted_step (m mc W w : Q) :
  (0 < W)%Q -> (0 < w)%Q -> (m <= mc)%Q ->
  (m <= m + w * (mc - m) / (W + w) <= mc)%Q.
Proof.
  intros HW Hw Hm.
  set (r := (w * (mc - m) / (W + w))%Q).
  assert (E : (r * (W + w) == w * (mc - m))%Q).
  { unfold r. field. lra. }
  assert (0 <= r)%Q.
  { destruct (Qlt_le_dec r 0) as [L | L]; [|assumption]. exfalso. nra. }
  assert (r <= mc - m)%Q.
  { destruct (Qlt_le_dec (mc - m) r) as [L | L]; [|assumption]. exfalso. nra. }
  lra.
Qed.

Lemma positive_gtb w : (0 < w)%Q -> (Fin w >? of_Z 0)%V = true.
Proof.
  intros H. unfold Vgtb, of_Z. simpl. apply negb_true_iff.
  destruct (Qle_bool w (inject_Z 0)) eqn:E; [|reflexivity].
  apply Qle_bool_iff in E. unfold inject_Z in E. lra.
Qed.

Lemma nonzero_eqb q : ~ (q == 0)%Q -> Qeq_bool (Qred q) 0%Q = false.
Proof.
  intros H. destruct (Qeq_bool (Qred q) 0%Q) eqn:E; [|reflexivity].
  apply Qeq_bool_iff in E. rewrite Qred_correct in E. contradiction.
Qed.

Lemma Centroid_add_good cur c :
  good cur -> good c -> mean_le cur c ->
  exists cur', Centroid.add cur c = Done cur' /\ good cur' /\
               mean_le cur cur' /\ mean_le cur' c.
Proof.
  intros Gcur Gc Hle.
  destruct (good_inv _ Gcur) as (m & W & -> & HW).
  destruct (good_inv _ Gc) as (mc & w & -> & Hw).
  unfold mean_le in Hle. simpl in Hle.
  unfold Centroid.add. cbn [Centroid.weight Centroid.mean].
  rewrite (positive_gtb _ Hw). cbn [CHECK bind].
  eexists. split; [reflexivity|].
  unfold mean_le, good. cbn [Centroid.weight Centroid.mean Vadd Vsub Vmul lift2 Vdiv].
  rewrite nonzero_eqb by lra.
  cbn [lift2 Vle]. rewrite !Qred_correct.
  pose proof (weighted_step _ _ _ _ HW Hw Hle). repeat split; lra.
Qed.

(** ** The clustering loop of process *)

Section Clustering.
Context {libm : Libm}.

Lemma add_to_back_snoc pre cur c :
  TDigest.add_to_back (pre ++ [cur]) c =
  (c' <- Centroid.add cur c ;; Done (pre ++ [c'])).
Proof.
  unfold TDigest.add_to_back.
  destruct (pre ++ [cur]) eqn:E; [now destruct pre|].
  rewrite <- E, last_last, removelast_last. reflexivity.
Qed.

(* what the loop keeps: [out] is sorted, its centroids are good, and its
   last centroid lies below everything still to come *)
Definition cluster_ok (l : list Centroid.t) (o : list Centroid.t) : Prop :=
  exists pre cur,
    o = pre ++ [cur] /\ Forall good o /\ sorted_by_mean o /\
    Forall (mean_le cur) l.

Lemma cluster_sorted s pw l : forall st,
  Forall good l -> sorted_by_mean l -> cluster_ok l (TDigest.out st) ->
  exists st', TDigest.cluster s pw l st = Done st' /\
              cluster_ok [] (TDigest.out st').
Proof.
  induction l as [| c l IH]; intros st Gl Sl Hok.
  - exists st. split; [reflexivity|].
    destruct Hok as (pre & cur & E & G & S & _).
    exists pre, cur. auto.
  - inversion Gl as [| ? ? Gc Gl']; subst.
    inversion Sl as [| ? ? Sl' Hc]; subst.
    destruct Hok as (pre & cur & E & G & S & Hcur).
    inversion Hcur as [| ? ? Hcc Hcl]; subst.
    cbn [TDigest.cluster]. rewrite E in G, S |- *.
    apply Forall_app in G. destruct G as [Gpre Gcur].
    inversion Gcur as [| ? ? Gcur' _]; subst.
    apply sorted_snoc_inv in S. destruct S as [Spre Hpre].
    destruct (_ <=? _)%V.
    + rewrite add_to_back_snoc.
      destruct (Centroid_add_good _ _ Gcur' Gc Hcc) as (cur' & -> & G' & L1 & L2).
      cbn [bind]. apply IH; auto.
      exists pre, cur'. cbn [TDigest.out]. repeat split.
      * apply Forall_app. split; auto.
      * apply sorted_snoc; auto. eapply all_below_trans; eauto.
      * eapply all_above_trans; eauto.
    + apply IH; auto. cbn [TDigest.out].
      exists (pre ++ [cur]), c. repeat split; auto.
      * repeat (apply Forall_app; split; auto).
      * apply sorted_snoc; [now apply sorted_snoc|].
        apply Forall_app. split; [|now repeat constructor].
        eapply all_below_trans; eauto.
Qed.

End Clustering.

(** ** The k-way merge of mergeProcessed *)

(* what a cursor still has to deliver *)
Definition remaining (c : CentroidList) : list Centroid.t :=
  skipn (iter c) (src c).

Definition pending (pq : CentroidListQueue) : list Centroid.t :=
  flat_map remaining pq.

(* a cursor inside its vector, over good centroids in ascending order *)
Definition cursor_ok (c : CentroidList) : Prop :=
  end_ c = length (src c) /\ iter c < length (src c) /\
  Forall good (remaining c) /\ sorted_by_mean (remaining c).

(* the order the queue is kept in *)
Definition cur_le (c d : CentroidList) : Prop :=
  exists x y, deref c = Done x /\ deref d = Done y /\ mean_le x y.

Lemma skipn_nth_error {A} (l : list A) i x :
  nth_error l i = Some x -> skipn i l = x :: skipn (S i) l.
Proof.
  revert l. induction i as [| i IH]; intros [| a l] H; try discriminate.
  - now inversion H.
  - simpl in H. rewrite skipn_cons. rewrite (IH _ H). reflexivity.
Qed.

Lemma deref_remaining c :
  iter c < length (src c) ->
  exists x, deref c = Done x /\ remaining c = x :: skipn (S (iter c)) (src c).
Proof.
  intros H. unfold deref, at_index, remaining.
  destruct (nth_error (src c) (iter c)) as [x|] eqn:E.
  - exists x. split; [reflexivity | now apply skipn_nth_error].
  - apply nth_error_Some in H. contradiction.
Qed.

Lemma deref_exhausted c :
  length (src c) <= iter c -> deref c = Fault OutOfBounds.
Proof.
  intros H. unfold deref, at_index.
  apply nth_error_None in H. now rewrite H.
Qed.

Lemma cursor_of_ok s :
  s <> [] -> Forall good s -> sorted_by_mean s -> cursor_ok (CentroidList_of s).
Proof.
  intros Hne G S. unfold cursor_ok, remaining. simpl.
  repeat split; auto. destruct s; [contradiction | simpl; lia].
Qed.

Lemma cur_le_trans c d e : cur_le c d -> cur_le d e -> cur_le c e.
Proof.
  intros (x & y & Hx & Hy & L1) (y' & z & Hy' & Hz & L2).
  rewrite Hy in Hy'. inversion Hy'; subst.
  exists x, z. repeat split; auto. eapply mean_le_trans; eauto.
Qed.

Lemma comparator_ok c d :
  cursor_ok c -> cursor_ok d ->
  exists b, CentroidListComparator d c = Done b /\
            (b = true -> cur_le c d) /\ (b = false -> cur_le d c).
Proof.
  intros (_ & Ic & Gc & _) (_ & Id & Gd & _).
  destruct (deref_remaining c Ic) as (x & Hx & Rx).
  destruct (deref_remaining d Id) as (y & Hy & Ry).
  rewrite Rx in Gc. rewrite Ry in Gd.
  inversion Gc; inversion Gd; subst.
  unfold CentroidListComparator. rewrite Hx, Hy. cbn [bind].
  eexists. split; [reflexivity|]. split; intros E.
  - exists x, y. repeat split; auto. now apply Vltb_true.
  - exists y, x. repeat split; auto.
    apply Vltb_false; auto using good_finite.
Qed.

Lemma pq_push_ok c q :
  cursor_ok c -> Forall cursor_ok q -> StronglySorted cur_le q ->
  exists q', pq_push c q = Done q' /\ Permutation (c :: q) q' /\
             StronglySorted cur_le q'.
Proof.
  intros Hc Hq Sq. induction Sq as [| d q Sq IH Hd]; simpl.
  - exists [c]. repeat split; auto. repeat constructor.
  - inversion Hq as [| ? ? Od Oq]; subst.
    destruct (comparator_ok c d Hc Od) as (b & -> & Ht & Hf). cbn [bind].
    destruct b.
    + exists (c :: d :: q). repeat split; auto.
      constructor; [now constructor|].
      constructor; [now apply Ht|].
      eapply Forall_impl; [|exact Hd].
      intros e He. eapply cur_le_trans; [now apply Ht | exact He].
    + destruct (IH Oq) as (q' & -> & P & S'). cbn [bind].
      exists (d :: q'). repeat split.
      * rewrite perm_swap. now constructor.
      * constructor; [assumption|].
        rewrite <- P. constructor; [now apply Hf | assumption].
Qed.

(* cursors that can be dereferenced, whatever their centroids are *)
Definition in_range (c : CentroidList) : Prop :=
  iter c < length (src c) /\ end_ c = length (src c).

Lemma deref_in_range c : in_range c -> exists x, deref c = Done x.
Proof.
  intros [H _]. destruct (deref_remaining c H) as (x & Hx & _). now exists x.
Qed.

Lemma cursor_of_in_range s : 0 < length s -> in_range (CentroidList_of s).
Proof. intros H. split; [exact H | reflexivity]. Qed.

Lemma pq_push_perm c q q' :
  pq_push c q = Done q' -> Permutation (c :: q) q'.
Proof.
  revert q'. induction q as [| d q IH]; intros q' E; simpl in E.
  - now inversion E.
  - destruct (CentroidListComparator d c) as [b |]; cbn [bind] in E;
      [|discriminate].
    destruct b.
    + now inversion E.
    + destruct (pq_push c q) as [q1 |]; cbn [bind] in E; [|discriminate].
      inversion E; subst. rewrite perm_swap. constructor. now apply IH.
Qed.

Lemma pq_push_in_range c q :
  in_range c -> Forall in_range q ->
  exists q', pq_push c q = Done q' /\ Forall in_range q'.
Proof.
  intros Hc Hq. induction Hq as [| d q Hd Hq IH]; simpl.
  - exists [c]. split; [reflexivity | now constructor].
  - unfold CentroidListComparator.
    destruct (deref_in_range d Hd) as (y & ->).
    destruct (deref_in_range c Hc) as (x & ->). cbn [bind].
    destruct (_ >? _)%V.
    + eexists. split; [reflexivity|].
      constructor; [assumption | now constructor].
    + destruct IH as (q' & -> & Hq'). cbn [bind].
      eexists. split; [reflexivity|]. now constructor.
Qed.

Lemma pq_push_exhausted c d q :
  in_range d -> length (src c) <= iter c ->
  pq_push c (d :: q) = Fault OutOfBounds.
Proof.
  intros Hd H. simpl. unfold CentroidListComparator.
  destruct (deref_in_range d Hd) as (y & ->). cbn [bind].
  now rewrite (deref_exhausted c H).
Qed.

Lemma collect_in_range tdigests : forall total pq pw,
  Forall in_range pq ->
  exists pq' pw',
    TDigest.collect tdigests total pq pw =
      Done (total + length (flat_map TDigest.processed_ tdigests), pq', pw') /\
    Forall in_range pq' /\
    Permutation (pending pq ++ flat_map TDigest.processed_ tdigests)
                (pending pq').
Proof.
  induction tdigests as [| td rest IH]; intros total pq pw Hpq.
  - exists pq, pw. simpl. rewrite Nat.add_0_r, app_nil_r. auto.
  - cbn [TDigest.collect].
    destruct (0 <? length (TDigest.processed_ td))%nat eqn:E.
    + apply Nat.ltb_lt in E.
      destruct (pq_push_in_range (CentroidList_of (TDigest.processed_ td)) pq)
        as (pq1 & E1 & Hpq1); auto using cursor_of_in_range.
      pose proof (pq_push_perm _ _ _ E1) as P. rewrite E1. cbn [bind].
      destruct (IH (total + length (TDigest.processed_ td)) pq1
                   (pw + TDigest.processedWeight_ td)%V Hpq1)
        as (pq' & pw' & -> & Hpq' & P').
      exists pq', pw'. repeat split; auto.
      * simpl. rewrite length_app. do 3 f_equal. lia.
      * assert (Pq : Permutation (TDigest.processed_ td ++ pending pq)
                                 (pending pq1)).
        { unfold pending. now rewrite <- P. }
        rewrite <- P', <- Pq. simpl. rewrite !app_assoc.
        apply Permutation_app_tail, Permutation_app_comm.
    + apply Nat.ltb_ge in E.
      assert (En : TDigest.processed_ td = []).
      { destruct (TDigest.processed_ td); [reflexivity | simpl in E; lia]. }
      destruct (IH total pq pw Hpq) as (pq' & pw' & -> & Hpq' & P').
      exists pq', pw'. simpl. rewrite En. simpl. auto.
Qed.

(** The receiver's own cursor is pushed whether or not [processed_] is
    empty; when it is empty the cursor is read past the end, in the
    comparator if another cursor is queued and at [*best.iter] if not. *)
Lemma mergeProcessed_empty_receiver others s :
  others <> [] -> TDigest.processed_ s = [] ->
  TDigest.mergeProcessed others s = Fault OutOfBounds.
Proof.
  intros Hne He. unfold TDigest.mergeProcessed.
  destruct others as [| o others']; [contradiction|].
  destruct (collect_in_range (o :: others') (length (TDigest.processed_ s)) []
              (TDigest.processedWeight_ s)) as (pq & pw & -> & Hpq & _);
    [constructor|].
  cbn [bind]. rewrite He.
  destruct pq as [| d q].
  - reflexivity.
  - inversion Hpq; subst. rewrite pq_push_exhausted; auto.
Qed.

(** With cursors inside their vectors the loop of mergeProcessed ends
    within the fuel it is given and delivers every pending centroid once,
    whatever the order of the sources. *)

Lemma in_range_head c :
  in_range c -> exists x rest, deref c = Done x /\ remaining c = x :: rest.
Proof.
  intros [H _]. destruct (deref_remaining c H) as (x & Hx & R). eauto.
Qed.

Lemma advance_in_range c x rest :
  in_range c -> remaining c = x :: rest ->
  remaining (fst (advance c)) = rest /\
  (snd (advance c) = true -> in_range (fst (advance c))) /\
  (snd (advance c) = false -> rest = []).
Proof.
  intros [I E] R.
  destruct (deref_remaining c I) as (x' & _ & R').
  rewrite R in R'.
  assert (Hrest : rest = skipn (Datatypes.S (iter c)) (src c)) by congruence.
  clear R'.
  unfold advance. cbn [fst snd].
  unfold in_range, remaining. cbn [iter src end_]. rewrite <- Hrest, E.
  split; [reflexivity|]. split; intros Hm.
  - apply negb_true_iff, Nat.eqb_neq in Hm. split; [lia | reflexivity].
  - apply negb_false_iff, Nat.eqb_eq in Hm.
    rewrite Hrest, Hm. apply skipn_all.
Qed.

Lemma merge_loop_total : forall fuel pq acc,
  Forall in_range pq -> length (pending pq) <= fuel ->
  exists out, TDigest.merge_loop fuel pq acc = Done out /\
              Permutation (acc ++ pending pq) out.
Proof.
  induction fuel as [| fuel IH]; intros pq acc Hok Hfuel;
    destruct pq as [| best pq'];
    try (exists acc; simpl; rewrite app_nil_r; split; reflexivity).
  - exfalso. inversion Hok as [| ? ? Ob _]; subst.
    destruct (in_range_head best Ob) as (x & rest & _ & R).
    unfold pending in Hfuel. simpl in Hfuel. rewrite R in Hfuel.
    simpl in Hfuel. lia.
  - inversion Hok as [| ? ? Ob Oq]; subst.
    destruct (in_range_head best Ob) as (x & rest & Hx & R).
    destruct (advance_in_range best x rest Ob R) as (R1 & Hmore & Hlast).
    cbn [TDigest.merge_loop]. rewrite Hx. cbn [bind].
    destruct (advance best) as [best1 more]. cbn [fst snd] in *.
    unfold pending in Hfuel. simpl in Hfuel. rewrite R in Hfuel.
    simpl in Hfuel. fold (pending pq') in Hfuel.
    assert (Ex : pending (best :: pq') = x :: rest ++ pending pq').
    { unfold pending. simpl. now rewrite R. }
    rewrite Ex. destruct more.
    + destruct (pq_push_in_range best1 pq' (Hmore eq_refl) Oq)
        as (q1 & E1 & Hq1).
      pose proof (pq_push_perm _ _ _ E1) as P. rewrite E1. cbn [bind].
      assert (Pp : Permutation (rest ++ pending pq') (pending q1)).
      { unfold pending. rewrite <- P. simpl. now rewrite R1. }
      destruct (IH q1 (acc ++ [x]) Hq1) as (out & -> & Po).
      { rewrite <- Pp. lia. }
      exists out. split; [reflexivity|].
      rewrite <- Po, <- Pp, <- app_assoc. reflexivity.
    + cbn [bind]. rewrite (Hlast eq_refl) in *. simpl in *.
      destruct (IH pq' (acc ++ [x]) Oq) as (out & -> & Po); [lia|].
      exists out. split; [reflexivity|].
      rewrite <- Po, <- app_assoc. reflexivity.
Qed.

Lemma mergeProcessed_total others s :
  others <> [] -> TDigest.processed_ s <> [] ->
  exists sorted pw,
    TDigest.mergeProcessed others s =
      Done {| TDigest.compression_ := TDigest.compression_ s;
              TDigest.min := TDigest.min s; TDigest.max := TDigest.max s;
              TDigest.maxProcessed_ := TDigest.maxProcessed_ s;
              TDigest.maxUnprocessed_ := TDigest.maxUnprocessed_ s;
              TDigest.processedWeight_ := pw;
              TDigest.unprocessedWeight_ := TDigest.unprocessedWeight_ s;
              TDigest.processed_ := sorted;
              TDigest.unprocessed_ := TDigest.unprocessed_ s;
              TDigest.dirty_ := TDigest.dirty_ s |} /\
    Permutation (flat_map TDigest.processed_ others ++ TDigest.processed_ s)
                sorted.
Proof.
  intros Hne Hs. unfold TDigest.mergeProcessed.
  destruct others as [| o others']; [contradiction|].
  destruct (collect_in_range (o :: others') (length (TDigest.processed_ s)) []
              (TDigest.processedWeight_ s)) as (pq & pw & -> & Hpq & P);
    [constructor|].
  cbn [bind].
  assert (Hown : in_range (CentroidList_of (TDigest.processed_ s))).
  { apply cursor_of_in_range. destruct (TDigest.processed_ s);
      [contradiction | simpl; lia]. }
  destruct (pq_push_in_range _ pq Hown Hpq) as (pq1 & E1 & Hpq1).
  pose proof (pq_push_perm _ _ _ E1) as P1. rewrite E1. cbn [bind].
  assert (Pp : Permutation
                 (TDigest.processed_ s ++ flat_map TDigest.processed_ (o :: others'))
                 (pending pq1)).
  { unfold pending at 1. rewrite <- P1. simpl flat_map at 2.
    unfold remaining at 1. simpl skipn. fold (pending pq).
    apply Permutation_app_head. exact P. }
  destruct (merge_loop_total
              (S (length (TDigest.processed_ s)
                  + length (flat_map TDigest.processed_ (o :: others'))))
              pq1 [] Hpq1) as (out & -> & Po).
  { rewrite <- Pp, length_app. lia. }
  cbn [bind]. exists out, pw. split; [reflexivity|].
  rewrite <- Po. simpl app at 2. rewrite <- Pp. apply Permutation_app_comm.
Qed.

Lemma mergeProcessed_within_fuel others s :
  TDigest.mergeProcessed others s <> Fault OutOfFuel.
Proof.
  destruct others as [| o others'] eqn:Eo; [discriminate|]. rewrite <- Eo.
  assert (Hne : others <> []) by (rewrite Eo; discriminate).
  destruct (TDigest.processed_ s) as [| c l] eqn:Ep.
  - rewrite mergeProcessed_empty_receiver by assumption. discriminate.
  - destruct (mergeProcessed_total others s Hne) as (sorted & pw & -> & _).
    + rewrite Ep. discriminate.
    + discriminate.
Qed.

Lemma cursor_ok_head c :
  cursor_ok c ->
  exists x rest, deref c = Done x /\ remaining c = x :: rest /\
                 good x /\ Forall (mean_le x) rest.
Proof.
  intros (_ & I & G & S).
  destruct (deref_remaining c I) as (x & Hx & R).
  rewrite R in G, S. inversion G; inversion S; subst.
  exists x, (skipn (Datatypes.S (iter c)) (src c)). auto.
Qed.

Lemma head_below_pending x best pq :
  deref best = Done x -> Forall (cur_le best) pq -> Forall cursor_ok pq ->
  Forall (mean_le x) (pending pq).
Proof.
  intros Hx Hle Hok. induction Hok as [| d pq Od Oq IH]; simpl; [constructor|].
  inversion Hle as [| ? ? Hd Hq]; subst.
  apply Forall_app. split; [|now apply IH].
  destruct Hd as (x' & y & Hx' & Hy & L).
  rewrite Hx in Hx'. inversion Hx'; subst x'.
  destruct (cursor_ok_head d Od) as (y' & rest & Hy' & -> & Gy & Hrest).
  rewrite Hy in Hy'. inversion Hy'; subst y'.
  constructor; [assumption|]. eapply all_above_trans; eauto.
Qed.

Lemma advance_ok c x rest :
  cursor_ok c -> remaining c = x :: rest ->
  remaining (fst (advance c)) = rest /\
  (snd (advance c) = true -> cursor_ok (fst (advance c))) /\
  (snd (advance c) = false -> rest = []).
Proof.
  intros (E & I & G & S) R.
  destruct (deref_remaining c I) as (x' & _ & R').
  rewrite R in R'.
  assert (Hrest : rest = skipn (Datatypes.S (iter c)) (src c)) by congruence.
  clear R'.
  rewrite R in G, S.
  assert (Grest : Forall good rest) by now inversion G.
  assert (Srest : sorted_by_mean rest) by now inversion S.
  unfold advance. cbn [fst snd].
  unfold cursor_ok, remaining. cbn [iter src end_]. rewrite <- Hrest, E.
  split; [reflexivity|]. split; intros Hm.
  - apply negb_true_iff, Nat.eqb_neq in Hm. repeat split; auto. lia.
  - apply negb_false_iff, Nat.eqb_eq in Hm.
    rewrite Hrest, Hm. apply skipn_all.
Qed.

Lemma merge_loop_ok : forall fuel pq acc,
  Forall cursor_ok pq -> StronglySorted cur_le pq ->
  length (pending pq) <= fuel ->
  sorted_by_mean acc ->
  Forall (fun a => Forall (mean_le a) (pending pq)) acc ->
  exists out, TDigest.merge_loop fuel pq acc = Done out /\
              sorted_by_mean out /\ Permutation (acc ++ pending pq) out.
Proof.
  induction fuel as [| fuel IH]; intros pq acc Hok Hs Hfuel Hacc Hbelow.
  - destruct pq as [| best pq'].
    + exists acc. simpl. rewrite app_nil_r. auto.
    + exfalso. inversion Hok as [| ? ? Ob _]; subst.
      destruct (cursor_ok_head best Ob) as (x & rest & _ & R & _).
      unfold pending in Hfuel. simpl in Hfuel. rewrite R in Hfuel.
      simpl in Hfuel. lia.
  - destruct pq as [| best pq'].
    + exists acc. simpl. rewrite app_nil_r. auto.
    + inversion Hok as [| ? ? Ob Oq]; subst.
      inversion Hs as [| ? ? Sq Hb]; subst.
      destruct (cursor_ok_head best Ob) as (x & rest & Hx & R & Gx & Hrest).
      destruct (advance_ok best x rest Ob R) as (R' & Hmore & Hlast).
      cbn [TDigest.merge_loop]. rewrite Hx. cbn [bind].
      destruct (advance best) as [best' more]. cbn [fst snd] in *.
      assert (Hx_all : Forall (mean_le x) (rest ++ pending pq')).
      { apply Forall_app. split; [assumption|].
        eapply head_below_pending; eauto. }
      assert (Hacc' : sorted_by_mean (acc ++ [x])).
      { apply sorted_snoc; [assumption|].
        eapply Forall_impl; [|exact Hbelow].
        intros a Ha. unfold pending in Ha. simpl in Ha. rewrite R in Ha.
        now inversion Ha. }
      assert (Hbelow' :
                Forall (fun a => Forall (mean_le a) (rest ++ pending pq'))
                       (acc ++ [x])).
      { apply Forall_app. split; [|now repeat constructor].
        eapply Forall_impl; [|exact Hbelow].
        intros a Ha. unfold pending in Ha. simpl in Ha. rewrite R in Ha.
        now inversion Ha. }
      unfold pending in Hfuel. simpl in Hfuel. rewrite R in Hfuel.
      simpl in Hfuel. fold (pending pq') in Hfuel.
      destruct more.
      * destruct (pq_push_ok best' pq' (Hmore eq_refl) Oq Sq)
          as (q'' & -> & P & S''). cbn [bind].
        assert (Pp : Permutation (rest ++ pending pq') (pending q'')).
        { unfold pending. rewrite <- P. simpl. now rewrite R'. }
        destruct (IH q'' (acc ++ [x])) as (out & -> & So & Po); auto.
        -- rewrite <- P. constructor; auto.
        -- rewrite <- Pp. lia.
        -- eapply Forall_impl; [|exact Hbelow'].
           intros a Ha. simpl in Ha. now rewrite <- Pp.
        -- exists out. repeat split; auto.
           rewrite <- Po, <- Pp. unfold pending. simpl. rewrite R.
           rewrite <- app_assoc. reflexivity.
      * cbn [bind]. rewrite (Hlast eq_refl) in *. simpl in *.
        destruct (IH pq' (acc ++ [x])) as (out & -> & So & Po); auto.
        -- lia.
        -- exists out. repeat split; auto.
           rewrite <- Po. unfold pending. simpl. rewrite R.
           rewrite <- app_assoc. reflexivity.
Qed.

Definition tidy (l : list Centroid.t) : Prop :=
  Forall good l /\ sorted_by_mean l.

Lemma pending_of s : pending [CentroidList_of s] = s.
Proof. unfold pending, remaining. simpl. apply app_nil_r. Qed.

Lemma collect_ok tdigests : forall total pq pw,
  Forall cursor_ok pq -> StronglySorted cur_le pq ->
  Forall (fun td => tidy (TDigest.processed_ td)) tdigests ->
  exists pq' pw',
    TDigest.collect tdigests total pq pw =
      Done (total + length (flat_map TDigest.processed_ tdigests), pq', pw') /\
    Forall cursor_ok pq' /\ StronglySorted cur_le pq' /\
    Permutation (pending pq ++ flat_map TDigest.processed_ tdigests)
                (pending pq').
Proof.
  induction tdigests as [| td rest IH]; intros total pq pw Hok Hs Htd.
  - exists pq, pw. simpl. rewrite Nat.add_0_r, app_nil_r. auto.
  - inversion Htd as [| ? ? [Gtd Std] Hrest]; subst. cbn [TDigest.collect].
    destruct (0 <? length (TDigest.processed_ td))%nat eqn:E.
    + apply Nat.ltb_lt in E.
      assert (Oc : cursor_ok (CentroidList_of (TDigest.processed_ td))).
      { apply cursor_of_ok; auto.
        destruct (TDigest.processed_ td); [simpl in E; lia | discriminate]. }
      destruct (pq_push_ok _ pq Oc Hok Hs) as (pq1 & -> & P & S1). cbn [bind].
      destruct (IH (total + length (TDigest.processed_ td)) pq1
                   (pw + TDigest.processedWeight_ td)%V)
        as (pq' & pw' & -> & Ok' & S' & P'); auto.
      { rewrite <- P. now constructor. }
      exists pq', pw'. repeat split; auto.
      * simpl. rewrite length_app. do 3 f_equal. lia.
      * assert (Pq : Permutation (TDigest.processed_ td ++ pending pq)
                                 (pending pq1)).
        { unfold pending. now rewrite <- P. }
        rewrite <- P', <- Pq. simpl. rewrite !app_assoc.
        apply Permutation_app_tail, Permutation_app_comm.
    + apply Nat.ltb_ge in E.
      assert (En : TDigest.processed_ td = []).
      { destruct (TDigest.processed_ td); [reflexivity | simpl in E; lia]. }
      destruct (IH total pq pw) as (pq' & pw' & -> & Ok' & S' & P'); auto.
      exists pq', pw'. simpl. rewrite En. simpl. auto.
Qed.

Lemma mergeProcessed_ok others s :
  others <> [] -> TDigest.processed_ s <> [] ->
  tidy (TDigest.processed_ s) ->
  Forall (fun td => tidy (TDigest.processed_ td)) others ->
  exists sorted pw,
    TDigest.mergeProcessed others s =
      Done {| TDigest.compression_ := TDigest.compression_ s;
              TDigest.min := TDigest.min s; TDigest.max := TDigest.max s;
              TDigest.maxProcessed_ := TDigest.maxProcessed_ s;
              TDigest.maxUnprocessed_ := TDigest.maxUnprocessed_ s;
              TDigest.processedWeight_ := pw;
              TDigest.unprocessedWeight_ := TDigest.unprocessedWeight_ s;
              TDigest.processed_ := sorted;
              TDigest.unprocessed_ := TDigest.unprocessed_ s;
              TDigest.dirty_ := TDigest.dirty_ s |} /\
    sorted_by_mean sorted /\
    Permutation (flat_map TDigest.processed_ others ++ TDigest.processed_ s)
                sorted.
Proof.
  intros Hne Hs [Gs Ss] Hothers. unfold TDigest.mergeProcessed.
  destruct others as [| o others']; [contradiction|].
  destruct (collect_ok (o :: others') (length (TDigest.processed_ s)) []
              (TDigest.processedWeight_ s)) as (pq & pw & -> & Ok & Sq & P);
    auto; [constructor|].
  cbn [bind].
  destruct (pq_push_ok (CentroidList_of (TDigest.processed_ s)) pq)
    as (pq' & -> & P' & Sq'); auto using cursor_of_ok.
  cbn [bind].
  assert (Pp : Permutation
                 (TDigest.processed_ s ++ flat_map TDigest.processed_ (o :: others'))
                 (pending pq')).
  { unfold pending at 1. rewrite <- P'. simpl flat_map at 2.
    unfold remaining at 1. simpl skipn. fold (pending pq).
    apply Permutation_app_head. exact P. }
  destruct (merge_loop_ok
              (S (length (TDigest.processed_ s)
                  + length (flat_map TDigest.processed_ (o :: others'))))
              pq' []) as (out & -> & So & Po); auto.
  - rewrite <- P'. constructor; auto using cursor_of_ok.
  - rewrite <- Pp, length_app. lia.
  - constructor.
  - cbn [bind]. exists out, pw. repeat split; auto.
    rewrite <- Po. simpl app at 2. rewrite <- Pp. apply Permutation_app_comm.
Qed.

(** ** The last centroid of a merge *)

(* the centroid a list ends with *)
Definition ends_with (e : Centroid.t) (l : list Centroid.t) : Prop :=
  exists l', l = l' ++ [e].

Lemma ends_with_cons e x l : ends_with e l -> ends_with e (x :: l).
Proof. intros (l' & ->). now exists (x :: l'). Qed.

Lemma ends_with_unique e e' l : ends_with e l -> ends_with e' l -> e = e'.
Proof. intros (a & ->) (b & E). now apply app_inj_tail in E. Qed.

Lemma ends_with_tail e x l : l <> [] -> ends_with e (x :: l) -> ends_with e l.
Proof.
  intros Hne ([| y l'] & E); simpl in E; inversion E; subst.
  - contradiction.
  - now exists l'.
Qed.

Lemma ends_with_In e l : ends_with e l -> In e l.
Proof. intros (l' & ->). apply in_or_app. right. now left. Qed.

(* the merged list ends with the centroid that some queued cursor ends with *)
Lemma merge_loop_last : forall fuel pq acc out,
  Forall in_range pq -> pq <> [] ->
  TDigest.merge_loop fuel pq acc = Done out ->
  exists c e, In c pq /\ ends_with e (remaining c) /\ ends_with e out.
Proof.
  induction fuel as [| fuel IH]; intros pq acc out Hok Hne E;
    destruct pq as [| best pq']; try contradiction.
  - discriminate E.
  - inversion Hok as [| ? ? Ob Oq]; subst.
    destruct (in_range_head best Ob) as (x & rest & Hx & R).
    destruct (advance_in_range best x rest Ob R) as (R1 & Hmore & Hlast).
    cbn [TDigest.merge_loop] in E. rewrite Hx in E. cbn [bind] in E.
    destruct (advance best) as [best1 more]. cbn [fst snd] in *.
    destruct more.
    + destruct (pq_push_in_range best1 pq' (Hmore eq_refl) Oq) as (q1 & E1 & Hq1).
      rewrite E1 in E. cbn [bind] in E.
      pose proof (pq_push_perm _ _ _ E1) as P.
      assert (Hq1ne : q1 <> []).
      { intros ->. apply Permutation_sym, Permutation_nil in P. discriminate. }
      destruct (IH q1 _ _ Hq1 Hq1ne E) as (c & e & Hc & He & Ho).
      apply (Permutation_in _ (Permutation_sym P)) in Hc.
      destruct Hc as [<- | Hc].
      * exists best, e. split; [now left|]. split; [|exact Ho].
        rewrite R. apply ends_with_cons. now rewrite <- R1.
      * exists c, e. split; [now right | auto].
    + cbn [bind] in E. rewrite (Hlast eq_refl) in R.
      destruct pq' as [| d q].
      * assert (out = acc ++ [x]) by (destruct fuel; simpl in E; now inversion E).
        subst out. exists best, x. split; [now left|].
        split; [rewrite R; now exists [] | now exists acc].
      * assert (Hdq : d :: q <> []) by discriminate.
        destruct (IH (d :: q) _ _ Oq Hdq E) as (c & e & Hc & He & Ho).
        exists c, e. split; [now right | auto].
Qed.

Lemma collect_cursors tdigests : forall total pq pw total' pq' pw',
  TDigest.collect tdigests total pq pw = Done (total', pq', pw') ->
  forall c, In c pq' ->
    In c pq \/
    exists td, In td tdigests /\ c = CentroidList_of (TDigest.processed_ td).
Proof.
  induction tdigests as [| td rest IH]; intros total pq pw total' pq' pw' E c Hc.
  - simpl in E. inversion E; subst. now left.
  - cbn [TDigest.collect] in E.
    destruct (0 <? length (TDigest.processed_ td))%nat.
    + destruct (pq_push _ pq) as [pq1 |] eqn:E1; cbn [bind] in E; [|discriminate].
      destruct (IH _ _ _ _ _ _ E c Hc) as [H | (td' & Htd & ->)].
      * apply (Permutation_in _ (Permutation_sym (pq_push_perm _ _ _ E1))) in H.
        destruct H as [<- | H]; [|now left].
        right. exists td. split; [now left | reflexivity].
      * right. exists td'. split; [now right | reflexivity].
    + destruct (IH _ _ _ _ _ _ E c Hc) as [H | (td' & Htd & ->)]; [now left|].
      right. exists td'. split; [now right | reflexivity].
Qed.

(* mergeProcessed: the merged list ends with the last processed centroid
   of the receiver or of one of the digests merged in *)
Lemma mergeProcessed_last others s s1 e :
  others <> [] -> TDigest.processed_ s <> [] ->
  TDigest.mergeProcessed others s = Done s1 ->
  ends_with e (TDigest.processed_ s1) ->
  ends_with e (TDigest.processed_ s) \/
  exists td, In td others /\ ends_with e (TDigest.processed_ td).
Proof.
  intros Hne Hs. unfold TDigest.mergeProcessed.
  destruct others as [| o others']; [contradiction|].
  destruct (collect_in_range (o :: others') (length (TDigest.processed_ s)) []
              (TDigest.processedWeight_ s))
    as (pq & pw & Ec & Hpq & _); [constructor|].
  rewrite Ec. cbn [bind].
  assert (Hown : in_range (CentroidList_of (TDigest.processed_ s))).
  { apply cursor_of_in_range. destruct (TDigest.processed_ s);
      [contradiction | simpl; lia]. }
  destruct (pq_push_in_range _ pq Hown Hpq) as (pq1 & E1 & Hpq1).
  pose proof (pq_push_perm _ _ _ E1) as P1. rewrite E1. cbn [bind].
  destruct (TDigest.merge_loop _ pq1 []) as [sorted |] eqn:El; cbn [bind];
    [|discriminate].
  intros E He. inversion E; subst s1. cbn [TDigest.processed_] in He.
  assert (Hpq1ne : pq1 <> []).
  { intros ->. apply Permutation_sym, Permutation_nil in P1. discriminate. }
  destruct (merge_loop_last _ _ _ _ Hpq1 Hpq1ne El) as (c & e' & Hc & Hr & Ho).
  assert (e' = e) by (eapply ends_with_unique; eauto). subst e'.
  apply (Permutation_in _ (Permutation_sym P1)) in Hc.
  destruct Hc as [<- | Hc].
  - left. exact Hr.
  - destruct (collect_cursors _ _ _ _ _ _ _ Ec c Hc) as [[] | (td & Htd & ->)].
    right. exists td. split; [exact Htd | exact Hr].
Qed.

(** ** Invariants of the digest *)

(* min <= every processed mean <= max *)
Definition bounded (s : TDigest.t) : Prop :=
  Forall (fun c => Vle (TDigest.min s) (Centroid.mean c) /\
                   Vle (Centroid.mean c) (TDigest.max s))
         (TDigest.processed_ s).

(* the two states of the dirty flag *)
Definition Clean (s : TDigest.t) : Prop := TDigest.dirty_ s = false.
Definition Dirty (s : TDigest.t) : Prop := TDigest.dirty_ s = true.

(* no buffer is over its capacity, or nothing is pending *)
Definition settled (s : TDigest.t) : Prop :=
  Clean s \/
  (length (TDigest.unprocessed_ s) <= TDigest.maxUnprocessed_ s /\
   length (TDigest.processed_ s) <= TDigest.maxProcessed_ s).

Definition Inv0 (s : TDigest.t) : Prop :=
  tidy (TDigest.processed_ s) /\
  Forall good (TDigest.unprocessed_ s) /\
  finite (TDigest.min s) /\ finite (TDigest.max s) /\
  (Dirty s -> TDigest.unprocessed_ s <> [] \/ TDigest.processed_ s <> []) /\
  (Clean s -> bounded s).

Definition Inv (s : TDigest.t) : Prop := Inv0 s /\ settled s.

Lemma sorted_head_le x l :
  good x -> sorted_by_mean (x :: l) -> Forall (mean_le x) (x :: l).
Proof.
  intros G S. inversion S; subst. constructor; auto with tdigest.
Qed.

Lemma sorted_last_ge pre cur :
  good cur -> sorted_by_mean (pre ++ [cur]) ->
  Forall (fun y => mean_le y cur) (pre ++ [cur]).
Proof.
  intros G S. apply sorted_snoc_inv in S. destruct S as [_ H].
  apply Forall_app. split; [assumption|]. repeat constructor.
  now apply mean_le_refl.
Qed.

Lemma at_index_back {A} (pre : list A) cur :
  at_index (pre ++ [cur]) (length (pre ++ [cur]) - 1) = Done cur.
Proof.
  unfold at_index. rewrite length_app. simpl.
  replace (length pre + 1 - 1) with (length pre) by lia.
  rewrite nth_error_app2 by lia. now rewrite Nat.sub_diag.
Qed.

Section Engine.
Context {libm : Libm}.

Lemma process_clean s : Clean s -> TDigest.process s = Done s.
Proof. unfold Clean, TDigest.process. now intros ->. Qed.

Lemma process_ok s :
  Inv0 s ->
  exists s', TDigest.process s = Done s' /\ Inv0 s' /\ Clean s' /\
             TDigest.maxProcessed_ s' = TDigest.maxProcessed_ s /\
             TDigest.maxUnprocessed_ s' = TDigest.maxUnprocessed_ s.
Proof.
  intros ([Gp Sp] & Gu & Fmin & Fmax & Hne & Hb).
  destruct (TDigest.dirty_ s) eqn:D.
  2:{ exists s. rewrite process_clean by exact D.
      repeat split; auto. }
  unfold TDigest.process. rewrite D. cbn [negb].
  set (all := inplace_merge (std_sort (TDigest.unprocessed_ s))
                            (TDigest.processed_ s)).
  assert (Pall : Permutation (TDigest.unprocessed_ s ++ TDigest.processed_ s) all).
  { unfold all. rewrite <- inplace_merge_perm.
    apply Permutation_app_tail, std_sort_perm. }
  assert (Gall : Forall good all).
  { rewrite <- Pall. apply Forall_app. auto. }
  assert (Sall : sorted_by_mean all).
  { apply inplace_merge_sorted; auto.
    - now rewrite <- std_sort_perm.
    - now apply std_sort_sorted. }
  destruct all as [| first rest] eqn:Eall.
  { exfalso. apply Permutation_sym, Permutation_nil in Pall.
    apply app_eq_nil in Pall. destruct Pall.
    destruct (Hne D); contradiction. }
  cbn [at_index nth_error bind].
  inversion Gall as [| ? ? Gfirst Grest]; subst.
  match goal with
  | |- context [TDigest.cluster ?s1 ?pw ?l ?st] =>
      destruct (cluster_sorted s1 pw l st) as (st' & -> & Hok); auto
  end.
  { exists [], first. cbn [TDigest.out]. repeat split; auto.
    - repeat constructor.
    - now apply sorted_head_le. }
  destruct Hok as (pre & cur & Eout & Gout & Sout & _).
  cbn [bind]. rewrite Eout in Gout, Sout |- *. rewrite at_index_back.
  assert (Gcur : good cur).
  { apply Forall_app in Gout. destruct Gout as [_ G]. now inversion G. }
  pose proof (sorted_last_ge _ _ Gcur Sout) as Hhigh.
  destruct (pre ++ [cur]) as [| front tl] eqn:Eo; [now destruct pre|].
  cbn [at_index nth_error bind].
  assert (Gfront : good front) by now inversion Gout.
  pose proof (sorted_head_le _ _ Gfront Sout) as Hlow.
  eexists. split; [reflexivity|].
  unfold Inv0, tidy, Clean, Dirty, bounded.
  cbn [TDigest.processed_ TDigest.unprocessed_ TDigest.min TDigest.max
       TDigest.dirty_ TDigest.maxProcessed_ TDigest.maxUnprocessed_].
  repeat split; auto using std_min_finite, std_max_finite, good_finite.
  - discriminate.
  - intros _. apply Forall_forall. intros c Hc.
    rewrite Forall_forall in Hlow, Hhigh. split.
    + eapply Vle_trans; [|apply (Hlow c Hc)].
      apply std_min_le_r; auto using good_finite.
    + eapply Vle_trans; [apply (Hhigh c Hc)|].
      apply std_max_ge_r; auto using good_finite.
Qed.

Lemma processIfNecessary_ok s :
  Inv0 s -> exists s', TDigest.processIfNecessary s = Done s' /\ Inv s'.
Proof.
  intros H. unfold TDigest.processIfNecessary.
  destruct (_ || _) eqn:E.
  - destruct (process_ok s H) as (s' & -> & H' & C & _).
    exists s'. split; [reflexivity|]. split; [assumption | now left].
  - exists s. split; [reflexivity|]. split; [assumption|]. right.
    apply orb_false_iff in E. destruct E as [E1 E2].
    apply Nat.ltb_ge in E1, E2. auto.
Qed.

(* compress() asks processIfNecessary, and on a settled digest that
   question is always answered by doing nothing *)
Lemma compress_settled s : settled s -> TDigest.compress s = Done s.
Proof.
  intros [C | [H1 H2]]; unfold TDigest.compress, TDigest.processIfNecessary.
  - destruct (_ || _); [now apply process_clean | reflexivity].
  - apply Nat.ltb_ge in H1, H2. now rewrite H1, H2.
Qed.

End Engine.

(** ** mergeUnprocessed *)

Lemma mergeUnprocessed_fields tdigests s :
  let s' := TDigest.mergeUnprocessed tdigests s in
  TDigest.unprocessed_ s' =
    TDigest.unprocessed_ s ++ flat_map TDigest.unprocessed_ tdigests /\
  TDigest.processed_ s' = TDigest.processed_ s /\
  TDigest.min s' = TDigest.min s /\ TDigest.max s' = TDigest.max s /\
  TDigest.maxProcessed_ s' = TDigest.maxProcessed_ s /\
  TDigest.maxUnprocessed_ s' = TDigest.maxUnprocessed_ s /\
  TDigest.processedWeight_ s' = TDigest.processedWeight_ s /\
  TDigest.dirty_ s' = TDigest.dirty_ s.
Proof.
  unfold TDigest.mergeUnprocessed.
  destruct tdigests as [| td0 tds0].
  { simpl. rewrite app_nil_r. repeat split. }
  revert s. generalize (td0 :: tds0) as tds. clear td0 tds0.
  induction tds as [| td tds IH]; intros s.
  - simpl. rewrite app_nil_r. repeat split.
  - cbn [fold_left flat_map]. cbv zeta in IH |- *.
    match goal with
    | |- context [fold_left _ tds ?s1] => specialize (IH s1)
    end.
    destruct IH as (E1 & E2 & E3 & E4 & E5 & E6 & E7 & E8).
    rewrite E1, E2, E3, E4, E5, E6, E7, E8. cbn.
    rewrite <- app_assoc. repeat split.
Qed.

(** ** Reachable digests *)

Section Reachable.
Context {libm : Libm}.

(* what the interface of section 6 of the specification can build: an
   empty digest, then add, merge (of digests built the same way),
   compress, quantile and cdf calls that return *)
Inductive reachable : TDigest.t -> Prop :=
| reach_new compression unmergedSize mergedSize :
    reachable (TDigest.new compression unmergedSize mergedSize)
| reach_add s x s' :
    reachable s -> TDigest.add x s = Done s' -> reachable s'
| reach_add_all s others s' :
    reachable s -> (forall o, In o others -> reachable o) ->
    TDigest.add_all others s = Done s' -> reachable s'
| reach_compress s s' :
    reachable s -> TDigest.compress s = Done s' -> reachable s'
| reach_quantile s q s' r :
    reachable s -> TDigest.quantile q s = Done (s', r) -> reachable s'
| reach_cdf s x s' r :
    reachable s -> TDigest.cdf x s = Done (s', r) -> reachable s'.

Lemma new_Inv compression unmergedSize mergedSize :
  Inv (TDigest.new compression unmergedSize mergedSize).
Proof.
  unfold Inv, Inv0, tidy, settled, Clean, Dirty, bounded. simpl.
  repeat split; try constructor; try discriminate; reflexivity.
Qed.

Lemma add_w_Inv x s s' b :
  Inv s -> TDigest.add_w x (of_Z 1) s = Done (s', b) -> Inv s'.
Proof.
  intros [H0 Hs] E. unfold TDigest.add_w in E.
  destruct x as [| q]; cbn [isnan] in E.
  { inversion E; subst. now split. }
  match type of E with
  | context [TDigest.processIfNecessary ?s1] =>
      destruct (processIfNecessary_ok s1) as (s2 & E2 & I2)
  end.
  - destruct H0 as ([Gp Sp] & Gu & Fmin & Fmax & Hne & Hb).
    unfold Inv0, tidy, Clean, Dirty, bounded. cbn.
    repeat split; auto.
    + apply Forall_app. split; [assumption|].
      repeat constructor.
    + intros _. left. now destruct (TDigest.unprocessed_ s).
    + discriminate.
  - rewrite E2 in E. cbn [bind] in E. inversion E; subst. exact I2.
Qed.

Lemma add_all_Inv others s s' :
  Inv s -> Forall Inv others -> TDigest.add_all others s = Done s' -> Inv s'.
Proof.
  intros [H0 Hs] Ho E. unfold TDigest.add_all in E.
  destruct (0 <? length others)%nat eqn:L.
  2:{ inversion E; subst. now split. }
  apply Nat.ltb_lt in L.
  assert (Hne : others <> []) by (destruct others; [simpl in L; lia | discriminate]).
  destruct (TDigest.processed_ s) as [| p0 ps] eqn:Ep.
  { rewrite mergeProcessed_empty_receiver in E by assumption. discriminate. }
  destruct H0 as ([Gp Sp] & Gu & Fmin & Fmax & _ & _).
  destruct (mergeProcessed_ok others s) as (sorted & pw & E1 & Ssorted & P); auto.
  { rewrite Ep. discriminate. }
  { split; assumption. }
  { eapply Forall_impl; [|exact Ho]. intros o [Io _]. apply Io. }
  rewrite E1 in E. cbn [bind] in E.
  match type of E with
  | context [TDigest.mergeUnprocessed others ?s1] =>
      destruct (mergeUnprocessed_fields others s1)
        as (F1 & F2 & F3 & F4 & F5 & F6 & F7 & F8)
  end.
  cbn [TDigest.processed_ TDigest.unprocessed_ TDigest.min TDigest.max
       TDigest.dirty_ TDigest.maxProcessed_ TDigest.maxUnprocessed_
       TDigest.processedWeight_] in F1, F2, F3, F4, F5, F6, F7, F8.
  match type of E with
  | context [TDigest.processIfNecessary ?s1] =>
      destruct (processIfNecessary_ok s1) as (s2 & E2 & I2)
  end.
  - unfold Inv0, tidy, Clean, Dirty, bounded.
    cbn [TDigest.processed_ TDigest.unprocessed_ TDigest.min TDigest.max
         TDigest.dirty_].
    rewrite F1, F2, F3, F4. repeat split; auto.
    + rewrite <- P. apply Forall_app. split; [|assumption].
      apply Forall_flat_map. eapply Forall_impl; [|exact Ho].
      intros o [Io _]. apply Io.
    + apply Forall_app. split; [assumption|].
      apply Forall_flat_map. eapply Forall_impl; [|exact Ho].
      intros o [Io _]. apply Io.
    + intros _. right. intros ->.
      apply Permutation_sym, Permutation_nil in P.
      apply app_eq_nil in P. destruct P as [_ P]. rewrite Ep in P. discriminate.
    + discriminate.
  - rewrite E2 in E. inversion E; subst. exact I2.
Qed.

Lemma query_state s s' :
  Inv s -> TDigest.process s = Done s' -> Inv s' /\ Clean s'.
Proof.
  intros [H0 _] E.
  destruct (process_ok s H0) as (s2 & E2 & I2 & C2 & _).
  rewrite E2 in E. inversion E; subst.
  split; [split; [assumption | now left] | assumption].
Qed.

Theorem reachable_Inv s : reachable s -> Inv s.
Proof.
  induction 1 as [c u m | s x s' _ IH E | s others s' _ IH _ IHo E
                  | s s' _ IH E | s q s' r _ IH E | s x s' r _ IH E].
  - apply new_Inv.
  - unfold TDigest.add in E.
    destruct (TDigest.add_w x (of_Z 1) s) as [[s1 b] |] eqn:E1;
      cbn [bind] in E; [|discriminate].
    inversion E; subst. eapply add_w_Inv; eauto.
  - apply (add_all_Inv others s s' IH); [|exact E].
    apply Forall_forall. exact IHo.
  - destruct IH as [H0 _].
    destruct (processIfNecessary_ok s H0) as (s2 & E2 & I2).
    unfold TDigest.compress in E. rewrite E2 in E. inversion E; subst. exact I2.
  - unfold TDigest.quantile in E.
    destruct (TDigest.process s) as [s1 |] eqn:E1; cbn [bind] in E; [|discriminate].
    destruct (TDigest.quantileProcessed q s1); cbn [bind] in E; [|discriminate].
    inversion E; subst. now apply (query_state s).
  - unfold TDigest.cdf in E.
    destruct (TDigest.process s) as [s1 |] eqn:E1; cbn [bind] in E; [|discriminate].
    destruct (TDigest.cdfProcessed x s1); cbn [bind] in E; [|discriminate].
    inversion E; subst. now apply (query_state s).
Qed.

End Reachable.

(** ** A rational libm

    A stand-in for libm over the rationals, used where a statement has to
    be run on a concrete digest: Bhaskara's rational approximation of the
    sine (exact at 0, pi/2 and pi, clamped to [-1, 1]) and the chord of the
    arc sine through -1, 0 and 1.  Both give NaN where libm does. *)

Definition piQ : Q := 314159265358979323846 # 100000000000000000000.

Definition clampQ (x : Q) : Q :=
  if Qle_bool x (-1) then (-1)%Q else if Qle_bool 1 x then 1%Q else x.

Definition bhaskara (x : Q) : Q :=
  (16 * x * (piQ - x) / (5 * piQ * piQ - 4 * x * (piQ - x)))%Q.

Definition sin_q (v : Value) : Value :=
  match v with
  | NaN => NaN
  | Fin x =>
      Fin (Qred (clampQ (if Qle_bool 0 x then bhaskara x
                         else - bhaskara (- x))%Q))
  end.

Definition asin_q (v : Value) : Value :=
  match v with
  | NaN => NaN
  | Fin x =>
      if Qle_bool (-1) x && Qle_bool x 1 then Fin (Qred (x * piQ / 2)%Q)
      else NaN
  end.

Definition rational_libm : Libm := {| sin := sin_q; asin := asin_q |}.

(* the one fact about the sine that the traces below depend on *)
Definition sine_bounded (libm : Libm) : Prop :=
  forall x, (of_Z 1 <? sin x)%V = false.

Lemma clampQ_le_1 x : (clampQ x <= 1)%Q.
Proof.
  unfold clampQ. destruct (Qle_bool x (-1)) eqn:E1; [lra|].
  destruct (Qle_bool 1 x) eqn:E2; [lra|].
  destruct (Qlt_le_dec x 1) as [L | L]; [lra|].
  apply Qle_bool_iff in L. congruence.
Qed.

Lemma rational_libm_bounded : sine_bounded rational_libm.
Proof.
  intros [| x]; [reflexivity|]. unfold Vltb, of_Z. simpl.
  apply negb_false_iff, Qle_bool_iff. rewrite Qred_correct.
  unfold inject_Z. apply clampQ_le_1.
Qed.

(** * The claims *)

(* TDigest d(100); d.add(5.0); *)
Definition fresh : TDigest.t := TDigest.new1 (of_Z 100).

Definition one_sample : TDigest.t :=
  {| TDigest.compression_ := of_Z 100;
     TDigest.min := DBL_MAX; TDigest.max := DBL_MIN;
     TDigest.maxProcessed_ := 200; TDigest.maxUnprocessed_ := 800;
     TDigest.processedWeight_ := of_Z 0;
     TDigest.unprocessedWeight_ := of_Z 1;
     TDigest.processed_ := [];
     TDigest.unprocessed_ := [Centroid.mk (of_Z 5) (of_Z 1)];
     TDigest.dirty_ := true |}.

Lemma add_one_sample (libm : Libm) :
  TDigest.add (of_Z 5) fresh = Done one_sample.
Proof. vm_compute. reflexivity. Qed.

Lemma one_sample_reachable (libm : Libm) : reachable one_sample.
Proof.
  apply (reach_add fresh (of_Z 5)); [apply reach_new | apply add_one_sample].
Qed.

(** ** C1 *)

(** On every digest the interface can build, compress() changes nothing:
    processIfNecessary was already asked at the end of the add or merge
    that made the digest Dirty. *)
Lemma compress_changes_nothing (libm : Libm) s :
  reachable s -> TDigest.compress s = Done s.
Proof.
  intros H. apply compress_settled. now apply reachable_Inv.
Qed.

(** C1 (the code at the failing input): after add(5.0) on a fresh digest of
    compression 100 the digest is Dirty, and compress() returns it as it
    is, still Dirty, the sample still in the unprocessed buffer; the full
    compress algorithm, process(), does return a Clean digest with an empty
    unprocessed buffer from that same state. *)
Theorem compress_leaves_digest_dirty (libm : Libm) :
  TDigest.add (of_Z 5) fresh = Done one_sample /\
  Dirty one_sample /\
  TDigest.compress one_sample = Done one_sample /\
  exists s', TDigest.process one_sample = Done s' /\ Clean s' /\
             TDigest.unprocessed_ s' = [] /\ s' <> one_sample.
Proof.
  split; [apply add_one_sample|]. split; [reflexivity|].
  split; [reflexivity|].
  destruct (process_ok one_sample) as (s' & E & _ & C & _).
  { apply reachable_Inv, one_sample_reachable. }
  exists s'. repeat split; auto.
  - unfold TDigest.process in E. cbn [one_sample TDigest.dirty_ negb] in E.
    destruct (at_index _ 0); cbn [bind] in E; [|discriminate].
    destruct (TDigest.cluster _ _ _ _); cbn [bind] in E; [|discriminate].
    destruct (at_index _ 0); cbn [bind] in E; [|discriminate].
    destruct (at_index _ _); cbn [bind] in E; [|discriminate].
    now inversion E.
  - intros ->. discriminate C.
Qed.

(** ** C9 *)

(** C9: for every digest state and every weight, add(NaN, w) returns false
    and the digest it leaves is the digest it was given, so both centroid
    lists, both weight sums, the dirty flag and totalWeight() are as
    before; the public add(NaN), which calls add(NaN, 1) and drops the
    bool, leaves the digest unchanged too. *)
Theorem add_NaN_rejected (libm : Libm) (s : TDigest.t) (w : Weight) :
  TDigest.add_w NaN w s = Done (s, false) /\
  TDigest.add NaN s = Done s.
Proof. split; reflexivity. Qed.

(** ** C5 *)

(** C5 (the code where the claim fails): whenever the receiving digest's
    own processed list is empty, merging any non-empty collection of
    digests reads past the end of that empty list: mergeProcessed pushes a
    cursor over it without asking for its size, and add(others) and
    merge(other) stop there. *)
Theorem merge_into_empty_reads_past_end (libm : Libm)
        (other : TDigest.t) (others : list TDigest.t) (s : TDigest.t) :
  TDigest.processed_ s = [] ->
  TDigest.mergeProcessed (other :: others) s = Fault OutOfBounds /\
  TDigest.add_all (other :: others) s = Fault OutOfBounds /\
  TDigest.merge other s = Fault OutOfBounds.
Proof.
  intros He.
  assert (A : forall os, TDigest.add_all (other :: os) s = Fault OutOfBounds).
  { intros os. unfold TDigest.add_all. cbn [length Nat.ltb Nat.leb].
    rewrite mergeProcessed_empty_receiver; [reflexivity | discriminate | exact He]. }
  repeat split.
  - now apply mergeProcessed_empty_receiver.
  - apply A.
  - apply A.
Qed.

Lemma merge_into_empty_witness :
  TDigest.processed_ fresh = [] /\
  TDigest.merge (libm := rational_libm) one_sample fresh = Fault OutOfBounds.
Proof.
  split; [reflexivity|].
  apply (merge_into_empty_reads_past_end rational_libm one_sample [] fresh).
  reflexivity.
Defined.

(** ** C4 *)






(** ** Digests used as concrete inputs *)

(* a digest that holds the sample [x], after the compress step *)
Definition compressed_sample (x : Z) : TDigest.t :=
  {| TDigest.compression_ := of_Z 100;
     TDigest.min := of_Z x; TDigest.max := of_Z x;
     TDigest.maxProcessed_ := 200; TDigest.maxUnprocessed_ := 800;
     TDigest.processedWeight_ := of_Z 1;
     TDigest.unprocessedWeight_ := of_Z 0;
     TDigest.processed_ :=
       [Centroid.mk (of_Z x) (of_Z 1); Centroid.mk (of_Z x) (of_Z 1)];
     TDigest.unprocessed_ := [];
     TDigest.dirty_ := false |}.

(* TDigest a(100), b(100); a.add(5.0); a.quantile(0.5, &ok);
   b.add(10.0); b.quantile(0.5, &ok); a.merge(b); *)
Definition merged_digest : TDigest.t :=
  {| TDigest.compression_ := of_Z 100;
     TDigest.min := of_Z 5; TDigest.max := of_Z 5;
     TDigest.maxProcessed_ := 200; TDigest.maxUnprocessed_ := 800;
     TDigest.processedWeight_ := of_Z 2;
     TDigest.unprocessedWeight_ := of_Z 0;
     TDigest.processed_ :=
       [Centroid.mk (of_Z 5) (of_Z 1); Centroid.mk (of_Z 5) (of_Z 1);
        Centroid.mk (of_Z 10) (of_Z 1); Centroid.mk (of_Z 10) (of_Z 1)];
     TDigest.unprocessed_ := [];
     TDigest.dirty_ := true |}.

Section Concrete.
Existing Instance rational_libm.

Lemma compressed_sample_reachable (x : Z) (five_or_ten : {x = 5%Z} + {x = 10%Z}) :
  reachable (compressed_sample x).
Proof.
  apply (reach_quantile
           {| TDigest.compression_ := of_Z 100;
              TDigest.min := DBL_MAX; TDigest.max := DBL_MIN;
              TDigest.maxProcessed_ := 200; TDigest.maxUnprocessed_ := 800;
              TDigest.processedWeight_ := of_Z 0;
              TDigest.unprocessedWeight_ := of_Z 1;
              TDigest.processed_ := [];
              TDigest.unprocessed_ := [Centroid.mk (of_Z x) (of_Z 1)];
              TDigest.dirty_ := true |}
           TDigest.half _ (of_Z x, true)).
  - apply (reach_add fresh (of_Z x)); [apply reach_new | reflexivity].
  - destruct five_or_ten; subst; vm_compute; reflexivity.
Qed.

Lemma merged_digest_reachable : reachable merged_digest.
Proof.
  apply (reach_add_all (compressed_sample 5) [compressed_sample 10]).
  - apply compressed_sample_reachable. now left.
  - intros o [<- | []]. apply compressed_sample_reachable. now right.
  - vm_compute. reflexivity.
Qed.

End Concrete.

(** ** C3 *)

(** C3 as stated fails: quantile(2.0) on the Dirty digest that add(5.0)
    leaves does return failure, but only after process() has run: the
    sample has moved from the unprocessed buffer into the processed list,
    min, max and both weight sums have changed and the dirty flag is
    cleared. *)
Lemma quantile_out_of_range_mutates :
  reachable (libm := rational_libm) one_sample /\
  TDigest.quantile (libm := rational_libm) (of_Z 2) one_sample =
    Done (compressed_sample 5, (of_Z 0, false)) /\
  compressed_sample 5 <> one_sample.
Proof.
  split; [apply one_sample_reachable|].
  split; [vm_compute; reflexivity | discriminate].
Qed.

(** C3, amended: for every reachable digest and every q with q < 0 or
    q > 1, quantile(q) returns failure (value 0.0, success false); the
    digest it leaves is the one process() leaves, which is the digest
    itself whenever it was Clean. *)
Theorem quantile_out_of_range_fails (libm : Libm) (s : TDigest.t) (q : Value) :
  reachable s ->
  (q <? of_Z 0)%V || (q >? of_Z 1)%V = true ->
  exists s', TDigest.process s = Done s' /\
             TDigest.quantile q s = Done (s', (of_Z 0, false)) /\
             (Clean s -> s' = s).
Proof.
  intros R Hq. apply reachable_Inv in R. destruct R as [H0 _].
  destruct (process_ok s H0) as (s' & E & _).
  exists s'. split; [exact E|]. split.
  - unfold TDigest.quantile. rewrite E. cbn [bind].
    unfold TDigest.quantileProcessed. rewrite Hq. reflexivity.
  - intros C. rewrite (process_clean s C) in E. now inversion E.
Qed.

Lemma quantile_out_of_range_witness :
  reachable (libm := rational_libm) (compressed_sample 5) /\
  ((of_Z 2 <? of_Z 0)%V || (of_Z 2 >? of_Z 1)%V = true) /\
  TDigest.quantile (libm := rational_libm) (of_Z 2) (compressed_sample 5) =
    Done (compressed_sample 5, (of_Z 0, false)).
Proof.
  assert (R : reachable (libm := rational_libm) (compressed_sample 5))
    by (apply compressed_sample_reachable; now left).
  split; [exact R|]. split; [reflexivity|].
  destruct (quantile_out_of_range_fails rational_libm (compressed_sample 5)
              (of_Z 2) R eq_refl) as (s' & _ & E & C).
  rewrite <- (C eq_refl) at 2. exact E.
Defined.

(** ** C2 *)

(* after a merge: a digest holding the sample 5, already compressed, merges
   a digest holding 10; its processed list now ends in centroids of mean 10
   while max is still 5, since min and max are only brought up to date by
   process() *)
Lemma merge_breaks_min_max_bounds :
  reachable (libm := rational_libm) merged_digest /\
  TDigest.merge (libm := rational_libm) (compressed_sample 10)
                (compressed_sample 5) = Done merged_digest /\
  ~ bounded merged_digest.
Proof.
  split; [apply merged_digest_reachable|].
  split; [vm_compute; reflexivity|].
  intros B. unfold bounded in B. rewrite Forall_forall in B.
  destruct (B (Centroid.mk (of_Z 10) (of_Z 1))) as [_ H].
  { simpl. auto. }
  vm_compute in H. now apply H.
Qed.

(* all samples negative: max keeps its initial value, the smallest
   positive normal double, and the bound still holds *)
Definition negative_sample : TDigest.t :=
  {| TDigest.compression_ := of_Z 100;
     TDigest.min := of_Z (-5); TDigest.max := DBL_MIN;
     TDigest.maxProcessed_ := 200; TDigest.maxUnprocessed_ := 800;
     TDigest.processedWeight_ := of_Z 1;
     TDigest.unprocessedWeight_ := of_Z 0;
     TDigest.processed_ :=
       [Centroid.mk (of_Z (-5)) (of_Z 1); Centroid.mk (of_Z (-5)) (of_Z 1)];
     TDigest.unprocessed_ := [];
     TDigest.dirty_ := false |}.

Example negative_sample_bounds :
  (TDigest.add (libm := rational_libm) (of_Z (-5)) fresh
     >>= TDigest.quantile (libm := rational_libm) TDigest.half)
    = Done (negative_sample, (of_Z (-5), true)) /\
  bounded negative_sample.
Proof.
  split; [vm_compute; reflexivity|].
  repeat constructor; vm_compute; discriminate.
Qed.

(** C2 (the code at the failing input): a.add(5.0), a.quantile(0.5),
    b.add(10.0), b.quantile(0.5), a.merge(b).  mergeProcessed puts b's
    centroids of mean 10 into a's processed list and leaves max at 5:
    min and max are only written by process(), which merge does not run
    (no capacity is exceeded).  The const queries read the two together:
    cdfProcessed(7.0) answers 1 because 7 >= max, with half of the
    centroids above 7, and quantileProcessed(1.0) answers 7.5, above max
    and below the sample 10. *)
Theorem merge_leaves_means_above_max :
  reachable (libm := rational_libm) merged_digest /\
  TDigest.merge (libm := rational_libm) (compressed_sample 10)
                (compressed_sample 5) = Done merged_digest /\
  TDigest.max merged_digest = of_Z 5 /\
  In (Centroid.mk (of_Z 10) (of_Z 1)) (TDigest.processed_ merged_digest) /\
  ~ bounded merged_digest /\
  TDigest.cdfProcessed (of_Z 7) merged_digest = Done (of_Z 1, true) /\
  TDigest.quantileProcessed (of_Z 1) merged_digest = Done (Fin (15 # 2), true).
Proof.
  destruct merge_breaks_min_max_bounds as (R & E & B).
  split; [exact R|]. split; [exact E|]. split; [reflexivity|].
  split; [simpl; auto|]. split; [exact B|].
  split; vm_compute; reflexivity.
Qed.

(** ** C7 *)

Section InfiniteSamples.
Import PrimFloat.
Local Open Scope float_scope.

(* TDigest d(1.0, 1, 2); d.add(INFINITY); d.add(INFINITY); d.compress(); *)
Definition infinite_samples {libm : IEEE.Libm} : outcome IEEE.TDigest.t :=
  d <- IEEE.TDigest.new 1 1%nat 2%nat ;;
  d <- IEEE.TDigest.add infinity d ;;
  d <- IEEE.TDigest.add infinity d ;;
  IEEE.TDigest.compress d.

(* the digest those calls leave *)
Definition unsorted_digest : IEEE.TDigest.t :=
  {| IEEE.TDigest.compression_ := 1;
     IEEE.TDigest.min := IEEE.DBL_MAX;
     IEEE.TDigest.max := infinity;
     IEEE.TDigest.maxProcessed_ := 2%nat;
     IEEE.TDigest.maxUnprocessed_ := 1%nat;
     IEEE.TDigest.processedWeight_ := 2;
     IEEE.TDigest.unprocessedWeight_ := 0;
     IEEE.TDigest.processed_ :=
       [IEEE.Centroid.mk nan 2; IEEE.Centroid.mk infinity 1];
     IEEE.TDigest.unprocessed_ := [];
     IEEE.TDigest.dirty_ := false |}.

(* TDigest d(1.0, 2, 2); d.add(-DBL_MAX); d.add(DBL_MAX); d.add(DBL_MAX);
   d.compress(); *)
Definition huge_samples {libm : IEEE.Libm} : outcome IEEE.TDigest.t :=
  d <- IEEE.TDigest.new 1 2%nat 2%nat ;;
  d <- IEEE.TDigest.add (- IEEE.DBL_MAX) d ;;
  d <- IEEE.TDigest.add IEEE.DBL_MAX d ;;
  d <- IEEE.TDigest.add IEEE.DBL_MAX d ;;
  IEEE.TDigest.compress d.

Definition overflowed_digest : IEEE.TDigest.t :=
  {| IEEE.TDigest.compression_ := 1;
     IEEE.TDigest.min := IEEE.DBL_MAX;
     IEEE.TDigest.max := IEEE.DBL_MAX;
     IEEE.TDigest.maxProcessed_ := 2%nat;
     IEEE.TDigest.maxUnprocessed_ := 2%nat;
     IEEE.TDigest.processedWeight_ := 3;
     IEEE.TDigest.unprocessedWeight_ := 0;
     IEEE.TDigest.processed_ :=
       [IEEE.Centroid.mk infinity 3; IEEE.Centroid.mk IEEE.DBL_MAX 1];
     IEEE.TDigest.unprocessed_ := [];
     IEEE.TDigest.dirty_ := false |}.

(* a libm that knows the sine and the arc sine at the ends of their range *)
Definition corner_libm : IEEE.Libm :=
  {| IEEE.sin := fun x =>
       if x =? 0x1.921fb54442d18p+0 then 1
       else if x =? -0x1.921fb54442d18p+0 then -1
       else 0;
     IEEE.asin := fun y =>
       if y =? 1 then 0x1.921fb54442d18p+0
       else if y =? -1 then -0x1.921fb54442d18p+0
       else 0;
     IEEE.ceil := fun x => x |}.

(** C7 (the code at the failing input), over IEEE doubles, for every libm
    whose sine of M_PI / 2 is 1.0.  add() turns away a NaN only, so two
    samples +infinity get in.  The second add fills the buffer and runs
    process(): with compression 1 the first cluster takes the seeding
    centroid in again, Centroid::add computes
    mean_ += 1 * (inf - inf) / 2, a NaN, and the second sample opens a
    cluster of its own.  The processed list is (NaN, 2), (inf, 1), which
    compress() leaves as it is: the first mean is not at most the second,
    and quantileProcessed(0.5) stops on the CHECK_LE of
    weightedAverageSorted. *)
Theorem infinite_samples_leave_list_unsorted (libm : IEEE.Libm) :
  IEEE.sin 0x1.921fb54442d18p+0 = 1 ->
  infinite_samples = Done unsorted_digest /\
  ~ IEEE.ascending (IEEE.TDigest.processed_ unsorted_digest) /\
  IEEE.TDigest.quantileProcessed 0.5 unsorted_digest = Fault CheckFailed.
Proof.
  intros H. split; [|split].
  - unfold infinite_samples.
    cbv -[IEEE.sin IEEE.asin IEEE.ceil]. rewrite H. reflexivity.
  - intros A. specialize (A 0%nat _ _ eq_refl eq_refl). discriminate A.
  - reflexivity.
Qed.

Lemma infinite_samples_witness :
  IEEE.sin (Libm := corner_libm) 0x1.921fb54442d18p+0 = 1 /\
  infinite_samples (libm := corner_libm) = Done unsorted_digest.
Proof.
  split; [reflexivity|].
  apply (infinite_samples_leave_list_unsorted corner_libm). reflexivity.
Defined.

(* finite samples do it too: -DBL_MAX, DBL_MAX, DBL_MAX.  The first cluster
   takes the second sample in, DBL_MAX - (-DBL_MAX) overflows and the mean
   becomes +infinity, above the last centroid and above max; the median
   comes out as +infinity *)
Lemma huge_samples_overflow (libm : IEEE.Libm) :
  IEEE.sin 0x1.921fb54442d18p+0 = 1 ->
  huge_samples = Done overflowed_digest /\
  ~ IEEE.ascending (IEEE.TDigest.processed_ overflowed_digest) /\
  IEEE.TDigest.quantileProcessed 0.5 overflowed_digest
    = Done (infinity, true).
Proof.
  intros H. split; [|split].
  - unfold huge_samples.
    cbv -[IEEE.sin IEEE.asin IEEE.ceil]. rewrite H. reflexivity.
  - intros A. specialize (A 0%nat _ _ eq_refl eq_refl). discriminate A.
  - reflexivity.
Qed.

End InfiniteSamples.

(** ** C10 *)

Section SingleSample.
Context {libm : Libm}.
Hypothesis bounded_sine : sine_bounded libm.

(* a weight limit is never above the processed weight *)
Lemma limit_at_most_weight s k (p w : Q) :
  (0 <= p)%Q -> (p < w)%Q ->
  (Fin w <=? Fin p * TDigest.integratedQ s k)%V = false.
Proof.
  intros Hp Hw. unfold TDigest.integratedQ.
  match goal with |- context [sin ?y] =>
    pose proof (bounded_sine y) as B; destruct (sin y) as [| v] end;
    [reflexivity|].
  unfold Vltb, of_Z in B. apply negb_false_iff, Qle_bool_iff in B.
  unfold Vmul, Vadd, Vdiv, of_Z, lift2, Vleb.
  change (Qeq_bool (inject_Z 2) 0%Q) with false. cbv iota.
  destruct (Qle_bool w _) eqn:E; [|reflexivity].
  apply Qle_bool_iff in E. rewrite !Qred_correct in E.
  change (inject_Z 1) with 1%Q in *. change (inject_Z 2) with 2%Q in *.
  exfalso.
  assert ((v + 1) / 2 <= 1)%Q by (apply Qle_shift_div_r; lra).
  assert (0 <= 1 - (v + 1) / 2)%Q by lra.
  nra.
Qed.

Lemma cluster_opens_cluster s pw centroid l st :
  (TDigest.wSoFar st + Centroid.weight centroid <=? TDigest.wLimit st)%V
    = false ->
  TDigest.cluster s pw (centroid :: l) st =
  TDigest.cluster s pw l
    {| TDigest.out := TDigest.out st ++ [centroid];
       TDigest.wSoFar := (TDigest.wSoFar st + Centroid.weight centroid)%V;
       TDigest.wLimit :=
         (pw * TDigest.integratedQ s
                 (TDigest.integratedLocation s (TDigest.wSoFar st / pw)
                  + of_Z 1))%V |}.
Proof. intros H. cbn [TDigest.cluster]. now rewrite H. Qed.

Lemma process_one_sample :
  TDigest.process one_sample = Done (compressed_sample 5).
Proof.
  unfold TDigest.process, one_sample.
  cbn [TDigest.dirty_ negb TDigest.unprocessed_ TDigest.processed_
       std_sort fold_right sort_insert inplace_merge at_index nth_error bind
       TDigest.processedWeight_ TDigest.unprocessedWeight_].
  rewrite cluster_opens_cluster.
  - vm_compute. reflexivity.
  - cbn [TDigest.wSoFar TDigest.wLimit Centroid.weight].
    change (of_Z 1 + of_Z 1)%V with (Fin 2).
    change (of_Z 0 + of_Z 1)%V with (Fin 1).
    apply limit_at_most_weight; lra.
Qed.

Lemma single_sample_queries :
  TDigest.quantile TDigest.half one_sample =
    Done (compressed_sample 5, (of_Z 5, true)) /\
  TDigest.cdf (of_Z 5) one_sample =
    Done (compressed_sample 5, (of_Z 0, true)) /\
  TDigest.cdf (of_Z 4) one_sample =
    Done (compressed_sample 5, (of_Z 0, true)) /\
  TDigest.cdf (of_Z 6) one_sample =
    Done (compressed_sample 5, (of_Z 1, true)).
Proof.
  unfold TDigest.quantile, TDigest.cdf. rewrite process_one_sample.
  repeat split; vm_compute; reflexivity.
Qed.

End SingleSample.

(** C10 (the code at the claim's input): with any libm whose sine stays
    at or below 1, add(5.0) on a fresh digest followed by a query leaves
    TWO processed centroids (5, 1): the clustering loop of process()
    starts again at the centroid that seeded the list.  quantile(0.5) is
    (5.0, true), cdf(4.0) is (0.0, true) and cdf(6.0) is (1.0, true), but
    cdf(5.0) takes the branch for two or more centroids and is
    (0.0, true), not (0.5, true). *)
Theorem single_sample_cdf_is_zero (libm : Libm) :
  sine_bounded libm ->
  TDigest.add (of_Z 5) fresh = Done one_sample /\
  TDigest.process one_sample = Done (compressed_sample 5) /\
  TDigest.quantile TDigest.half one_sample =
    Done (compressed_sample 5, (of_Z 5, true)) /\
  TDigest.cdf (of_Z 5) one_sample =
    Done (compressed_sample 5, (of_Z 0, true)) /\
  TDigest.cdf (of_Z 4) one_sample =
    Done (compressed_sample 5, (of_Z 0, true)) /\
  TDigest.cdf (of_Z 6) one_sample =
    Done (compressed_sample 5, (of_Z 1, true)).
Proof.
  intros B. split; [apply add_one_sample|].
  split; [now apply process_one_sample|].
  now apply single_sample_queries.
Qed.

Lemma single_sample_witness :
  sine_bounded rational_libm /\
  TDigest.cdf (libm := rational_libm) (of_Z 5) one_sample =
    Done (compressed_sample 5, (of_Z 0, true)).
Proof.
  split; [exact rational_libm_bounded|].
  apply (single_sample_cdf_is_zero rational_libm rational_libm_bounded).
Defined.

(** ** C8 *)

Definition sum_weights (l : list Centroid.t) : Value :=
  fold_left (fun acc c => (acc + Centroid.weight c)%V) l (of_Z 0).

(* TDigest d(100, 1); d.add(1.0); *)
Definition small_buffer : TDigest.t :=
  {| TDigest.compression_ := of_Z 100;
     TDigest.min := DBL_MAX; TDigest.max := DBL_MIN;
     TDigest.maxProcessed_ := 200; TDigest.maxUnprocessed_ := 1;
     TDigest.processedWeight_ := of_Z 0;
     TDigest.unprocessedWeight_ := of_Z 1;
     TDigest.processed_ := [];
     TDigest.unprocessed_ := [Centroid.mk (of_Z 1) (of_Z 1)];
     TDigest.dirty_ := true |}.

Lemma add_small_buffer (libm : Libm) :
  TDigest.add (of_Z 1) (TDigest.new2 (of_Z 100) 1) = Done small_buffer.
Proof. vm_compute. reflexivity. Qed.

Lemma cluster_cons (libm : Libm) s pw centroid l st :
  TDigest.cluster s pw (centroid :: l) st =
  if (TDigest.wSoFar st + Centroid.weight centroid <=? TDigest.wLimit st)%V
  then
    out' <- TDigest.add_to_back (TDigest.out st) centroid ;;
    TDigest.cluster s pw l
      {| TDigest.out := out';
         TDigest.wSoFar := (TDigest.wSoFar st + Centroid.weight centroid)%V;
         TDigest.wLimit := TDigest.wLimit st |}
  else
    TDigest.cluster s pw l
      {| TDigest.out := TDigest.out st ++ [centroid];
         TDigest.wSoFar := (TDigest.wSoFar st + Centroid.weight centroid)%V;
         TDigest.wLimit :=
           (pw * TDigest.integratedQ s
                   (TDigest.integratedLocation s (TDigest.wSoFar st / pw)
                    + of_Z 1))%V |}.
Proof. reflexivity. Qed.

(** C8 (the code at the failing input): with a buffer of one sample,
    add(1.0) then add(2.0) triggers process().  Whatever libm returns, the
    digest it leaves has processedWeight_ 2 and totalWeight() 2, but the
    weights of its processed centroids add up to 3: the loop of process()
    also visits the centroid that seeded the list, so its weight is
    counted twice. *)
Theorem processed_weight_counts_first_twice (libm : Libm) :
  TDigest.add (of_Z 1) (TDigest.new2 (of_Z 100) 1) = Done small_buffer /\
  exists s, TDigest.add (of_Z 2) small_buffer = Done s /\
            Clean s /\ TDigest.unprocessed_ s = [] /\
            TDigest.processedWeight_ s = of_Z 2 /\
            TDigest.unprocessedWeight_ s = of_Z 0 /\
            sum_weights (TDigest.processed_ s) = of_Z 3 /\
            TDigest.totalWeight s = Done 2%Z.
Proof.
  split; [apply add_small_buffer|].
  unfold TDigest.add, TDigest.add_w, small_buffer. cbn [isnan of_Z].
  unfold TDigest.processIfNecessary.
  cbn [TDigest.unprocessed_ TDigest.processed_ TDigest.maxUnprocessed_
       TDigest.maxProcessed_ length app Nat.ltb Nat.leb orb].
  unfold TDigest.process.
  cbn [TDigest.dirty_ negb TDigest.unprocessed_ TDigest.processed_ app
       TDigest.processedWeight_ TDigest.unprocessedWeight_].
  change (inplace_merge (std_sort _) []) with
    [Centroid.mk (Fin (inject_Z 1)) (of_Z 1); Centroid.mk (Fin (inject_Z 2)) (of_Z 1)].
  cbn [at_index nth_error bind].
  rewrite cluster_cons. cbn [TDigest.out TDigest.wSoFar TDigest.wLimit].
  destruct (_ <=? _)%V.
  - change (TDigest.add_to_back _ _) with
      (Done [Centroid.mk (of_Z 1) (of_Z 2)]).
    cbn [bind]. rewrite cluster_cons.
    cbn [TDigest.out TDigest.wSoFar TDigest.wLimit].
    destruct (_ <=? _)%V.
    + change (TDigest.add_to_back _ _) with
        (Done [Centroid.mk (Fin (4 # 3)) (of_Z 3)]).
      cbn [bind TDigest.cluster TDigest.out at_index nth_error length].
      eexists. split; [reflexivity|]. repeat split.
    + cbn [bind TDigest.cluster TDigest.out at_index nth_error length app].
      eexists. split; [reflexivity|]. repeat split.
  - rewrite cluster_cons. cbn [TDigest.out TDigest.wSoFar TDigest.wLimit].
    destruct (_ <=? _)%V.
    + change (TDigest.add_to_back _ _) with
        (Done [Centroid.mk (of_Z 1) (of_Z 1); Centroid.mk (Fin (3 # 2)) (of_Z 2)]).
      cbn [bind TDigest.cluster TDigest.out at_index nth_error length app].
      eexists. split; [reflexivity|]. repeat split.
    + cbn [bind TDigest.cluster TDigest.out at_index nth_error length app].
      eexists. split; [reflexivity|]. repeat split.
Qed.

(** ** C6 *)

(* the closing interpolation of quantileProcessed, for an index that is at
   most processedWeight_: the weight z1 it gives to the last mean is
   negative, the average lands at or above max and is clamped to it *)
Lemma closing_interpolation_is_max (mn mx w pw index : Q) :
  (0 < w)%Q -> (mn <= mx)%Q -> (index <= pw)%Q ->
  let z1 := (Fin index - Fin pw - Fin w / of_Z 2)%V in
  let z2 := (Fin w / of_Z 2 - z1)%V in
  exists r, TDigest.weightedAverage (Fin mn) z1 (Fin mx) z2 = Done (Fin r) /\
            (r == mx)%Q.
Proof.
  intros Hw Hm Hi z1 z2. subst z1 z2.
  unfold TDigest.weightedAverage, TDigest.weightedAverageSorted.
  assert (Hle : (Fin mn <=? Fin mx)%V = true) by now apply Qle_bool_iff.
  rewrite Hle. cbn [CHECK bind].
  unfold Vsub, Vadd, Vmul, Vdiv, lift2, of_Z.
  change (Qeq_bool (inject_Z 2) 0%Q) with false. cbv iota.
  change (inject_Z 2) with 2%Q.
  set (z1 := Qred (Qred (index - pw) - Qred (w / 2))).
  set (z2 := Qred (Qred (w / 2) - z1)).
  assert (E1 : (z1 == index - pw - w / 2)%Q)
    by (unfold z1; now rewrite !Qred_correct).
  assert (E2 : (z2 == w / 2 - z1)%Q)
    by (unfold z2; now rewrite !Qred_correct).
  assert (Hd : (0 < w / 2)%Q) by (apply Qlt_shift_div_l; lra).
  rewrite nonzero_eqb by lra.
  set (x := Qred ((Qred (Qred (mn * z1) + Qred (mx * z2))) / Qred (z1 + z2))).
  assert (Ex : (x * (w / 2) == mn * z1 + mx * z2)%Q).
  { unfold x. rewrite !Qred_correct.
    setoid_replace (z1 + z2)%Q with (w / 2)%Q by lra. field. lra. }
  assert (Hx : (mx <= x)%Q).
  { destruct (Qlt_le_dec x mx) as [L | L]; [|assumption]. exfalso.
    assert (z1 <= 0)%Q by lra. nra. }
  unfold std_min, std_max, Vltb.
  destruct (Qle_bool x mx) eqn:C1; cbn [negb].
  - apply Qle_bool_iff in C1.
    destruct (Qle_bool x mn) eqn:C2; cbn [negb].
    + apply Qle_bool_iff in C2. exists mn. split; [reflexivity | lra].
    + exists x. split; [reflexivity | lra].
  - destruct (Qle_bool mx mn) eqn:C2; cbn [negb].
    + apply Qle_bool_iff in C2. exists mn. split; [reflexivity | lra].
    + exists mx. split; reflexivity.
Qed.

(* whenever the walk over the centroid pairs ends without a bracket,
   quantileProcessed answers max *)
Lemma quantileProcessed_closing_is_max s c0 c1 l (qq p mn mx w : Q) :
  TDigest.processed_ s = c0 :: c1 :: l ->
  TDigest.processedWeight_ s = Fin p -> TDigest.max s = Fin mx ->
  (0 <= qq <= 1)%Q -> (0 <= p)%Q ->
  (Fin qq * Fin p <? Centroid.weight c0 / of_Z 2)%V = false ->
  TDigest.quantile_walk s (Fin qq * Fin p)%V (length (c1 :: l)) 0
                        (Centroid.weight c0 / of_Z 2)%V = Done None ->
  nth_error (c0 :: c1 :: l) (length (c1 :: l)) =
    Some (Centroid.mk (Fin mn) (Fin w)) ->
  (0 < w)%Q -> (mn <= mx)%Q -> (p - w / 2 <= qq * p)%Q ->
  exists r, TDigest.quantileProcessed (Fin qq) s = Done (Fin r, true) /\
            (r == mx)%Q.
Proof.
  intros Hl Hp Hmx [Hq0 Hq1] Hp0 Hfirst Hwalk Hlast Hw Hm Hseg.
  unfold TDigest.quantileProcessed.
  assert (Hq : (Fin qq <? of_Z 0)%V || (Fin qq >? of_Z 1)%V = false).
  { unfold Vgtb, Vltb, of_Z. apply orb_false_iff.
    split; apply negb_false_iff, Qle_bool_iff; unfold inject_Z; lra. }
  rewrite Hq, Hl, Hp, Hmx.
  unfold TDigest.weight, TDigest.mean. rewrite Hl.
  cbn [at_index nth_error bind]. rewrite Hfirst.
  replace (length (c0 :: c1 :: l) - 1) with (length (c1 :: l))
    by (simpl; lia).
  rewrite Hwalk. cbn [bind].
  assert (Hat : at_index (c0 :: c1 :: l) (length (c1 :: l)) =
                Done (Centroid.mk (Fin mn) (Fin w))).
  { unfold at_index. now rewrite Hlast. }
  rewrite Hat. cbn [bind Centroid.weight Centroid.mean].
  assert (C1 : (Fin qq * Fin p <=? Fin p)%V = true).
  { unfold Vmul, lift2, Vleb. apply Qle_bool_iff. rewrite Qred_correct. nra. }
  rewrite C1. cbn [CHECK bind].
  assert (C2 : (Fin qq * Fin p >=? Fin p - Fin w / of_Z 2)%V = true).
  { unfold Vgeb, Vmul, Vsub, Vdiv, lift2, Vleb, of_Z.
    change (Qeq_bool (inject_Z 2) 0%Q) with false. cbv iota.
    change (inject_Z 2) with 2%Q.
    apply Qle_bool_iff. rewrite !Qred_correct. exact Hseg. }
  rewrite C2. cbn [CHECK bind].
  destruct (closing_interpolation_is_max mn mx w p (Qred (qq * p)) Hw Hm)
    as (r & E & Hr).
  { rewrite Qred_correct. nra. }
  cbv zeta in E. change (Fin qq * Fin p)%V with (Fin (Qred (qq * p))).
  rewrite E. cbn [bind]. exists r. split; [reflexivity | exact Hr].
Qed.

(* what add(1.0), add(2.0) and a query leave *)
Definition two_samples_compressed : TDigest.t :=
  {| TDigest.compression_ := of_Z 100;
     TDigest.min := of_Z 1; TDigest.max := of_Z 2;
     TDigest.maxProcessed_ := 200; TDigest.maxUnprocessed_ := 800;
     TDigest.processedWeight_ := of_Z 2;
     TDigest.unprocessedWeight_ := of_Z 0;
     TDigest.processed_ :=
       [Centroid.mk (of_Z 1) (of_Z 1); Centroid.mk (of_Z 1) (of_Z 1);
        Centroid.mk (of_Z 2) (of_Z 1)];
     TDigest.unprocessed_ := [];
     TDigest.dirty_ := false |}.

(* TDigest d({Centroid(-10.0, 0.125)}, {}, 100.0, 0, 0); *)
Definition light_digest : TDigest.t :=
  TDigest.of_vectors [Centroid.mk (of_Z (-10)) (Fin (1 # 8))] [] (of_Z 100) 0 0.

(* d.add(-5.0); *)
Definition light_sample : TDigest.t :=
  {| TDigest.compression_ := of_Z 100;
     TDigest.min := DBL_MAX; TDigest.max := DBL_MIN;
     TDigest.maxProcessed_ := 200; TDigest.maxUnprocessed_ := 800;
     TDigest.processedWeight_ := of_Z 0;
     TDigest.unprocessedWeight_ := of_Z 1;
     TDigest.processed_ := [Centroid.mk (of_Z (-10)) (Fin (1 # 8))];
     TDigest.unprocessed_ := [Centroid.mk (of_Z (-5)) (of_Z 1)];
     TDigest.dirty_ := true |}.

Lemma add_light_sample (libm : Libm) :
  TDigest.add (of_Z (-5)) light_digest = Done light_sample.
Proof. vm_compute. reflexivity. Qed.

(* process() on [light_sample]: the centroid (-5, 1) always opens the last
   cluster; whether the seed (-10, 1/8) is merged with itself depends on
   the first weight limit *)
Lemma process_light_sample (libm : Libm) :
  sine_bounded libm ->
  exists l, TDigest.process light_sample =
    Done {| TDigest.compression_ := of_Z 100;
            TDigest.min := of_Z (-10); TDigest.max := DBL_MIN;
            TDigest.maxProcessed_ := 200; TDigest.maxUnprocessed_ := 800;
            TDigest.processedWeight_ := of_Z 1;
            TDigest.unprocessedWeight_ := of_Z 0;
            TDigest.processed_ := l ++ [Centroid.mk (of_Z (-5)) (of_Z 1)];
            TDigest.unprocessed_ := [];
            TDigest.dirty_ := false |} /\
    (l = [Centroid.mk (of_Z (-10)) (Fin (1 # 8));
          Centroid.mk (of_Z (-10)) (Fin (1 # 8))] \/
     l = [Centroid.mk (of_Z (-10)) (Fin (1 # 4))]).
Proof.
  intros B. unfold TDigest.process, light_sample.
  cbn [TDigest.dirty_ negb TDigest.unprocessed_ TDigest.processed_
       TDigest.processedWeight_ TDigest.unprocessedWeight_].
  change (inplace_merge (std_sort _) _) with
    [Centroid.mk (of_Z (-10)) (Fin (1 # 8)); Centroid.mk (of_Z (-5)) (of_Z 1)].
  change (of_Z 0 + of_Z 1)%V with (Fin 1).
  cbn [at_index nth_error bind].
  rewrite cluster_cons.
  cbn [TDigest.out TDigest.wSoFar TDigest.wLimit Centroid.weight].
  change (Fin (1 # 8) + Fin (1 # 8))%V with (Fin (1 # 4)).
  destruct (_ <=? _)%V.
  - change (TDigest.add_to_back _ _) with
      (Done [Centroid.mk (of_Z (-10)) (Fin (1 # 4))]).
    cbn [bind]. rewrite cluster_opens_cluster.
    + cbn [TDigest.cluster TDigest.out bind app at_index nth_error length
           Nat.sub Centroid.mean].
      exists [Centroid.mk (of_Z (-10)) (Fin (1 # 4))].
      split; [reflexivity | now right].
    + cbn [TDigest.wSoFar TDigest.wLimit Centroid.weight].
      change (Fin (1 # 4) + of_Z 1)%V with (Fin (5 # 4)).
      apply limit_at_most_weight;
        first [exact B | discriminate | reflexivity].
  - rewrite cluster_opens_cluster.
    + cbn [TDigest.cluster TDigest.out bind app at_index nth_error length
           Nat.sub Centroid.mean].
      exists [Centroid.mk (of_Z (-10)) (Fin (1 # 8));
              Centroid.mk (of_Z (-10)) (Fin (1 # 8))].
      split; [reflexivity | now left].
    + cbn [TDigest.wSoFar TDigest.wLimit Centroid.weight].
      change (Fin (1 # 4) + of_Z 1)%V with (Fin (5 # 4)).
      apply limit_at_most_weight;
        first [exact B | discriminate | reflexivity].
Qed.

(** C6 (the code at a failing input).  The constructor from vectors takes
    the processed centroid (-10, 0.125); add(-5.0) and quantile(0.875)
    follow.  With any libm whose sine stays at or below 1, process()
    leaves (-5, 1) as the last of at least two processed centroids,
    processedWeight_ 1 and max at the smallest positive double.  The index
    0.875 lies in the final segment, from 0.5 (processedWeight_ less half
    the last weight, the bound of the CHECK_GE in the code) to 1, and the
    walk over the pairs ends without a bracket.  The closing code computes
    z1 = index - processedWeight_ - weight(n-1)/2 = -5/8 and z2 = 9/8; the
    average with them is clamped by weightedAverageSorted and the result is
    max itself.  The weighted average of -5 and max with the two index
    distances 1/8 and 3/8 as weights is below -1. *)
Theorem closing_interpolation_returns_max (libm : Libm) :
  sine_bounded libm ->
  TDigest.add (of_Z (-5)) light_digest = Done light_sample /\
  (exists s',
     TDigest.quantile (Fin (7 # 8)) light_sample = Done (s', (DBL_MIN, true)) /\
     2 <= length (TDigest.processed_ s') /\
     last (TDigest.processed_ s') (Centroid.mk NaN NaN)
       = Centroid.mk (of_Z (-5)) (of_Z 1) /\
     TDigest.processedWeight_ s' = of_Z 1 /\ TDigest.max s' = DBL_MIN) /\
  (let index := (Fin (7 # 8) * of_Z 1)%V in
   let left := (of_Z 1 - of_Z 1 / of_Z 2)%V in
   let right := of_Z 1 in
   (left <=? index)%V = true /\ (index <=? right)%V = true /\
   exists v, TDigest.weightedAverage (of_Z (-5)) (right - index) DBL_MIN
                                     (index - left) = Done v /\
             (v <? of_Z (-1))%V = true).
Proof.
  intros B. split; [apply add_light_sample|]. split.
  - destruct (@process_light_sample libm B) as (l & E & [-> | ->]);
      unfold TDigest.quantile; rewrite E; cbn [bind];
      (eexists; split; [vm_compute; reflexivity|]);
      repeat split; simpl; lia.
  - cbv zeta. split; [reflexivity|]. split; [reflexivity|].
    eexists. split; vm_compute; reflexivity.
Qed.

Lemma closing_interpolation_witness :
  sine_bounded rational_libm /\
  exists s',
    TDigest.quantile (libm := rational_libm) (Fin (7 # 8)) light_sample
      = Done (s', (DBL_MIN, true)).
Proof.
  split; [exact rational_libm_bounded|].
  destruct (@closing_interpolation_returns_max rational_libm
              rational_libm_bounded) as (_ & (s' & E & _) & _).
  now exists s'.
Defined.

(** * Further properties of the code *)

(** ** weightedAverage, weightedAverageSorted *)

(* std::max(x1, std::min(x, x2)) lands in [x1, x2] whatever x is, a NaN
   included *)
Lemma clamp_between (a b : Q) (x : Value) :
  (a <= b)%Q ->
  exists r, std_max (Fin a) (std_min x (Fin b)) = Fin r /\ (a <= r <= b)%Q.
Proof.
  intros Hab. unfold std_min, std_max.
  destruct x as [| v]; cbn [Vltb].
  - exists a. split; [reflexivity | lra].
  - destruct (Qle_bool v b) eqn:C1; cbn [negb Vltb].
    + apply Qle_bool_iff in C1.
      destruct (Qle_bool v a) eqn:C2; cbn [negb].
      * exists a. split; [reflexivity | lra].
      * exists v. split; [reflexivity|]. split; [|assumption].
        destruct (Qlt_le_dec v a) as [L | L]; [|assumption].
        apply Qlt_le_weak, Qle_bool_iff in L. congruence.
    + destruct (Qle_bool b a) eqn:C2; cbn [negb].
      * exists a. split; [reflexivity | lra].
      * exists b. split; [reflexivity | lra].
Qed.

Lemma weightedAverageSorted_between (a b : Q) (w1 w2 : Value) :
  (a <= b)%Q ->
  exists r, TDigest.weightedAverageSorted (Fin a) w1 (Fin b) w2 = Done (Fin r)
            /\ (a <= r <= b)%Q.
Proof.
  intros Hab. unfold TDigest.weightedAverageSorted.
  assert (E : (Fin a <=? Fin b)%V = true) by now apply Qle_bool_iff.
  rewrite E. cbn [CHECK bind].
  destruct (clamp_between a b
              ((Fin a * w1 + Fin b * w2) / (w1 + w2))%V Hab) as (r & -> & Hr).
  now exists r.
Qed.

(** X1: weightedAverage of two finite values returns, for any two weights
    (zero, negative or NaN ones included), a value between the two; with
    a NaN among the values the CHECK_LE of weightedAverageSorted aborts. *)
Theorem weightedAverage_between (x1 x2 : Q) (w1 w2 : Value) :
  (exists r, TDigest.weightedAverage (Fin x1) w1 (Fin x2) w2 = Done (Fin r) /\
             ((x1 <= r <= x2)%Q \/ (x2 <= r <= x1)%Q)) /\
  TDigest.weightedAverage NaN w1 (Fin x2) w2 = Fault CheckFailed /\
  TDigest.weightedAverage (Fin x1) w1 NaN w2 = Fault CheckFailed.
Proof.
  split; [|split; reflexivity].
  unfold TDigest.weightedAverage.
  destruct (Fin x1 <=? Fin x2)%V eqn:E.
  - apply Qle_bool_iff in E.
    destruct (weightedAverageSorted_between x1 x2 w1 w2 E) as (r & -> & Hr).
    exists r. auto.
  - assert (L : (x2 <= x1)%Q).
    { destruct (Qlt_le_dec x1 x2) as [L | L]; [|assumption].
      apply Qlt_le_weak, Qle_bool_iff in L. cbn in E. congruence. }
    destruct (weightedAverageSorted_between x2 x1 w2 w1 L) as (r & -> & Hr).
    exists r. auto.
Qed.

(** ** Queries on an empty digest, repeated queries, NaN arguments *)

(** X3: on a Clean digest without processed centroids, a fresh one for
    instance, quantile(q) and cdf(x) report failure with the value 0.0 for
    every argument and leave the digest as it is. *)
Theorem empty_digest_queries_fail (libm : Libm) (s : TDigest.t) (q x : Value) :
  Clean s -> TDigest.processed_ s = [] ->
  TDigest.quantile q s = Done (s, (of_Z 0, false)) /\
  TDigest.cdf x s = Done (s, (of_Z 0, false)).
Proof.
  intros C He. unfold TDigest.quantile, TDigest.cdf.
  rewrite (process_clean s C). cbn [bind].
  unfold TDigest.quantileProcessed, TDigest.cdfProcessed. rewrite He.
  split; [|reflexivity]. now destruct (_ || _).
Qed.

Lemma empty_digest_queries_witness :
  Clean fresh /\ TDigest.processed_ fresh = [] /\
  TDigest.quantile (libm := rational_libm) TDigest.half fresh
    = Done (fresh, (of_Z 0, false)) /\
  TDigest.cdf (libm := rational_libm) (of_Z 5) fresh
    = Done (fresh, (of_Z 0, false)).
Proof.
  split; [reflexivity|]. split; [reflexivity|].
  apply (empty_digest_queries_fail rational_libm fresh); reflexivity.
Defined.

Section Queries.
Context {libm : Libm}.

Lemma process_leaves_clean s s' :
  TDigest.process s = Done s' -> Clean s'.
Proof.
  unfold TDigest.process, Clean. destruct (TDigest.dirty_ s) eqn:D; cbn [negb].
  - intros E.
    destruct (at_index _ 0); cbn [bind] in E; [|discriminate].
    destruct (TDigest.cluster _ _ _ _); cbn [bind] in E; [|discriminate].
    destruct (at_index _ 0); cbn [bind] in E; [|discriminate].
    destruct (at_index _ _); cbn [bind] in E; [|discriminate].
    now inversion E.
  - intros E. now inversion E; subst.
Qed.

Lemma process_twice s s' :
  TDigest.process s = Done s' -> TDigest.process s' = Done s'.
Proof. intros E. apply process_clean. now apply (process_leaves_clean s). Qed.

End Queries.

(** X4: queries compress once: when the compress step of a query on [s]
    leaves [s'], every quantile and cdf call on [s'] gives what it gives on
    [s], finds the digest Clean and leaves it as it is. *)
Theorem queries_repeat (libm : Libm) (s s' : TDigest.t) (q x : Value) :
  TDigest.process s = Done s' ->
  TDigest.process s' = Done s' /\
  TDigest.quantile q s' = TDigest.quantile q s /\
  TDigest.cdf x s' = TDigest.cdf x s /\
  (forall s2 r, TDigest.quantile q s' = Done (s2, r) -> s2 = s') /\
  (forall s2 r, TDigest.cdf x s' = Done (s2, r) -> s2 = s').
Proof.
  intros E. pose proof (process_twice s s' E) as E'.
  unfold TDigest.quantile, TDigest.cdf. rewrite E, E'. cbn [bind].
  repeat split; auto.
  - intros s2 r H. destruct (TDigest.quantileProcessed q s');
      cbn [bind] in H; [now inversion H | discriminate].
  - intros s2 r H. destruct (TDigest.cdfProcessed x s');
      cbn [bind] in H; [now inversion H | discriminate].
Qed.

Lemma queries_repeat_witness :
  TDigest.process (libm := rational_libm) one_sample
    = Done (compressed_sample 5) /\
  TDigest.quantile (libm := rational_libm) TDigest.half (compressed_sample 5)
    = TDigest.quantile (libm := rational_libm) TDigest.half one_sample.
Proof.
  assert (E : TDigest.process (libm := rational_libm) one_sample
              = Done (compressed_sample 5)) by (vm_compute; reflexivity).
  split; [exact E|].
  apply (queries_repeat rational_libm one_sample (compressed_sample 5)
           TDigest.half (of_Z 5) E).
Defined.

Lemma Vleb_NaN_r a : (a <=? NaN)%V = false.
Proof. now destruct a. Qed.

Lemma Vltb_NaN_r a : (a <? NaN)%V = false.
Proof. now destruct a. Qed.

(* with a NaN index no pair of centroids brackets it *)
Lemma quantile_walk_NaN s : forall k i weightSoFar,
  i + k < length (TDigest.processed_ s) ->
  TDigest.quantile_walk s NaN k i weightSoFar = Done None.
Proof.
  induction k as [| k IH]; intros i wsf H; [reflexivity|].
  cbn [TDigest.quantile_walk]. unfold TDigest.weight, at_index.
  destruct (nth_error (TDigest.processed_ s) i) as [ci |] eqn:Ei.
  2:{ apply nth_error_None in Ei. lia. }
  destruct (nth_error (TDigest.processed_ s) (i + 1)) as [ci1 |] eqn:Ei1.
  2:{ apply nth_error_None in Ei1. lia. }
  cbn [bind].
  unfold Vgtb. cbn [Vltb]. apply IH. lia.
Qed.

(** X5: with two or more processed centroids a NaN argument is not rejected
    but aborts the process: quantileProcessed(NaN) passes the range test
    (both comparisons are false), finds no bracket and fails
    CHECK_LE(index, processedWeight_); cdfProcessed(NaN) fails
    CHECK_GT(x, mean(0)). *)
Theorem NaN_query_aborts (s : TDigest.t) :
  2 <= length (TDigest.processed_ s) ->
  TDigest.quantileProcessed NaN s = Fault CheckFailed /\
  TDigest.cdfProcessed NaN s = Fault CheckFailed.
Proof.
  intros H.
  destruct (TDigest.processed_ s) as [| c0 [| c1 l]] eqn:E;
    try (simpl in H; lia).
  split.
  - unfold TDigest.quantileProcessed. rewrite E.
    cbn [Vltb Vgtb orb of_Z]. unfold TDigest.weight at 1. rewrite E.
    cbn [at_index nth_error bind Vmul lift2 Vltb].
    rewrite quantile_walk_NaN by (rewrite E; simpl; lia).
    reflexivity.
  - unfold TDigest.cdfProcessed. rewrite E.
    unfold Vgeb, Vgtb. cbn [Vleb]. rewrite Vleb_NaN_r.
    unfold TDigest.mean at 1. rewrite E.
    cbn [at_index nth_error bind]. now rewrite Vltb_NaN_r.
Qed.

Lemma NaN_query_aborts_witness :
  2 <= length (TDigest.processed_ (compressed_sample 5)) /\
  TDigest.quantileProcessed NaN (compressed_sample 5) = Fault CheckFailed /\
  TDigest.cdfProcessed NaN (compressed_sample 5) = Fault CheckFailed.
Proof.
  split; [simpl; lia|].
  apply (NaN_query_aborts (compressed_sample 5)). simpl. lia.
Defined.

(** ** cdfProcessed returns on finite input *)

Definition finite_mean (c : Centroid.t) : Prop :=
  exists m, Centroid.mean c = Fin m.

Section CdfReturns.
Variable s : TDigest.t.
Variable x : Q.
Hypothesis means_finite : Forall finite_mean (TDigest.processed_ s).
Variable last_mean : Q.
Hypothesis last_centroid :
  TDigest.mean s (length (TDigest.processed_ s) - 1) = Done (Fin last_mean).
Hypothesis below_last : (x < last_mean)%Q.

Let n := length (TDigest.processed_ s).

Lemma mean_in_range i :
  i < n -> exists m, TDigest.mean s i = Done (Fin m).
Proof.
  intros H. unfold TDigest.mean, at_index.
  destruct (nth_error (TDigest.processed_ s) i) as [c |] eqn:E.
  - rewrite Forall_forall in means_finite.
    destruct (means_finite c (nth_error_In _ _ E)) as (m & Hm).
    exists m. cbn [bind]. now rewrite Hm.
  - apply nth_error_None in E. unfold n in H. lia.
Qed.

Lemma weight_in_range i :
  i < n -> exists w, TDigest.weight s i = Done w.
Proof.
  intros H. unfold TDigest.weight, at_index.
  destruct (nth_error (TDigest.processed_ s) i) as [c |] eqn:E.
  - eexists. reflexivity.
  - apply nth_error_None in E. unfold n in H. lia.
Qed.

(* a centroid whose mean is at most x is not the last one *)
Lemma not_last i m :
  i < n -> TDigest.mean s i = Done (Fin m) -> (m <= x)%Q -> i + 1 < n.
Proof.
  intros Hi Hm Hle.
  destruct (Nat.eq_dec i (n - 1)) as [-> | Hne]; [|lia].
  unfold n in Hm. rewrite last_centroid in Hm. inversion Hm; subst. lra.
Qed.

Lemma cdf_equal_run_returns : forall k it weightSoFar m,
  it + k = n -> 0 < k ->
  TDigest.mean s it = Done (Fin m) -> (m == x)%Q ->
  exists r, TDigest.cdf_equal_run s (Fin x) k it weightSoFar = Done r.
Proof.
  induction k as [| k IH]; intros it wsf m Hn Hk Hm Heq; [lia|].
  cbn [TDigest.cdf_equal_run].
  assert (H1 : it + 1 < n) by (apply (not_last it m); [lia | assumption | lra]).
  destruct (mean_in_range (it + 1)) as (m1 & E1); [lia|].
  rewrite E1. cbn [bind].
  destruct (Fin m1 ==? Fin x)%V eqn:C; [|now eexists].
  destruct (weight_in_range it) as (w & ->); [lia|].
  destruct (weight_in_range (it + 1)) as (w1 & ->); [lia|].
  cbn [bind]. apply (IH (S it) _ m1); try lia.
  - now rewrite <- Nat.add_1_r.
  - now apply Qeq_bool_iff.
Qed.

Lemma cdf_walk_returns : forall k it weightSoFar m,
  it + k = n -> 0 < k ->
  TDigest.mean s it = Done (Fin m) -> (m <= x)%Q ->
  exists r, TDigest.cdf_walk s (Fin x) k it weightSoFar = Done r.
Proof.
  induction k as [| k IH]; intros it wsf m Hn Hk Hm Hle; [lia|].
  cbn [TDigest.cdf_walk]. rewrite Hm. cbn [bind].
  destruct (Fin m ==? Fin x)%V eqn:C.
  - apply Qeq_bool_iff in C.
    destruct (cdf_equal_run_returns (S k) it wsf m Hn Hk Hm C) as (r & ->).
    cbn [bind]. now eexists.
  - assert (H1 : it + 1 < n) by (apply (not_last it m); [lia | assumption..]).
    assert (Lx : (Fin m <=? Fin x)%V = true) by now apply Qle_bool_iff.
    rewrite Lx.
    destruct (mean_in_range (it + 1)) as (m1 & E1); [lia|].
    destruct (weight_in_range it) as (w & Ew); [lia|].
    destruct (weight_in_range (it + 1)) as (w1 & Ew1); [lia|].
    rewrite E1, Ew, Ew1. cbn [bind].
    destruct (Fin m1 >? Fin x)%V eqn:G.
    + destruct (Fin m1 - Fin m >? of_Z 0)%V; eexists; reflexivity.
    + apply (IH (S it) _ m1); try lia.
      * now rewrite <- Nat.add_1_r.
      * unfold Vgtb, Vltb in G. apply negb_false_iff in G.
        now apply Qle_bool_iff.
Qed.

End CdfReturns.

Lemma cdfProcessed_total (s : TDigest.t) (x : Q) :
  Forall finite_mean (TDigest.processed_ s) ->
  exists r b, TDigest.cdfProcessed (Fin x) s = Done (r, b) /\
              (b = false <-> TDigest.processed_ s = []).
Proof.
  intros Hfin. unfold TDigest.cdfProcessed.
  destruct (TDigest.processed_ s) as [| c0 [| c1 l]] eqn:E.
  - exists (of_Z 0), false. split; [reflexivity | tauto].
  - assert (forall v, exists r b, Done (A := Value * bool) (v, true) = Done (r, b)
                      /\ (b = false <-> [c0] = [])).
    { intros v. exists v, true. split; [reflexivity|]. split; discriminate. }
    destruct (_ <? _)%V; [apply H|].
    destruct (_ >? _)%V; [apply H|].
    destruct (_ <=? _)%V; apply H.
  - assert (R : forall v, exists r b,
                 Done (A := Value * bool) (v, true) = Done (r, b)
                 /\ (b = false <-> c0 :: c1 :: l = [])).
    { intros v. exists v, true. split; [reflexivity|]. split; discriminate. }
    destruct (Fin x <=? TDigest.min s)%V; [apply R|].
    destruct (Fin x >=? TDigest.max s)%V; [apply R|].
    assert (Hn : length (TDigest.processed_ s) = S (S (length l)))
      by now rewrite E.
    rewrite <- E in Hfin.
    destruct (mean_in_range s Hfin 0) as (m0 & E0); [lia|].
    destruct (mean_in_range s Hfin (S (length l))) as (mn & En); [lia|].
    destruct (weight_in_range s 0) as (w0 & Ew0); [lia|].
    destruct (weight_in_range s (S (length l))) as (wn & Ewn); [lia|].
    replace (length (c0 :: c1 :: l) - 1) with (S (length l)) by (simpl; lia).
    rewrite E0. cbn [bind].
    destruct (Fin x <=? Fin m0)%V eqn:C0.
    { destruct (Fin m0 - TDigest.min s >? of_Z 0)%V; [|apply R].
      rewrite Ew0. apply R. }
    assert (G0 : (Fin x >? Fin m0)%V = true).
    { unfold Vgtb, Vltb. cbn in C0. now rewrite C0. }
    rewrite G0, En. cbn [CHECK bind].
    destruct (Fin x >=? Fin mn)%V eqn:Cn.
    { destruct (TDigest.max s - Fin mn >? of_Z 0)%V; [|apply R].
      rewrite Ewn. apply R. }
    assert (Gn : (Fin x <? Fin mn)%V = true).
    { unfold Vgeb, Vltb in *. cbn in Cn. now rewrite Cn. }
    rewrite Gn, Ew0. cbn [CHECK bind].
    assert (Lx : (x < mn)%Q).
    { destruct (Qlt_le_dec x mn) as [L | L]; [assumption|].
      apply Qle_bool_iff in L. cbn in Cn. congruence. }
    assert (L0 : (m0 <= x)%Q).
    { destruct (Qlt_le_dec x m0) as [L | L]; [|assumption].
      apply Qlt_le_weak, Qle_bool_iff in L. cbn in C0. congruence. }
    destruct (cdf_walk_returns s x Hfin mn) with
      (k := length (c0 :: c1 :: l)) (it := 0) (weightSoFar := (w0 / of_Z 2)%V)
      (m := m0) as (r & ->); auto.
    + rewrite Hn. replace (S (S (length l)) - 1) with (S (length l)) by lia.
      exact En.
    + simpl. lia.
    + cbn [bind]. apply R.
Qed.

(** X6: cdfProcessed on a finite x, over processed centroids with finite
    means (whatever their order and weights, whatever min and max hold),
    always returns: its two CHECKs pass, its loops stay inside the vector
    and do not run off their end.  It reports failure exactly when there
    is no processed centroid. *)
Theorem cdfProcessed_returns (s : TDigest.t) (x : Q) :
  Forall finite_mean (TDigest.processed_ s) ->
  exists r b, TDigest.cdfProcessed (Fin x) s = Done (r, b) /\
              (b = false <-> TDigest.processed_ s = []).
Proof. apply cdfProcessed_total. Qed.

Lemma cdfProcessed_returns_witness :
  Forall finite_mean (TDigest.processed_ two_samples_compressed) /\
  exists r b, TDigest.cdfProcessed (Fin (3 # 2)) two_samples_compressed
                = Done (r, b) /\
              (b = false <-> TDigest.processed_ two_samples_compressed = []).
Proof.
  assert (F : Forall finite_mean (TDigest.processed_ two_samples_compressed)).
  { repeat constructor; eexists; reflexivity. }
  split; [exact F|].
  apply (cdfProcessed_returns two_samples_compressed (3 # 2) F).
Defined.

(** ** Weights *)

(* the weight of a centroid and of a list of centroids, as rationals *)
Definition wq (c : Centroid.t) : Q :=
  match Centroid.weight c with Fin w => w | NaN => 0%Q end.

Definition wsum (l : list Centroid.t) : Q :=
  fold_right (fun c a => (wq c + a)%Q) 0%Q l.

(* processedWeight_, unprocessedWeight_ and their sum, as rationals *)
Definition rational (v : Value) : Q :=
  match v with Fin q => q | NaN => 0%Q end.
Definition pwq (s : TDigest.t) : Q := rational (TDigest.processedWeight_ s).
Definition uwq (s : TDigest.t) : Q := rational (TDigest.unprocessedWeight_ s).
Definition total_weight (s : TDigest.t) : Q := (pwq s + uwq s)%Q.

Lemma wsum_app a b : (wsum (a ++ b) == wsum a + wsum b)%Q.
Proof.
  induction a as [| c a IH]; simpl; [lra|]. rewrite IH. lra.
Qed.

Lemma wsum_perm a b : Permutation a b -> (wsum a == wsum b)%Q.
Proof.
  induction 1; simpl; try lra.
Qed.

Lemma good_wq c : good c -> (0 < wq c)%Q.
Proof.
  intros G. destruct (good_inv c G) as (m & w & -> & Hw). exact Hw.
Qed.

Lemma wsum_nonneg l : Forall good l -> (0 <= wsum l)%Q.
Proof.
  induction 1 as [| c l G _ IH]; simpl; [lra|].
  pose proof (good_wq c G). lra.
Qed.

Lemma Centroid_add_weight cur c :
  good cur -> good c ->
  exists cur', Centroid.add cur c = Done cur' /\ good cur' /\
               (wq cur' == wq cur + wq c)%Q.
Proof.
  intros Gcur Gc.
  destruct (good_inv _ Gcur) as (m & W & -> & HW).
  destruct (good_inv _ Gc) as (mc & w & -> & Hw).
  unfold Centroid.add. cbn [Centroid.weight Centroid.mean].
  rewrite (positive_gtb _ Hw). cbn [CHECK bind].
  eexists. split; [reflexivity|].
  unfold good, wq.
  cbn [Centroid.weight Centroid.mean Vadd Vsub Vmul lift2 Vdiv].
  rewrite nonzero_eqb by lra. cbn [lift2]. rewrite !Qred_correct.
  split; lra.
Qed.

Section ClusterWeights.
Context {libm : Libm}.

(* the clustering loop returns on good centroids and loses no weight *)
Lemma cluster_wsum s pw l : forall st,
  Forall good l -> Forall good (TDigest.out st) -> TDigest.out st <> [] ->
  exists st', TDigest.cluster s pw l st = Done st' /\
              Forall good (TDigest.out st') /\ TDigest.out st' <> [] /\
              (wsum (TDigest.out st') == wsum (TDigest.out st) + wsum l)%Q.
Proof.
  induction l as [| c l IH]; intros st Gl Go Hne.
  - exists st. simpl. repeat split; auto. lra.
  - inversion Gl as [| ? ? Gc Gl']; subst.
    rewrite cluster_cons. destruct (_ <=? _)%V.
    + destruct (exists_last Hne) as (pre & cur & E).
      rewrite E in Go |- *. rewrite add_to_back_snoc.
      apply Forall_app in Go. destruct Go as [Gpre Gcur].
      inversion Gcur as [| ? ? Gcur' _]; subst.
      destruct (Centroid_add_weight cur c Gcur' Gc) as (cur' & -> & G' & Hw).
      cbn [bind].
      match goal with
      | |- context [TDigest.cluster s pw l ?st1] =>
          destruct (IH st1) as (st' & -> & Go' & Hne' & Hs)
      end; auto.
      * cbn [TDigest.out]. apply Forall_app. split; auto.
      * cbn [TDigest.out]. now destruct pre.
      * exists st'. repeat split; auto.
        rewrite Hs. cbn [TDigest.out]. rewrite !wsum_app. simpl. lra.
    + match goal with
      | |- context [TDigest.cluster s pw l ?st1] =>
          destruct (IH st1) as (st' & -> & Go' & Hne' & Hs)
      end; auto.
      * cbn [TDigest.out]. apply Forall_app. split; auto.
      * cbn [TDigest.out]. now destruct (TDigest.out st).
      * exists st'. repeat split; auto.
        rewrite Hs. cbn [TDigest.out]. rewrite wsum_app. simpl. lra.
Qed.

(* process() on a Dirty digest of good centroids, field by field *)
Lemma process_dirty s :
  Dirty s -> Forall good (TDigest.processed_ s) ->
  Forall good (TDigest.unprocessed_ s) ->
  TDigest.unprocessed_ s ++ TDigest.processed_ s <> [] ->
  exists first rest out front back,
    inplace_merge (std_sort (TDigest.unprocessed_ s)) (TDigest.processed_ s)
      = first :: rest /\
    hd_error out = Some front /\ at_index out (length out - 1) = Done back /\
    Forall good out /\
    (wsum out == wq first + wsum (TDigest.unprocessed_ s)
                 + wsum (TDigest.processed_ s))%Q /\
    TDigest.process s =
      Done {| TDigest.compression_ := TDigest.compression_ s;
              TDigest.min := std_min (TDigest.min s) (Centroid.mean front);
              TDigest.max := std_max (TDigest.max s) (Centroid.mean back);
              TDigest.maxProcessed_ := TDigest.maxProcessed_ s;
              TDigest.maxUnprocessed_ := TDigest.maxUnprocessed_ s;
              TDigest.processedWeight_ :=
                (TDigest.processedWeight_ s + TDigest.unprocessedWeight_ s)%V;
              TDigest.unprocessedWeight_ := of_Z 0;
              TDigest.processed_ := out;
              TDigest.unprocessed_ := [];
              TDigest.dirty_ := false |}.
Proof.
  intros D Gp Gu Hne. unfold TDigest.process. rewrite D. cbn [negb].
  set (all := inplace_merge (std_sort (TDigest.unprocessed_ s))
                            (TDigest.processed_ s)).
  assert (Pall : Permutation (TDigest.unprocessed_ s ++ TDigest.processed_ s) all).
  { unfold all. rewrite <- inplace_merge_perm.
    apply Permutation_app_tail, std_sort_perm. }
  assert (Gall : Forall good all).
  { rewrite <- Pall. apply Forall_app. auto. }
  destruct all as [| first rest] eqn:Eall.
  { apply Permutation_sym, Permutation_nil in Pall. contradiction. }
  cbn [at_index nth_error bind].
  inversion Gall as [| ? ? Gfirst Grest]; subst.
  match goal with
  | |- context [TDigest.cluster ?s1 ?pw ?l ?st] =>
      destruct (cluster_wsum s1 pw l st) as (st' & -> & Gout & Hout & Hs)
  end; auto.
  { cbn [TDigest.out]. now repeat constructor. }
  { discriminate. }
  cbn [bind TDigest.out] in *.
  destruct (exists_last Hout) as (pre & back & Eo).
  rewrite Eo, at_index_back.
  destruct (pre ++ [back]) as [| front tl] eqn:Ef; [now destruct pre|].
  cbn [at_index nth_error bind].
  exists first, rest, (front :: tl), front, back.
  split; [reflexivity|]. split; [reflexivity|].
  split; [rewrite <- Ef; apply at_index_back|].
  split; [now rewrite <- Eo|].
  split; [|reflexivity].
  rewrite <- Eo, Hs, <- (wsum_perm _ _ Pall), wsum_app. simpl. lra.
Qed.

End ClusterWeights.

(* how the two running sums relate to the lists *)
Definition Wt (s : TDigest.t) : Prop :=
  exists p u,
    TDigest.processedWeight_ s = Fin p /\
    TDigest.unprocessedWeight_ s = Fin u /\
    (u == wsum (TDigest.unprocessed_ s))%Q /\
    (0 <= p)%Q /\ (p <= wsum (TDigest.processed_ s))%Q /\
    (TDigest.processed_ s = [] -> (p == 0)%Q).

Lemma Wt_weights s :
  Wt s -> TDigest.processedWeight_ s = Fin (pwq s) /\
          TDigest.unprocessedWeight_ s = Fin (uwq s).
Proof.
  intros (p & u & Ep & Eu & _). unfold pwq, uwq. now rewrite Ep, Eu.
Qed.

(* the collecting loop of mergeProcessed adds the processedWeight_ of the
   digests whose processed list is not empty *)
Definition add_processedWeight (acc : Value) (td : TDigest.t) : Value :=
  if (0 <? length (TDigest.processed_ td))%nat
  then (acc + TDigest.processedWeight_ td)%V else acc.

Lemma collect_weight tdigests : forall total pq pw total' pq' pw',
  TDigest.collect tdigests total pq pw = Done (total', pq', pw') ->
  pw' = fold_left add_processedWeight tdigests pw.
Proof.
  induction tdigests as [| td rest IH]; intros total pq pw total' pq' pw' E.
  - simpl in E. now inversion E.
  - cbn [TDigest.collect] in E. cbn [fold_left]. unfold add_processedWeight at 2.
    destruct (0 <? length (TDigest.processed_ td))%nat.
    + destruct (pq_push _ pq) as [pq1 |]; cbn [bind] in E; [|discriminate].
      now apply IH in E.
    + now apply IH in E.
Qed.

Lemma fold_processedWeight tdigests : forall p,
  Forall Wt tdigests ->
  exists p', fold_left add_processedWeight tdigests (Fin p) = Fin p' /\
             (p' == p + fold_right (fun td a => pwq td + a) 0 tdigests)%Q.
Proof.
  induction tdigests as [| td rest IH]; intros p H.
  - exists p. simpl. split; [reflexivity | lra].
  - inversion H as [| ? ? Htd Hrest]; subst. cbn [fold_left fold_right].
    destruct Htd as (po & uo & Epo & _ & _ & _ & _ & Hempty).
    unfold add_processedWeight at 2, pwq at 1. rewrite Epo. cbn [rational].
    destruct (0 <? length (TDigest.processed_ td))%nat eqn:L.
    + cbn [Vadd lift2].
      destruct (IH (Qred (p + po)) Hrest) as (p' & -> & Hp').
      exists p'. split; [reflexivity|]. rewrite Hp', Qred_correct. lra.
    + apply Nat.ltb_ge in L.
      assert (TDigest.processed_ td = [])
        by (destruct (TDigest.processed_ td); [reflexivity | simpl in L; lia]).
      destruct (IH p Hrest) as (p' & -> & Hp').
      exists p'. split; [reflexivity|]. rewrite Hp', (Hempty H0). lra.
Qed.

Lemma mergeUnprocessed_weight tdigests s :
  TDigest.unprocessedWeight_ (TDigest.mergeUnprocessed tdigests s) =
  fold_left (fun a td => (a + TDigest.unprocessedWeight_ td)%V) tdigests
            (TDigest.unprocessedWeight_ s).
Proof.
  unfold TDigest.mergeUnprocessed.
  destruct tdigests as [| td0 tds0]; [reflexivity|].
  revert s. generalize (td0 :: tds0) as tds. clear td0 tds0.
  induction tds as [| td tds IH]; intros s; [reflexivity|].
  cbn [fold_left]. rewrite IH. reflexivity.
Qed.

Lemma fold_unprocessedWeight tdigests : forall u,
  Forall Wt tdigests ->
  exists u', fold_left (fun a td => (a + TDigest.unprocessedWeight_ td)%V)
                       tdigests (Fin u) = Fin u' /\
             (u' == u + fold_right (fun td a => uwq td + a) 0 tdigests)%Q /\
             (u' == u + wsum (flat_map TDigest.unprocessed_ tdigests))%Q.
Proof.
  induction tdigests as [| td rest IH]; intros u H.
  - exists u. simpl. repeat split; lra.
  - inversion H as [| ? ? Htd Hrest]; subst. cbn [fold_left fold_right flat_map].
    destruct Htd as (po & uo & _ & Euo & Hu & _).
    unfold uwq at 1. rewrite Euo. cbn [rational Vadd lift2].
    destruct (IH (Qred (u + uo)) Hrest) as (u' & -> & H1 & H2).
    exists u'. split; [reflexivity|].
    rewrite wsum_app, H1 at 1. rewrite H2, Qred_correct. split; lra.
Qed.

Section WeightInvariant.
Context {libm : Libm}.

Lemma new_Wt compression unmergedSize mergedSize :
  Wt (TDigest.new compression unmergedSize mergedSize).
Proof.
  exists 0%Q, 0%Q. simpl. repeat split; try reflexivity; try lra.
Qed.

Lemma process_Wt s s' :
  Inv0 s -> Wt s -> TDigest.process s = Done s' ->
  Wt s' /\ (total_weight s' == total_weight s)%Q.
Proof.
  intros ([Gp _] & Gu & _ & _ & Hne & _) W E.
  destruct (TDigest.dirty_ s) eqn:D.
  2:{ rewrite (process_clean s D) in E. inversion E; subst.
      split; [assumption | reflexivity]. }
  destruct (process_dirty s D Gp Gu)
    as (first & rest & out & front & back & Eall & Hf & Hb & Gout & Hs & E').
  { intros H. apply app_eq_nil in H. destruct H.
    destruct (Hne D); contradiction. }
  rewrite E' in E. inversion E; subst s'. clear E E'.
  destruct W as (p & u & Ep & Eu & Hu & Hp0 & Hp & _).
  pose proof (wsum_nonneg _ Gu) as Hun.
  assert (Gfirst : good first).
  { assert (Gall : Forall good (first :: rest)).
    { rewrite <- Eall, <- inplace_merge_perm. apply Forall_app. split; auto.
      now rewrite <- std_sort_perm. }
    now inversion Gall. }
  pose proof (good_wq _ Gfirst) as Hfirst.
  split.
  - exists (Qred (p + u)), (inject_Z 0).
    cbn [TDigest.processedWeight_ TDigest.unprocessedWeight_
         TDigest.processed_ TDigest.unprocessed_].
    rewrite Ep, Eu. cbn [Vadd lift2].
    repeat split; try reflexivity; rewrite ?Qred_correct.
    + lra.
    + rewrite Hs. lra.
    + intros ->. discriminate Hf.
  - unfold total_weight, pwq, uwq.
    cbn [TDigest.processedWeight_ TDigest.unprocessedWeight_].
    rewrite Ep, Eu. cbn [Vadd lift2 rational of_Z]. rewrite Qred_correct.
    unfold inject_Z. lra.
Qed.

Lemma processIfNecessary_Wt s s' :
  Inv0 s -> Wt s -> TDigest.processIfNecessary s = Done s' ->
  Wt s' /\ (total_weight s' == total_weight s)%Q.
Proof.
  intros I W E. unfold TDigest.processIfNecessary in E.
  destruct (_ || _).
  - now apply (process_Wt s).
  - inversion E; subst. split; [assumption | reflexivity].
Qed.

(* the digest add(x, 1) hands to processIfNecessary *)
Definition pushed (x : Value) (s : TDigest.t) : TDigest.t :=
  {| TDigest.compression_ := TDigest.compression_ s;
     TDigest.min := TDigest.min s; TDigest.max := TDigest.max s;
     TDigest.maxProcessed_ := TDigest.maxProcessed_ s;
     TDigest.maxUnprocessed_ := TDigest.maxUnprocessed_ s;
     TDigest.processedWeight_ := TDigest.processedWeight_ s;
     TDigest.unprocessedWeight_ := (TDigest.unprocessedWeight_ s + of_Z 1)%V;
     TDigest.processed_ := TDigest.processed_ s;
     TDigest.unprocessed_ := TDigest.unprocessed_ s ++ [Centroid.mk x (of_Z 1)];
     TDigest.dirty_ := true |}.

Lemma pushed_Inv0 x s : isnan x = false -> Inv0 s -> Inv0 (pushed x s).
Proof.
  intros N ([Gp Sp] & Gu & Fmin & Fmax & _ & _).
  unfold Inv0, tidy, Clean, Dirty, bounded, pushed. cbn.
  repeat split; auto.
  - apply Forall_app. split; [assumption|].
    repeat constructor. destruct x; [discriminate | reflexivity].
  - intros _. left. now destruct (TDigest.unprocessed_ s).
  - discriminate.
Qed.

Lemma pushed_Wt x s :
  Wt s -> Wt (pushed x s) /\
          (total_weight (pushed x s) == total_weight s + 1)%Q.
Proof.
  intros (p & u & Ep & Eu & Hu & Hp0 & Hp & He). split.
  - exists p, (Qred (u + inject_Z 1)). unfold pushed.
    cbn [TDigest.processedWeight_ TDigest.unprocessedWeight_
         TDigest.processed_ TDigest.unprocessed_].
    rewrite Eu. repeat split; auto.
    rewrite Qred_correct, wsum_app. simpl. unfold wq. simpl.
    unfold inject_Z. lra.
  - unfold total_weight, pwq, uwq, pushed.
    cbn [TDigest.processedWeight_ TDigest.unprocessedWeight_].
    rewrite Ep, Eu. cbn [Vadd lift2 rational of_Z]. rewrite Qred_correct.
    unfold inject_Z. lra.
Qed.

Lemma add_unfold x s :
  TDigest.add x s =
  if isnan x then Done s else TDigest.processIfNecessary (pushed x s).
Proof.
  unfold TDigest.add, TDigest.add_w. destruct (isnan x); [reflexivity|].
  fold (pushed x s). now destruct (TDigest.processIfNecessary (pushed x s)).
Qed.

Lemma add_Wt x s s' :
  Inv s -> Wt s -> TDigest.add x s = Done s' ->
  Wt s' /\
  (total_weight s' == total_weight s + (if isnan x then 0 else 1))%Q.
Proof.
  intros [I _] W E. rewrite add_unfold in E.
  destruct (isnan x) eqn:N.
  - inversion E; subst. split; [assumption | lra].
  - destruct (pushed_Wt x s W) as [W1 T1].
    destruct (processIfNecessary_Wt _ _ (pushed_Inv0 x s N I) W1 E) as [W' T'].
    split; [assumption|]. rewrite T', T1. reflexivity.
Qed.

Lemma add_returns x s : Inv s -> exists s', TDigest.add x s = Done s'.
Proof.
  intros [I _]. rewrite add_unfold. destruct (isnan x) eqn:N.
  - now exists s.
  - destruct (processIfNecessary_ok _ (pushed_Inv0 x s N I)) as (s' & E & _).
    now exists s'.
Qed.

End WeightInvariant.

Lemma mergeProcessed_weight others s s1 :
  TDigest.mergeProcessed others s = Done s1 ->
  TDigest.processedWeight_ s1 =
  fold_left add_processedWeight others (TDigest.processedWeight_ s).
Proof.
  unfold TDigest.mergeProcessed. intros E.
  destruct others as [| o others']; [now inversion E|].
  destruct (TDigest.collect _ _ _ _) as [[[total pq] pw] |] eqn:Ec;
    cbn [bind] in E; [|discriminate].
  apply collect_weight in Ec.
  destruct (pq_push _ pq) as [pq1 |]; cbn [bind] in E; [|discriminate].
  destruct (TDigest.merge_loop _ _ _) as [sorted |]; cbn [bind] in E;
    [|discriminate].
  inversion E; subst. reflexivity.
Qed.

Lemma sum_processed_bound others :
  Forall Wt others ->
  (0 <= fold_right (fun td a => pwq td + a) 0 others)%Q /\
  (fold_right (fun td a => pwq td + a) 0 others
   <= wsum (flat_map TDigest.processed_ others))%Q.
Proof.
  induction 1 as [| o others W _ IH]; simpl; [lra|].
  destruct W as (p & u & Ep & _ & _ & Hp0 & Hp & _).
  unfold pwq at 1 3. rewrite Ep. cbn [rational]. rewrite wsum_app. lra.
Qed.

(** ** The weight in front of the last processed centroid *)

Definition unit_weight (c : Centroid.t) : Prop := (wq c == 1)%Q.
Definition at_least_one (c : Centroid.t) : Prop := (1 <= wq c)%Q.

(* samples weigh 1, clusters at least that, and processedWeight_ leaves
   room for the whole of the last processed centroid *)
Definition Room (s : TDigest.t) : Prop :=
  Forall unit_weight (TDigest.unprocessed_ s) /\
  Forall at_least_one (TDigest.processed_ s) /\
  forall e, ends_with e (TDigest.processed_ s) ->
            (pwq s + wq e <= wsum (TDigest.processed_ s))%Q.

Lemma unit_at_least_one c : unit_weight c -> at_least_one c.
Proof. unfold unit_weight, at_least_one. intros H. rewrite H. discriminate. Qed.

Lemma good_weight c : good c -> Centroid.weight c = Fin (wq c).
Proof. intros G. destruct (good_inv c G) as (m & w & -> & _). reflexivity. Qed.

Lemma inplace_merge_nonempty a b : a ++ b <> [] -> inplace_merge a b <> [].
Proof.
  intros H E. apply H.
  apply Permutation_nil. rewrite <- E. symmetry. apply inplace_merge_perm.
Qed.

(* std::inplace_merge ends with the last element of the second run or with
   an element of the first *)
Lemma last_inplace_merge a : forall b e,
  ends_with e (inplace_merge a b) -> ends_with e b \/ In e a.
Proof.
  induction a as [| x a IHa]; intros b e H.
  - left. now destruct b.
  - induction b as [| y b IHb].
    + rewrite inplace_merge_nil_r in H. right. now apply ends_with_In.
    + rewrite inplace_merge_cons in H. destruct (CentroidComparator y x).
      * apply ends_with_tail in H.
        -- destruct (IHb H) as [Hb | Ha]; [left | now right].
           now apply ends_with_cons.
        -- apply inplace_merge_nonempty. discriminate.
      * apply ends_with_tail in H.
        -- destruct (IHa _ _ H) as [Hb | Ha]; [now left | right; now right].
        -- apply inplace_merge_nonempty. now destruct a.
Qed.

Lemma sum_processed_bound_last others td e :
  Forall Wt others -> In td others -> Room td ->
  ends_with e (TDigest.processed_ td) ->
  (fold_right (fun td a => pwq td + a) 0 others + wq e
   <= wsum (flat_map TDigest.processed_ others))%Q.
Proof.
  intros Wo. revert td e.
  induction Wo as [| o others W Wo IH]; intros td e Hin K He; [contradiction|].
  cbn [fold_right flat_map]. rewrite wsum_app. destruct Hin as [-> | Hin].
  - destruct (sum_processed_bound others Wo) as [_ H1].
    destruct K as (_ & _ & Hl). specialize (Hl e He). lra.
  - specialize (IH td e Hin K He).
    destruct W as (p & u & Ep & _ & _ & Hp0 & Hp & _).
    unfold pwq at 1. rewrite Ep. cbn [rational]. lra.
Qed.

Lemma wsum_snoc l c : (wsum (l ++ [c]) == wsum l + wq c)%Q.
Proof. rewrite wsum_app. simpl. lra. Qed.

Section LastCluster.
Context {libm : Libm}.
Hypothesis bounded_sine : sine_bounded libm.

(* the running weight is the weight of the list built so far, and no
   weight above [P] is within the limit *)
Definition tracked (P : Q) (st : TDigest.clustering) : Prop :=
  (exists ws, TDigest.wSoFar st = Fin ws /\ (ws == wsum (TDigest.out st))%Q) /\
  forall w, (P < w)%Q -> (Fin w <=? TDigest.wLimit st)%V = false.

(* when the weights add up to more than [P], the last centroid the loop
   visits opens a cluster of its own *)
Lemma cluster_last s (P : Q) l1 : forall st e,
  (0 <= P)%Q ->
  Forall good (l1 ++ [e]) -> Forall at_least_one (l1 ++ [e]) ->
  Forall good (TDigest.out st) -> Forall at_least_one (TDigest.out st) ->
  TDigest.out st <> [] -> tracked P st ->
  (P < wsum (TDigest.out st) + wsum (l1 ++ [e]))%Q ->
  exists st', TDigest.cluster s (Fin P) (l1 ++ [e]) st = Done st' /\
              ends_with e (TDigest.out st') /\
              Forall at_least_one (TDigest.out st') /\
              (wsum (TDigest.out st') ==
               wsum (TDigest.out st) + wsum (l1 ++ [e]))%Q.
Proof.
  induction l1 as [| c l1 IH];
    intros st e HP Gl Al Go Ao Hne [(ws & Ews & Hws) Hlim] Hw.
  - cbn [app] in *. inversion Gl as [| ? ? Ge _]; subst.
    change (wsum [e]) with (wq e + 0)%Q in *.
    rewrite cluster_opens_cluster.
    + cbn [TDigest.cluster]. eexists. split; [reflexivity|].
      cbn [TDigest.out].
      split; [now exists (TDigest.out st)|]. split.
      * apply Forall_app. split; assumption.
      * rewrite wsum_snoc. lra.
    + rewrite Ews, (good_weight e Ge). cbn [Vadd lift2]. apply Hlim.
      rewrite Qred_correct. lra.
  - cbn [app] in *.
    inversion Gl as [| ? ? Gc Gl']; inversion Al as [| ? ? Ac Al']; subst.
    assert (Hc : (0 < wq c)%Q) by now apply good_wq.
    change (wsum (c :: l1 ++ [e])) with (wq c + wsum (l1 ++ [e]))%Q in *.
    rewrite cluster_cons. destruct (_ <=? _)%V.
    + destruct (exists_last Hne) as (pre & cur & Eo).
      rewrite Eo in Go, Ao, Hws, Hw |- *. rewrite add_to_back_snoc.
      apply Forall_app in Go. destruct Go as [Gpre Gcur].
      apply Forall_app in Ao. destruct Ao as [Apre Acur].
      inversion Gcur as [| ? ? Gcur' _]; inversion Acur as [| ? ? Acur' _]; subst.
      destruct (Centroid_add_weight cur c Gcur' Gc) as (cur' & -> & G' & Hw').
      cbn [bind]. rewrite wsum_snoc in Hws, Hw.
      unfold at_least_one in Acur'.
      match goal with
      | |- context [TDigest.cluster s (Fin P) (l1 ++ [e]) ?st1] =>
          destruct (IH st1 e HP Gl' Al') as (st' & -> & He & Ast & Hs)
      end.
      * cbn [TDigest.out]. apply Forall_app. split; auto.
      * cbn [TDigest.out]. apply Forall_app. split; [assumption|].
        repeat constructor. unfold at_least_one. lra.
      * cbn [TDigest.out]. now destruct pre.
      * split; [|exact Hlim].
        cbn [TDigest.wSoFar TDigest.out]. rewrite Ews, (good_weight c Gc).
        cbn [Vadd lift2]. eexists. split; [reflexivity|].
        rewrite Qred_correct, wsum_snoc. lra.
      * cbn [TDigest.out]. rewrite wsum_snoc. lra.
      * exists st'. split; [reflexivity|]. split; [exact He|].
        split; [exact Ast|].
        rewrite Hs. cbn [TDigest.out]. rewrite !wsum_snoc. lra.
    + match goal with
      | |- context [TDigest.cluster s (Fin P) (l1 ++ [e]) ?st1] =>
          destruct (IH st1 e HP Gl' Al') as (st' & -> & He & Ast & Hs)
      end.
      * cbn [TDigest.out]. apply Forall_app. split; auto.
      * cbn [TDigest.out]. apply Forall_app. split; auto.
      * cbn [TDigest.out]. now destruct (TDigest.out st).
      * split.
        -- cbn [TDigest.wSoFar TDigest.out]. rewrite Ews, (good_weight c Gc).
           cbn [Vadd lift2]. eexists. split; [reflexivity|].
           rewrite Qred_correct, wsum_snoc. lra.
        -- intros w Hlt. cbn [TDigest.wLimit].
           now apply (limit_at_most_weight bounded_sine).
      * cbn [TDigest.out]. rewrite wsum_snoc. lra.
      * exists st'. split; [reflexivity|]. split; [exact He|].
        split; [exact Ast|].
        rewrite Hs. cbn [TDigest.out]. rewrite !wsum_snoc. lra.
Qed.

End LastCluster.

Section RoomInvariant.
Context {libm : Libm}.
Hypothesis bounded_sine : sine_bounded libm.

Lemma new_Room compression unmergedSize mergedSize :
  Room (TDigest.new compression unmergedSize mergedSize).
Proof.
  split; [constructor|]. split; [constructor|].
  intros e ([| x l] & E); discriminate E.
Qed.

Lemma process_Room s s' :
  Inv0 s -> Wt s -> Room s -> TDigest.process s = Done s' -> Room s'.
Proof.
  intros ([Gp _] & Gu & _ & _ & Hne & _) W (Ku & Kp & Kl) E.
  destruct (TDigest.dirty_ s) eqn:D.
  2:{ rewrite (process_clean s D) in E. inversion E; subst.
      split; [|split]; assumption. }
  destruct W as (p & u & Ep & Eu & Hu & Hp0 & Hp & _).
  unfold pwq in Kl. rewrite Ep in Kl. cbn [rational] in Kl.
  pose proof (wsum_nonneg _ Gu) as Hun.
  unfold TDigest.process in E. rewrite D, Ep, Eu in E.
  cbn [negb Vadd lift2] in E.
  remember (inplace_merge (std_sort (TDigest.unprocessed_ s))
                          (TDigest.processed_ s)) as all eqn:Eall.
  assert (Pall : Permutation (TDigest.unprocessed_ s ++ TDigest.processed_ s) all).
  { rewrite Eall, <- inplace_merge_perm.
    apply Permutation_app_tail, std_sort_perm. }
  assert (Gall : Forall good all).
  { rewrite <- Pall. apply Forall_app. auto. }
  assert (Aall : Forall at_least_one all).
  { rewrite <- Pall. apply Forall_app. split; [|assumption].
    eapply Forall_impl; [|exact Ku]. apply unit_at_least_one. }
  assert (Hall : all <> []).
  { intros ->. apply Permutation_sym, Permutation_nil, app_eq_nil in Pall.
    destruct Pall. destruct (Hne D); contradiction. }
  destruct (exists_last Hall) as (l1 & e & El).
  destruct all as [| first rest]; [contradiction|].
  cbn [at_index nth_error bind] in E.
  inversion Gall as [| ? ? Gfirst _]; inversion Aall as [| ? ? Afirst _]; subst.
  rewrite El in E, Gall, Aall, Pall.
  pose proof (wsum_perm _ _ Pall) as Hsum. rewrite wsum_app in Hsum.
  set (P := Qred (p + u)) in E.
  assert (EP : (P == p + u)%Q) by apply Qred_correct.
  match type of E with
  | context [TDigest.cluster ?s1 (Fin P) (l1 ++ [e]) ?st] =>
      destruct (cluster_last bounded_sine s1 P l1 st e)
        as (st' & Ec & He & Ast & Hs)
  end; auto.
  - lra.
  - cbn [TDigest.out]. now repeat constructor.
  - cbn [TDigest.out]. now repeat constructor.
  - discriminate.
  - split.
    + cbn [TDigest.wSoFar TDigest.out]. exists (wq first).
      split; [apply good_weight; assumption | simpl; lra].
    + intros w Hw. cbn [TDigest.wLimit].
      apply (limit_at_most_weight bounded_sine); [lra | assumption].
  - cbn [TDigest.out]. pose proof (good_wq _ Gfirst). simpl. lra.
  - rewrite Ec in E. cbn [bind TDigest.out] in E, Hs.
    assert (Hlast : ends_with e (inplace_merge (std_sort (TDigest.unprocessed_ s))
                                               (TDigest.processed_ s))).
    { rewrite <- Eall, El. now exists l1. }
    destruct He as (pre & Eo). rewrite Eo in E, Hs, Ast.
    rewrite at_index_back in E.
    destruct (pre ++ [e]) as [| front tl] eqn:Ef; [now destruct pre|].
    cbn [at_index nth_error bind] in E. inversion E; subst s'. clear E.
    unfold Room. cbn [TDigest.unprocessed_ TDigest.processed_].
    unfold pwq. cbn [TDigest.processedWeight_ rational].
    split; [constructor|]. split; [exact Ast|].
    intros e' He'.
    assert (e' = e).
    { eapply ends_with_unique; [exact He'|]. rewrite <- Ef. now exists pre. }
    subst e'. change (wsum [first]) with (wq first + 0)%Q in Hs.
    unfold at_least_one in Afirst.
    destruct (last_inplace_merge _ _ _ Hlast) as [Hp' | Hu'].
    + specialize (Kl e Hp'). lra.
    + assert (Hin : In e (TDigest.unprocessed_ s)).
      { apply (Permutation_in e (Permutation_sym (std_sort_perm _))). exact Hu'. }
      rewrite Forall_forall in Ku. specialize (Ku e Hin).
      unfold unit_weight in Ku. lra.
Qed.

Lemma processIfNecessary_Room s s' :
  Inv0 s -> Wt s -> Room s -> TDigest.processIfNecessary s = Done s' -> Room s'.
Proof.
  intros I W K E. unfold TDigest.processIfNecessary in E.
  destruct (_ || _).
  - now apply (process_Room s s' I W K).
  - now inversion E; subst.
Qed.

Lemma pushed_Room x s : Room s -> Room (pushed x s).
Proof.
  intros (Ku & Kp & Kl). unfold Room, pushed, pwq.
  cbn [TDigest.unprocessed_ TDigest.processed_ TDigest.processedWeight_].
  split; [|split; assumption].
  apply Forall_app. split; [assumption|]. repeat constructor.
Qed.

Lemma add_Room x s s' :
  Inv s -> Wt s -> Room s -> TDigest.add x s = Done s' -> Room s'.
Proof.
  intros [I _] W K E. rewrite add_unfold in E.
  destruct (isnan x) eqn:N.
  - now inversion E; subst.
  - destruct (pushed_Wt x s W) as [W1 _].
    exact (processIfNecessary_Room (pushed x s) s' (pushed_Inv0 x s N I) W1 (pushed_Room x s K) E).
Qed.

End RoomInvariant.

Section MergeWeights.
Context {libm : Libm}.

(* the digest add(others) hands to processIfNecessary *)
Lemma add_all_merged others s :
  others <> [] -> TDigest.processed_ s <> [] ->
  Inv s -> Wt s -> Forall Inv others -> Forall Wt others ->
  exists s3,
    TDigest.add_all others s = TDigest.processIfNecessary s3 /\
    Inv0 s3 /\ Wt s3 /\
    (total_weight s3 ==
     total_weight s + fold_right (fun td a => total_weight td + a) 0 others)%Q /\
    TDigest.processed_ s3 <> [] /\
    TDigest.min s3 = TDigest.min s /\ TDigest.max s3 = TDigest.max s /\
    (Room s -> Forall Room others -> Room s3).
Proof.
  intros Hne Hp [H0 _] W Io Wo. unfold TDigest.add_all.
  destruct (0 <? length others)%nat eqn:L.
  2:{ apply Nat.ltb_ge in L. destruct others; [contradiction | simpl in L; lia]. }
  destruct H0 as ([Gp Sp] & Gu & Fmin & Fmax & _ & _).
  destruct (mergeProcessed_ok others s) as (sorted & pw & E1 & Ssorted & P); auto.
  { split; assumption. }
  { eapply Forall_impl; [|exact Io]. intros o [I _]. apply I. }
  pose proof (mergeProcessed_weight _ _ _ E1) as Epw.
  cbn [TDigest.processedWeight_] in Epw.
  rewrite E1. cbn [bind].
  match goal with
  | |- context [TDigest.mergeUnprocessed others ?s1] =>
      destruct (mergeUnprocessed_fields others s1)
        as (F1 & F2 & F3 & F4 & F5 & F6 & F7 & F8);
      pose proof (mergeUnprocessed_weight others s1) as F9
  end.
  cbn [TDigest.processed_ TDigest.unprocessed_ TDigest.min TDigest.max
       TDigest.dirty_ TDigest.maxProcessed_ TDigest.maxUnprocessed_
       TDigest.processedWeight_ TDigest.unprocessedWeight_]
    in F1, F2, F3, F4, F5, F6, F7, F8, F9.
  destruct W as (p & u & Epq & Euq & Hu & Hp0 & Hpp & _).
  rewrite Epq in Epw.
  destruct (fold_processedWeight others p Wo) as (p' & Ep' & Hp').
  destruct (fold_unprocessedWeight others u Wo) as (u' & Eu' & Hu1 & Hu2).
  destruct (sum_processed_bound others Wo) as [Hs0 Hs1].
  rewrite Ep' in Epw. subst pw.
  assert (Hsorted : sorted <> []).
  { intros ->. apply Permutation_sym, Permutation_nil in P.
    apply app_eq_nil in P. destruct P as [_ P]. contradiction. }
  eexists. split; [reflexivity|]. split; [|split; [|split]].
  4:{ cbn [TDigest.processed_ TDigest.min TDigest.max].
      rewrite F2, F3, F4.
      split; [assumption|]. split; [reflexivity|]. split; [reflexivity|].
      intros (Ku & Kp & Kl) Ko. unfold Room, pwq.
      cbn [TDigest.processed_ TDigest.unprocessed_ TDigest.processedWeight_].
      rewrite F1, F7. cbn [rational].
      unfold pwq in Kl. rewrite Epq in Kl. cbn [rational] in Kl.
      split; [|split].
      - apply Forall_app. split; [assumption|].
        apply Forall_flat_map. eapply Forall_impl; [|exact Ko].
        intros o Ho. apply Ho.
      - rewrite <- P. apply Forall_app. split; [|assumption].
        apply Forall_flat_map. eapply Forall_impl; [|exact Ko].
        intros o Ho. apply Ho.
      - intros e He.
        pose proof (wsum_perm _ _ P) as Hsum. rewrite wsum_app in Hsum.
        destruct (mergeProcessed_last others s _ e Hne Hp E1 He)
          as [H | (td & Hin & H)].
        + specialize (Kl e H). lra.
        + rewrite Forall_forall in Ko.
          pose proof (sum_processed_bound_last others td e Wo Hin (Ko td Hin) H).
          lra. }
  - unfold Inv0, tidy, Clean, Dirty, bounded.
    cbn [TDigest.processed_ TDigest.unprocessed_ TDigest.min TDigest.max
         TDigest.dirty_].
    rewrite F1, F2, F3, F4. repeat split; auto.
    + rewrite <- P. apply Forall_app. split; [|assumption].
      apply Forall_flat_map. eapply Forall_impl; [|exact Io].
      intros o [I _]. apply I.
    + apply Forall_app. split; [assumption|].
      apply Forall_flat_map. eapply Forall_impl; [|exact Io].
      intros o [I _]. apply I.
    + discriminate.
  - exists p', u'.
    cbn [TDigest.processedWeight_ TDigest.unprocessedWeight_
         TDigest.processed_ TDigest.unprocessed_].
    rewrite F1, F2, F7, F9, Euq, Eu'. repeat split; auto.
    + rewrite wsum_app, Hu2. lra.
    + lra.
    + rewrite <- (wsum_perm _ _ P), wsum_app. lra.
    + intros; contradiction.
  - unfold total_weight at 1 2, pwq at 1 2, uwq at 1 2.
    cbn [TDigest.processedWeight_ TDigest.unprocessedWeight_].
    rewrite F7, F9, Epq, Euq, Eu'. cbn [rational]. rewrite Hp', Hu1.
    clear. induction others as [| o os IH]; simpl; [lra|].
    unfold total_weight at 1. lra.
Qed.

Lemma add_all_returns others s :
  TDigest.processed_ s <> [] ->
  Inv s -> Wt s -> Forall Inv others -> Forall Wt others ->
  exists s', TDigest.add_all others s = Done s'.
Proof.
  intros Hp I W Io Wo.
  destruct others as [| o os] eqn:Eo; [now exists s|].
  rewrite <- Eo in *.
  destruct (add_all_merged others s) as (s3 & -> & I3 & _); auto.
  { rewrite Eo. discriminate. }
  destruct (processIfNecessary_ok s3 I3) as (s' & E & _). now exists s'.
Qed.

Lemma add_all_Wt others s s' :
  Inv s -> Wt s -> Forall Inv others -> Forall Wt others ->
  TDigest.add_all others s = Done s' ->
  Wt s' /\
  (total_weight s' ==
   total_weight s + fold_right (fun td a => total_weight td + a) 0 others)%Q.
Proof.
  intros I W Io Wo E.
  destruct others as [| o os] eqn:Eo.
  { inversion E; subst. simpl. split; [assumption | lra]. }
  rewrite <- Eo in *.
  assert (Hne : others <> []) by (rewrite Eo; discriminate).
  destruct (TDigest.processed_ s) as [| p0 ps] eqn:Ep.
  { unfold TDigest.add_all in E. rewrite Eo in E at 1.
    cbn [length Nat.ltb Nat.leb] in E.
    rewrite mergeProcessed_empty_receiver in E by assumption. discriminate. }
  destruct (add_all_merged others s) as (s3 & E3 & I3 & W3 & T3 & _); auto.
  { rewrite Ep. discriminate. }
  rewrite E3 in E.
  destruct (processIfNecessary_Wt s3 s' I3 W3 E) as [W' T'].
  split; [assumption|]. now rewrite T', T3.
Qed.

Lemma reachable_Wt s : reachable s -> Wt s.
Proof.
  induction 1 as [c u m | s x s' R IH E | s others s' R IH Ro IHo E
                  | s s' R IH E | s q s' r R IH E | s x s' r R IH E].
  - apply new_Wt.
  - exact (proj1 (add_Wt x s s' (reachable_Inv s R) IH E)).
  - refine (proj1 (add_all_Wt others s s' (reachable_Inv s R) IH _ _ E)).
    + apply Forall_forall. intros o Ho. apply reachable_Inv. now apply Ro.
    + apply Forall_forall. exact IHo.
  - rewrite (compress_changes_nothing libm s R) in E. now inversion E; subst.
  - unfold TDigest.quantile in E.
    destruct (TDigest.process s) as [s1 |] eqn:E1; cbn [bind] in E; [|discriminate].
    destruct (TDigest.quantileProcessed q s1); cbn [bind] in E; [|discriminate].
    inversion E; subst.
    exact (proj1 (process_Wt s s' (proj1 (reachable_Inv s R)) IH E1)).
  - unfold TDigest.cdf in E.
    destruct (TDigest.process s) as [s1 |] eqn:E1; cbn [bind] in E; [|discriminate].
    destruct (TDigest.cdfProcessed x s1); cbn [bind] in E; [|discriminate].
    inversion E; subst.
    exact (proj1 (process_Wt s s' (proj1 (reachable_Inv s R)) IH E1)).
Qed.

End MergeWeights.

(** ** quantileProcessed on a compressed digest *)

Lemma weightedAverage_within (lo hi x1 x2 : Q) (w1 w2 : Value) :
  (lo <= x1 <= hi)%Q -> (lo <= x2 <= hi)%Q ->
  exists r, TDigest.weightedAverage (Fin x1) w1 (Fin x2) w2 = Done (Fin r) /\
            (lo <= r <= hi)%Q.
Proof.
  intros H1 H2. unfold TDigest.weightedAverage.
  destruct (Fin x1 <=? Fin x2)%V eqn:E.
  - apply Qle_bool_iff in E.
    destruct (weightedAverageSorted_between x1 x2 w1 w2 E) as (r & -> & Hr).
    exists r. split; [reflexivity | lra].
  - assert (L : (x2 <= x1)%Q).
    { destruct (Qlt_le_dec x1 x2) as [L | L]; [|assumption].
      apply Qlt_le_weak, Qle_bool_iff in L. cbn in E. congruence. }
    destruct (weightedAverageSorted_between x2 x1 w2 w1 L) as (r & -> & Hr).
    exists r. split; [reflexivity | lra].
Qed.

(* the half-weight steps between neighbouring centroids *)
Fixpoint pairs_sum (l : list Centroid.t) : Q :=
  match l with
  | c :: (c' :: _) as rest => ((wq c + wq c') / 2 + pairs_sum rest)%Q
  | _ => 0%Q
  end.

Lemma last_cons_default {A} (l : list A) : forall a d,
  last (a :: l) d = last l a.
Proof.
  induction l as [| b l IH]; intros a d; [reflexivity|].
  change (last (a :: b :: l) d) with (last (b :: l) d).
  now rewrite (IH b d), (IH b a).
Qed.

Lemma pairs_sum_total c l :
  (wq c / 2 + pairs_sum (c :: l) == wsum (c :: l) - wq (last l c) / 2)%Q.
Proof.
  revert c. induction l as [| c' l IH]; intros c.
  - simpl. field.
  - change (pairs_sum (c :: c' :: l))
      with ((wq c + wq c') / 2 + pairs_sum (c' :: l))%Q.
    change (wsum (c :: c' :: l)) with (wq c + wsum (c' :: l))%Q.
    specialize (IH c').
    rewrite last_cons_default.
    unfold Qdiv in *. change (/ 2)%Q with (1 # 2)%Q in *. lra.
Qed.

Lemma skipn_two {A} (l : list A) i c c' rest :
  skipn i l = c :: c' :: rest ->
  nth_error l i = Some c /\ nth_error l (i + 1) = Some c' /\
  skipn (S i) l = c' :: rest.
Proof.
  revert l. induction i as [| i IH]; intros l H.
  - simpl in H. subst. auto.
  - destruct l as [| a l]; [discriminate|]. rewrite skipn_cons in H.
    destruct (IH l H) as (H1 & H2 & H3). auto.
Qed.

Section QuantileRange.
Variable s : TDigest.t.
Variables lo hi x : Q.
Hypothesis all_good : Forall good (TDigest.processed_ s).
Hypothesis all_within :
  Forall (fun c => Vle (Fin lo) (Centroid.mean c) /\
                   Vle (Centroid.mean c) (Fin hi)) (TDigest.processed_ s).

Lemma suffix_facts i c rest :
  skipn i (TDigest.processed_ s) = c :: rest ->
  exists m w, c = Centroid.mk (Fin m) (Fin w) /\ (0 < w)%Q /\
              (lo <= m <= hi)%Q.
Proof.
  intros H.
  assert (Hin : In c (TDigest.processed_ s)).
  { rewrite <- (firstn_skipn i). apply in_or_app. right. rewrite H. now left. }
  rewrite Forall_forall in all_good, all_within.
  destruct (good_inv c (all_good c Hin)) as (m & w & -> & Hw).
  destruct (all_within _ Hin) as [H1 H2]. simpl in H1, H2.
  exists m, w. auto.
Qed.

(* the walk over the pairs returns; a bracket gives a value between lo and
   hi, and without a bracket the index is beyond all half-weight steps *)
Lemma quantile_walk_range : forall rest c i a,
  skipn i (TDigest.processed_ s) = c :: rest -> (a <= x)%Q ->
  exists found,
    TDigest.quantile_walk s (Fin x) (length rest) i (Fin a) = Done found /\
    match found with
    | Some r => exists rq, r = Fin rq /\ (lo <= rq <= hi)%Q
    | None => (a + pairs_sum (c :: rest) <= x)%Q
    end.
Proof.
  induction rest as [| c' rest IH]; intros c i a Hs Ha.
  - exists None. simpl. split; [reflexivity | lra].
  - destruct (skipn_two _ _ _ _ _ Hs) as (N0 & N1 & Hs').
    destruct (suffix_facts i c (c' :: rest) Hs) as (m & w & -> & Hw & Hm).
    destruct (suffix_facts (S i) c' rest Hs') as (m' & w' & -> & Hw' & Hm').
    cbn [length TDigest.quantile_walk].
    unfold TDigest.weight, TDigest.mean, at_index. rewrite N0, N1.
    cbn [bind Centroid.weight Centroid.mean Vadd Vdiv lift2 of_Z].
    change (Qeq_bool (inject_Z 2) 0%Q) with false. cbv iota.
    change (inject_Z 2) with 2%Q.
    set (dw := Qred (Qred (w + w') / 2)).
    assert (Edw : (dw == (w + w') / 2)%Q)
      by (unfold dw; now rewrite !Qred_correct).
    destruct (Fin (Qred (a + dw)) >? Fin x)%V eqn:C.
    + destruct (weightedAverage_within lo hi m m'
                  (Fin (Qred (a + dw)) - Fin x)%V (Fin x - Fin a)%V Hm Hm')
        as (r & Er & Hr).
      rewrite Er. cbn [bind]. exists (Some (Fin r)).
      split; [reflexivity|]. now exists r.
    + assert (Hle : (a + dw <= x)%Q).
      { unfold Vgtb, Vltb in C. apply negb_false_iff, Qle_bool_iff in C.
        now rewrite Qred_correct in C. }
      destruct (IH _ (S i) (Qred (a + dw)) Hs') as (found & E & Hf).
      { now rewrite Qred_correct. }
      exists found. split; [exact E|].
      destruct found; [exact Hf|].
      rewrite Qred_correct in Hf.
      change (pairs_sum (Centroid.mk (Fin m) (Fin w)
                         :: Centroid.mk (Fin m') (Fin w') :: rest))
        with ((w + w') / 2 + pairs_sum (Centroid.mk (Fin m') (Fin w') :: rest))%Q.
      lra.
Qed.

End QuantileRange.

Lemma positive_nonzero w : (0 < w)%Q -> Qeq_bool w 0%Q = false.
Proof.
  intros H. destruct (Qeq_bool w 0%Q) eqn:E; [|reflexivity].
  apply Qeq_bool_iff in E. lra.
Qed.

(* inside the first half-weight the result goes from min to mean(0) *)
Lemma first_segment_range (lo m0 w0 x : Q) :
  (0 < w0)%Q -> (lo <= m0)%Q -> (0 <= x)%Q -> (x <= w0 / 2)%Q ->
  exists r, (Fin lo + of_Z 2 * Fin x / Fin w0 * (Fin m0 - Fin lo))%V = Fin r /\
            (lo <= r <= m0)%Q.
Proof.
  intros Hw Hm Hx0 Hx.
  unfold Vadd, Vsub, Vmul, Vdiv, lift2, of_Z.
  rewrite (positive_nonzero w0 Hw).
  eexists. split; [reflexivity|]. rewrite !Qred_correct.
  change (inject_Z 2) with 2%Q.
  set (t := (2 * x / w0)%Q).
  assert (Et : (t * w0 == 2 * x)%Q) by (unfold t; field; lra).
  assert (Hx' : (2 * x <= w0)%Q).
  { assert (E : (w0 / 2 * 2 == w0)%Q) by field. lra. }
  assert (0 <= t)%Q.
  { destruct (Qlt_le_dec t 0) as [L | L]; [|assumption]. exfalso. nra. }
  assert (t <= 1)%Q.
  { destruct (Qlt_le_dec 1 t) as [L | L]; [|assumption]. exfalso. nra. }
  split; nra.
Qed.

Lemma quantileProcessed_range s (lo hi p qq : Q) :
  Forall good (TDigest.processed_ s) ->
  Forall (fun c => Vle (Fin lo) (Centroid.mean c) /\
                   Vle (Centroid.mean c) (Fin hi)) (TDigest.processed_ s) ->
  TDigest.min s = Fin lo -> TDigest.max s = Fin hi ->
  TDigest.processedWeight_ s = Fin p ->
  (0 <= p)%Q -> (p <= wsum (TDigest.processed_ s))%Q ->
  (0 <= qq <= 1)%Q -> TDigest.processed_ s <> [] ->
  exists r, TDigest.quantileProcessed (Fin qq) s = Done (Fin r, true) /\
            (lo <= r <= hi)%Q.
Proof.
  intros Hg Hb Emin Emax Ep Hp0 Hp [Hq0 Hq1] Hne.
  unfold TDigest.quantileProcessed.
  assert (Hq : (Fin qq <? of_Z 0)%V || (Fin qq >? of_Z 1)%V = false).
  { unfold Vgtb, Vltb, of_Z. apply orb_false_iff.
    split; apply negb_false_iff, Qle_bool_iff; unfold inject_Z; lra. }
  rewrite Hq.
  destruct (TDigest.processed_ s) as [| c0 [| c1 l]] eqn:El; [contradiction| |].
  - inversion Hg as [| ? ? G0 _]; subst.
    inversion Hb as [| ? ? [B1 B2] _]; subst.
    destruct (good_inv c0 G0) as (m & w & -> & _). simpl in B1, B2.
    exists m. split; [reflexivity | lra].
  - rewrite <- El in Hg, Hb, Hp.
    destruct (suffix_facts s lo hi Hg Hb 0 c0 (c1 :: l)) as (m0 & w0 & -> & Hw0 & Hm0);
      [now rewrite El|].
    rewrite Ep, Emin, Emax.
    unfold TDigest.weight at 1, TDigest.mean at 1. rewrite El.
    cbn [at_index nth_error bind Centroid.weight Centroid.mean].
    change (Fin qq * Fin p)%V with (Fin (Qred (qq * p))).
    set (x := Qred (qq * p)).
    assert (Ex : (x == qq * p)%Q) by (unfold x; apply Qred_correct).
    assert (Hx0 : (0 <= x)%Q) by (rewrite Ex; nra).
    assert (Hxp : (x <= p)%Q) by (rewrite Ex; nra).
    assert (Eh : (Fin w0 / of_Z 2)%V = Fin (Qred (w0 / 2))) by reflexivity.
    rewrite Eh.
    destruct (Fin x <? Fin (Qred (w0 / 2)))%V eqn:C.
    + rewrite (positive_gtb w0 Hw0). cbn [CHECK bind].
      assert (Hx : (x <= w0 / 2)%Q).
      { unfold Vltb in C. apply negb_true_iff in C.
        destruct (Qlt_le_dec (w0 / 2) x) as [L | L]; [|assumption].
        apply Qlt_le_weak in L. rewrite <- (Qred_correct (w0 / 2)) in L.
        apply Qle_bool_iff in L. congruence. }
      destruct (first_segment_range lo m0 w0 x Hw0 (proj1 Hm0) Hx0 Hx)
        as (r & -> & Hr).
      exists r. split; [reflexivity | lra].
    + assert (Ha : (Qred (w0 / 2) <= x)%Q).
      { unfold Vltb in C. now apply negb_false_iff, Qle_bool_iff in C. }
      replace (length (Centroid.mk (Fin m0) (Fin w0) :: c1 :: l) - 1)
        with (length (c1 :: l)) by (simpl; lia).
      destruct (quantile_walk_range s lo hi x Hg Hb (c1 :: l)
                  (Centroid.mk (Fin m0) (Fin w0)) 0 (Qred (w0 / 2)))
        as (found & -> & Hf); [now rewrite El | exact Ha |].
      cbn [bind]. destruct found as [r |].
      { destruct Hf as (rq & -> & Hr). now exists rq. }
      rewrite Qred_correct in Hf.
      pose proof (pairs_sum_total (Centroid.mk (Fin m0) (Fin w0)) (c1 :: l)) as Ht.
      change (wq (Centroid.mk (Fin m0) (Fin w0))) with w0 in Ht.
      assert (Hlast : exists pre back, TDigest.processed_ s = pre ++ [back]).
      { destruct (@exists_last _ (TDigest.processed_ s)) as (pre & back & E);
          [rewrite El; discriminate | eauto]. }
      destruct Hlast as (pre & back & Eb).
      assert (Elast : last (c1 :: l) (Centroid.mk (Fin m0) (Fin w0)) = back).
      { rewrite <- (last_cons_default (c1 :: l) _ back), <- El, Eb.
        apply last_last. }
      rewrite Elast in Ht.
      assert (Hat : at_index (TDigest.processed_ s) (length (c1 :: l)) = Done back).
      { replace (length (c1 :: l))
          with (length (TDigest.processed_ s) - 1) by (rewrite El; simpl; lia).
        rewrite Eb. apply at_index_back. }
      destruct (suffix_facts s lo hi Hg Hb (length pre) back [])
        as (mb & wb & -> & Hwb & Hmb).
      { rewrite Eb. rewrite skipn_app, skipn_all, Nat.sub_diag. reflexivity. }
      change (wq (Centroid.mk (Fin mb) (Fin wb))) with wb in Ht.
      assert (C1 : (Fin x <=? Fin p)%V = true) by now apply Qle_bool_iff.
      rewrite C1. cbn [CHECK bind].
      unfold TDigest.weight, TDigest.mean. rewrite Hat.
      cbn [bind Centroid.weight Centroid.mean].
      assert (C2 : (Fin x >=? Fin p - Fin wb / of_Z 2)%V = true).
      { unfold Vgeb, Vsub, Vdiv, lift2, Vleb, of_Z.
        change (Qeq_bool (inject_Z 2) 0%Q) with false. cbv iota.
        change (inject_Z 2) with 2%Q.
        apply Qle_bool_iff. rewrite !Qred_correct. rewrite El in Hp.
        unfold Qdiv in *. change (/ 2)%Q with (1 # 2)%Q in *. lra. }
      rewrite C2. cbn [CHECK bind].
      destruct (weightedAverage_within lo hi mb hi
                  (Fin x - Fin p - Fin wb / of_Z 2)%V
                  (Fin wb / of_Z 2 - (Fin x - Fin p - Fin wb / of_Z 2))%V)
        as (r & -> & Hr); [lra | lra |].
      cbn [bind]. now exists r.
Qed.

(** ** quantile and cdf on reachable digests *)

Lemma valid_q_passes (qq : Q) :
  (0 <= qq <= 1)%Q -> (Fin qq <? of_Z 0)%V || (Fin qq >? of_Z 1)%V = false.
Proof.
  intros [H0 H1]. unfold Vgtb, Vltb, of_Z. apply orb_false_iff.
  split; apply negb_false_iff, Qle_bool_iff; unfold inject_Z; lra.
Qed.

Lemma Vltb_Fin (a b : Q) : (Fin a <? Fin b)%V = true <-> (a < b)%Q.
Proof.
  unfold Vltb. rewrite negb_true_iff. split.
  - intros H. apply Qnot_le_lt. intros L. apply Qle_bool_iff in L. congruence.
  - intros H. destruct (Qle_bool b a) eqn:E; [|reflexivity].
    apply Qle_bool_iff in E. lra.
Qed.

Lemma Vleb_Fin (a b : Q) : (Fin a <=? Fin b)%V = true <-> (a <= b)%Q.
Proof. apply Qle_bool_iff. Qed.

Lemma Vltb_Fin_false (a b : Q) : (Fin a <? Fin b)%V = false <-> (b <= a)%Q.
Proof. unfold Vltb. rewrite negb_false_iff. apply Qle_bool_iff. Qed.

Lemma Vleb_Fin_false (a b : Q) : (Fin a <=? Fin b)%V = false <-> (b < a)%Q.
Proof.
  split.
  - intros H. apply Qnot_le_lt. intros L. apply Vleb_Fin in L. congruence.
  - intros H. destruct (Fin a <=? Fin b)%V eqn:E; [|reflexivity].
    apply Vleb_Fin in E. lra.
Qed.

(* what the compress step of a query leaves on a reachable digest *)
Lemma query_digest (libm : Libm) (s : TDigest.t) :
  reachable s ->
  exists s', TDigest.process s = Done s' /\ Inv0 s' /\ Clean s' /\ Wt s' /\
             (total_weight s' == total_weight s)%Q.
Proof.
  intros R. pose proof (reachable_Inv s R) as [I _].
  pose proof (reachable_Wt s R) as W.
  destruct (process_ok s I) as (s' & E & I' & C' & _).
  destruct (process_Wt s s' I W E) as [W' T'].
  exists s'. auto.
Qed.

(** X7: on every reachable digest the compress step of quantile(q)
    returns, and when the processed centroids it leaves have finite means,
    quantile(q) with 0 <= q <= 1 returns too: the CHECKs of
    quantileProcessed and of weightedAverageSorted pass and no index
    leaves the vector.  It reports failure exactly when no centroid is
    left. *)
Theorem quantile_returns_on_finite_means (libm : Libm)
        (s : TDigest.t) (qq : Q) :
  reachable s -> (0 <= qq <= 1)%Q ->
  exists s', TDigest.process s = Done s' /\
    (Forall finite_mean (TDigest.processed_ s') ->
     exists v b, TDigest.quantile (Fin qq) s = Done (s', (v, b)) /\
                 (b = false <-> TDigest.processed_ s' = [])).
Proof.
  intros R Hq.
  destruct (query_digest libm s R) as (s' & E & I' & C' & W' & _).
  exists s'. split; [exact E|]. intros _.
  unfold TDigest.quantile. rewrite E. cbn [bind].
  destruct (TDigest.processed_ s') as [| c0 l] eqn:Ep.
  - exists (of_Z 0), false. split; [|tauto].
    unfold TDigest.quantileProcessed. rewrite (valid_q_passes qq Hq), Ep.
    reflexivity.
  - destruct I' as ([Gp _] & _ & Fmin & Fmax & _ & Hb).
    specialize (Hb C'). unfold bounded in Hb.
    destruct W' as (p & u & Epw & _ & _ & Hp0 & Hp & _).
    destruct (TDigest.min s') as [| lo] eqn:Emin; [discriminate|].
    destruct (TDigest.max s') as [| hi] eqn:Emax; [discriminate|].
    destruct (quantileProcessed_range s' lo hi p qq) as (r & Er & Hr); auto.
    + rewrite Ep. discriminate.
    + exists (Fin r), true. rewrite Er. split; [reflexivity|].
      split; discriminate.
Qed.

Lemma quantile_returns_on_finite_means_witness :
  exists s' v b,
    TDigest.process (libm := rational_libm) merged_digest = Done s' /\
    TDigest.quantile (libm := rational_libm) (Fin (3 # 4)) merged_digest
      = Done (s', (v, b)) /\
    (b = false <-> TDigest.processed_ s' = []).
Proof.
  destruct (quantile_returns_on_finite_means rational_libm merged_digest
              (3 # 4) merged_digest_reachable) as (s' & E & H).
  { split; discriminate. }
  destruct H as (v & b & Hq & Hb).
  { vm_compute in E. injection E as <-.
    repeat constructor; eexists; reflexivity. }
  exists s', v, b. auto.
Defined.

(** X8: on every reachable digest the compress step of cdf(x) returns.
    When the processed centroids it leaves have finite means, cdf(x) with
    a finite x returns too and reports failure exactly when no centroid is
    left.  When centroids are left and min <= max are finite, cdf(x) is 0
    for every x below min and 1 for every x above max. *)
Theorem cdf_returns_on_finite_means (libm : Libm) (s : TDigest.t) :
  reachable s ->
  exists s', TDigest.process s = Done s' /\
    (Forall finite_mean (TDigest.processed_ s') ->
     forall x : Q, exists r b,
        TDigest.cdf (Fin x) s = Done (s', (r, b)) /\
        (b = false <-> TDigest.processed_ s' = [])) /\
    (forall lo hi : Q,
       TDigest.processed_ s' <> [] ->
       TDigest.min s' = Fin lo -> TDigest.max s' = Fin hi -> (lo <= hi)%Q ->
       (forall x : Q, (x < lo)%Q ->
          TDigest.cdf (Fin x) s = Done (s', (of_Z 0, true))) /\
       (forall x : Q, (hi < x)%Q ->
          TDigest.cdf (Fin x) s = Done (s', (of_Z 1, true)))).
Proof.
  intros R.
  destruct (query_digest libm s R) as (s' & E & _ & _ & _ & _).
  exists s'. split; [exact E|].
  unfold TDigest.cdf. rewrite E. cbn [bind]. split.
  - intros Hfin x.
    destruct (cdfProcessed_total s' x Hfin) as (r & b & -> & Hrb).
    exists r, b. split; [reflexivity | exact Hrb].
  - intros lo hi Hne Emin Emax L.
    destruct (TDigest.processed_ s') as [| c0 l] eqn:Ep; [contradiction|].
    unfold TDigest.cdfProcessed. rewrite Ep, Emin, Emax. split.
    + intros x Hx. destruct l.
      * rewrite (proj2 (Vltb_Fin x lo) Hx). reflexivity.
      * rewrite (proj2 (Vleb_Fin x lo)) by lra. reflexivity.
    + intros x Hx. destruct l.
      * rewrite (proj2 (Vltb_Fin_false x lo)) by lra.
        unfold Vgtb. rewrite (proj2 (Vltb_Fin hi x) Hx). reflexivity.
      * rewrite (proj2 (Vleb_Fin_false x lo)) by lra.
        unfold Vgeb. rewrite (proj2 (Vleb_Fin hi x)) by lra. reflexivity.
Qed.

Lemma cdf_returns_on_finite_means_witness :
  exists s',
    TDigest.process (libm := rational_libm) merged_digest = Done s' /\
    (exists r b, TDigest.cdf (libm := rational_libm) (of_Z 7) merged_digest
                   = Done (s', (r, b))) /\
    TDigest.cdf (libm := rational_libm) (of_Z 4) merged_digest
      = Done (s', (of_Z 0, true)) /\
    TDigest.cdf (libm := rational_libm) (of_Z 11) merged_digest
      = Done (s', (of_Z 1, true)).
Proof.
  destruct (cdf_returns_on_finite_means rational_libm merged_digest
              merged_digest_reachable) as (s' & E & H & B).
  exists s'. split; [exact E|].
  assert (E' := E). vm_compute in E'. injection E' as <-.
  split.
  - destruct (H ltac:(repeat constructor; eexists; reflexivity) 7%Q)
      as (r & b & Er & _).
    exists r, b. exact Er.
  - destruct (B 5%Q 10%Q) as [B0 B1].
    + discriminate.
    + reflexivity.
    + reflexivity.
    + discriminate.
    + split; [apply (B0 4%Q) | apply (B1 11%Q)]; reflexivity.
Defined.

(** ** add, merge and the compress step on reachable digests *)

(* the operand of the cast in totalWeight(), on a digest that keeps [Wt] *)
Lemma Wt_total s :
  Wt s ->
  (TDigest.processedWeight_ s + TDigest.unprocessedWeight_ s)%V
  = Fin (Qred (total_weight s)).
Proof.
  intros (p & u & Ep & Eu & _). unfold total_weight, pwq, uwq.
  rewrite Ep, Eu. reflexivity.
Qed.

Lemma Qred_inject_Z (n : Z) : Qred (inject_Z n) = inject_Z n.
Proof.
  unfold Qred, inject_Z.
  pose proof (Z.ggcd_gcd n 1) as Hg.
  pose proof (Z.ggcd_correct_divisors n 1) as Hd.
  destruct (Z.ggcd n 1) as (g & aa & bb). cbn [fst snd] in *.
  rewrite Z.gcd_1_r in Hg. subst g. destruct Hd as [Ha Hb].
  rewrite Z.mul_1_l in Ha, Hb. subst aa bb. reflexivity.
Qed.

Lemma to_long_integer (q : Q) (n : Z) :
  (q == inject_Z n)%Q -> to_long (Fin (Qred q)) = Done n.
Proof.
  intros E. rewrite (Qred_complete _ _ E), Qred_inject_Z.
  unfold to_long, inject_Z. cbn [Qnum Qden]. now rewrite Z.quot_1_r.
Qed.

(** X9: add(x) returns on every reachable digest.  A NaN leaves the sum
    processedWeight_ + unprocessedWeight_ as it is, any other x raises it
    by exactly 1, whether or not the call compresses. *)
Theorem add_counts_one (libm : Libm) (s : TDigest.t) (x : Value) :
  reachable s ->
  exists s',
    TDigest.add x s = Done s' /\
    (TDigest.processedWeight_ s + TDigest.unprocessedWeight_ s)%V
      = Fin (Qred (total_weight s)) /\
    (TDigest.processedWeight_ s' + TDigest.unprocessedWeight_ s')%V
      = Fin (Qred (total_weight s')) /\
    (total_weight s' == total_weight s + (if isnan x then 0 else 1))%Q.
Proof.
  intros R. pose proof (reachable_Inv s R) as I.
  pose proof (reachable_Wt s R) as W.
  destruct (add_returns x s I) as (s' & E).
  destruct (add_Wt x s s' I W E) as [W' T].
  exists s'. auto using Wt_total.
Qed.

Lemma add_counts_one_witness :
  exists s',
    TDigest.add (libm := rational_libm) (of_Z 7) merged_digest = Done s' /\
    (total_weight s' == total_weight merged_digest + 1)%Q.
Proof.
  destruct (add_counts_one rational_libm merged_digest (of_Z 7)
              merged_digest_reachable) as (s' & E & _ & _ & T).
  exists s'. split; [exact E | exact T].
Defined.

(* for (auto x : xs) digest.add(x); *)
Fixpoint add_each {libm : Libm} (xs : list Value) (s : TDigest.t)
  : outcome TDigest.t :=
  match xs with
  | [] => Done s
  | x :: xs' => s' <- TDigest.add x s ;; add_each xs' s'
  end.

(* the samples add accepts *)
Definition accepted (xs : list Value) : list Value :=
  filter (fun x => negb (isnan x)) xs.

Lemma add_each_counts (libm : Libm) (xs : list Value) : forall s,
  Inv s -> Wt s ->
  exists s', add_each xs s = Done s' /\ Inv s' /\ Wt s' /\
             (total_weight s' ==
              total_weight s + inject_Z (Z.of_nat (length (accepted xs))))%Q.
Proof.
  induction xs as [| x xs IH]; intros s I W.
  - exists s. split; [reflexivity|]. split; [exact I|]. split; [exact W|].
    change (inject_Z (Z.of_nat (length (accepted [])))) with 0%Q. lra.
  - destruct (add_returns x s I) as (s1 & E1).
    destruct (add_Wt x s s1 I W E1) as [W1 T1].
    assert (I1 : Inv s1).
    { unfold TDigest.add in E1.
      destruct (TDigest.add_w x (of_Z 1) s) as [[s2 b] |] eqn:E2;
        cbn [bind] in E1; [|discriminate].
      inversion E1; subst. now apply (add_w_Inv x s s1 b). }
    destruct (IH s1 I1 W1) as (s' & E' & I' & W' & T').
    exists s'. cbn [add_each]. rewrite E1. cbn [bind].
    split; [exact E'|]. split; [exact I'|]. split; [exact W'|].
    rewrite T', T1. unfold accepted. cbn [filter].
    destruct (isnan x); cbn [negb length].
    + lra.
    + rewrite Nat2Z.inj_succ, <- Z.add_1_r, inject_Z_plus.
      change (inject_Z 1) with 1%Q. fold (accepted xs). lra.
Qed.

Lemma construct_new compression unmergedSize mergedSize s :
  construct compression unmergedSize mergedSize = Done s ->
  s = TDigest.new compression unmergedSize mergedSize.
Proof.
  unfold construct. intros E.
  destruct (checked_size 2 _ _); cbn [bind] in E; [|discriminate].
  destruct (checked_size 8 _ _); cbn [bind] in E; [|discriminate].
  destruct (reserve _); cbn [bind] in E; [|discriminate].
  destruct (reserve _); cbn [bind] in E; [|discriminate].
  now inversion E.
Qed.

(** X10: when the constructor returns (the casts of the two sizes are
    defined and both reserve() calls are accepted), feeding any list of
    samples one by one to the new digest never stops, and totalWeight()
    then returns the number of samples that are not NaN. *)
Theorem totalWeight_counts_samples (libm : Libm)
        (compression : Value) (unmergedSize mergedSize : Index)
        (xs : list Value) (s : TDigest.t) :
  construct compression unmergedSize mergedSize = Done s ->
  exists s',
    add_each xs s = Done s' /\
    TDigest.totalWeight s' = Done (Z.of_nat (length (accepted xs))).
Proof.
  intros Ec. apply construct_new in Ec. subst s.
  destruct (add_each_counts libm xs
              (TDigest.new compression unmergedSize mergedSize))
    as (s' & E & _ & W & T).
  { apply new_Inv. }
  { apply new_Wt. }
  exists s'. split; [exact E|].
  unfold TDigest.totalWeight. rewrite (Wt_total s' W).
  apply to_long_integer. rewrite T.
  change (total_weight (TDigest.new compression unmergedSize mergedSize))
    with (inject_Z 0 + inject_Z 0)%Q.
  generalize (inject_Z (Z.of_nat (length (accepted xs)))). intros n.
  change (inject_Z 0) with 0%Q. lra.
Qed.

Lemma totalWeight_counts_samples_witness :
  construct (of_Z 100) 0 0 = Done fresh /\
  exists s',
    add_each (libm := rational_libm) [of_Z 1; NaN; of_Z 2] fresh = Done s' /\
    TDigest.totalWeight s' = Done 2%Z.
Proof.
  assert (E : construct (of_Z 100) 0 0 = Done fresh) by (vm_compute; reflexivity).
  split; [exact E|].
  apply (totalWeight_counts_samples rational_libm (of_Z 100) 0 0
           [of_Z 1; NaN; of_Z 2] fresh E).
Defined.

(** X11: merging digests built through the interface into a reachable
    digest that has at least one processed centroid returns, and the sum
    processedWeight_ + unprocessedWeight_ of the result is the receiver's
    plus that of every merged digest. *)
Theorem merge_adds_weights (libm : Libm)
        (s : TDigest.t) (others : list TDigest.t) :
  reachable s -> Forall reachable others -> TDigest.processed_ s <> [] ->
  exists s',
    TDigest.add_all others s = Done s' /\
    (forall o, others = [o] -> TDigest.merge o s = Done s') /\
    (TDigest.processedWeight_ s' + TDigest.unprocessedWeight_ s')%V
      = Fin (Qred (total_weight s')) /\
    (total_weight s' ==
     total_weight s + fold_right (fun o a => total_weight o + a) 0 others)%Q.
Proof.
  intros R Ro Hp. pose proof (reachable_Inv s R) as I.
  pose proof (reachable_Wt s R) as W.
  assert (Io : Forall Inv others).
  { eapply Forall_impl; [|exact Ro]. intros o. apply reachable_Inv. }
  assert (Wo : Forall Wt others).
  { eapply Forall_impl; [|exact Ro]. intros o. apply reachable_Wt. }
  destruct (add_all_returns others s Hp I W Io Wo) as (s' & E).
  destruct (add_all_Wt others s s' I W Io Wo E) as [W' T].
  exists s'. split; [exact E|]. split.
  - intros o ->. exact E.
  - split; [now apply Wt_total | exact T].
Qed.

Lemma merge_adds_weights_witness :
  exists s',
    TDigest.merge (libm := rational_libm)
      (compressed_sample 10) (compressed_sample 5) = Done s' /\
    (total_weight s' ==
     total_weight (compressed_sample 5) + total_weight (compressed_sample 10))%Q.
Proof.
  destruct (merge_adds_weights rational_libm (compressed_sample 5)
              [compressed_sample 10]) as (s' & _ & E & _ & T).
  - apply compressed_sample_reachable. now left.
  - constructor; [|constructor]. apply compressed_sample_reachable. now right.
  - discriminate.
  - exists s'. split; [now apply E|]. simpl in T. rewrite T. ring.
Defined.

(** X12: compress() returns every reachable digest exactly as it is: a
    digest built through add, merge, compress and the queries is never
    over a capacity while Dirty, so the test of processIfNecessary sends
    no such digest to the compress step. *)
Theorem compress_returns_digest_unchanged (libm : Libm) (s : TDigest.t) :
  reachable s ->
  TDigest.compress s = Done s /\
  (Dirty s ->
   length (TDigest.unprocessed_ s) <= TDigest.maxUnprocessed_ s /\
   length (TDigest.processed_ s) <= TDigest.maxProcessed_ s).
Proof.
  intros R. split; [now apply compress_changes_nothing|].
  intros D. destruct (reachable_Inv s R) as [_ [C | H]]; [|exact H].
  unfold Clean in C. unfold Dirty in D. congruence.
Qed.

Lemma compress_returns_digest_unchanged_witness :
  Dirty merged_digest /\
  TDigest.compress (libm := rational_libm) merged_digest = Done merged_digest /\
  length (TDigest.unprocessed_ merged_digest)
    <= TDigest.maxUnprocessed_ merged_digest /\
  length (TDigest.processed_ merged_digest)
    <= TDigest.maxProcessed_ merged_digest.
Proof.
  destruct (compress_returns_digest_unchanged rational_libm merged_digest
              merged_digest_reachable) as [E H].
  split; [reflexivity|]. split; [exact E|]. apply H. reflexivity.
Defined.

(* process() on a Dirty reachable digest, with the centroid the clustering
   loop starts from *)
Lemma process_dirty_reachable (libm : Libm) (s : TDigest.t) :
  reachable s -> Dirty s ->
  exists s' least,
    TDigest.process s = Done s' /\
    Clean s' /\ TDigest.unprocessed_ s' = [] /\
    TDigest.unprocessedWeight_ s' = of_Z 0 /\
    TDigest.processedWeight_ s' =
      (TDigest.processedWeight_ s + TDigest.unprocessedWeight_ s)%V /\
    TDigest.processed_ s' <> [] /\
    TDigest.maxProcessed_ s' = TDigest.maxProcessed_ s /\
    TDigest.maxUnprocessed_ s' = TDigest.maxUnprocessed_ s /\
    TDigest.compression_ s' = TDigest.compression_ s /\
    In least (TDigest.unprocessed_ s ++ TDigest.processed_ s) /\
    (forall c, In c (TDigest.unprocessed_ s ++ TDigest.processed_ s) ->
               mean_le least c) /\
    (wsum (TDigest.processed_ s') ==
     wsum (TDigest.unprocessed_ s) + wsum (TDigest.processed_ s) + wq least)%Q.
Proof.
  intros R D.
  destruct (reachable_Inv s R) as [([Gp Sp] & Gu & _ & _ & Hne & _) _].
  destruct (process_dirty s D Gp Gu)
    as (first & rest & out & front & back & Em & Hf & _ & _ & Hw & E).
  { intros H. apply app_eq_nil in H. destruct H. destruct (Hne D); contradiction. }
  assert (Pall : Permutation (TDigest.unprocessed_ s ++ TDigest.processed_ s)
                             (first :: rest)).
  { rewrite <- Em, <- inplace_merge_perm.
    apply Permutation_app_tail, std_sort_perm. }
  assert (Gall : Forall good (first :: rest)).
  { rewrite <- Pall. apply Forall_app. auto. }
  assert (Sall : sorted_by_mean (first :: rest)).
  { rewrite <- Em. apply inplace_merge_sorted; auto.
    - now rewrite <- std_sort_perm.
    - now apply std_sort_sorted. }
  assert (Gfirst : good first) by now inversion Gall.
  pose proof (sorted_head_le first rest Gfirst Sall) as Hlow.
  eexists. exists first. split; [exact E|].
  cbn [TDigest.unprocessed_ TDigest.unprocessedWeight_ TDigest.processed_
       TDigest.processedWeight_ TDigest.maxProcessed_ TDigest.maxUnprocessed_
       TDigest.compression_].
  split; [reflexivity|]. split; [reflexivity|]. split; [reflexivity|].
  split; [reflexivity|].
  split; [intros ->; discriminate|].
  split; [reflexivity|]. split; [reflexivity|]. split; [reflexivity|].
  split; [|split].
  - apply (Permutation_in first (Permutation_sym Pall)). now left.
  - intros c Hc. rewrite Forall_forall in Hlow. apply Hlow.
    now apply (Permutation_in c Pall).
  - rewrite Hw. lra.
Qed.

(** X13: on a reachable digest that is Dirty the compress step process()
    returns a Clean digest: the buffer is empty and unprocessedWeight_ is
    0, processedWeight_ is the former processedWeight_ + unprocessedWeight_,
    at least one processed centroid exists, and compression and both
    capacities are as before. *)
Theorem process_folds_buffer (libm : Libm) (s : TDigest.t) :
  reachable s -> Dirty s ->
  exists s',
    TDigest.process s = Done s' /\
    Clean s' /\ TDigest.unprocessed_ s' = [] /\
    TDigest.unprocessedWeight_ s' = of_Z 0 /\
    TDigest.processedWeight_ s' =
      (TDigest.processedWeight_ s + TDigest.unprocessedWeight_ s)%V /\
    TDigest.processed_ s' <> [] /\
    TDigest.maxProcessed_ s' = TDigest.maxProcessed_ s /\
    TDigest.maxUnprocessed_ s' = TDigest.maxUnprocessed_ s /\
    TDigest.compression_ s' = TDigest.compression_ s.
Proof.
  intros R D.
  destruct (process_dirty_reachable libm s R D)
    as (s' & least & E & H1 & H2 & H3 & H4 & H5 & H6 & H7 & H8 & _).
  exists s'. repeat split; assumption.
Qed.

Lemma process_folds_buffer_witness :
  exists s',
    TDigest.process (libm := rational_libm) merged_digest = Done s' /\
    Clean s' /\ TDigest.unprocessed_ s' = [] /\
    TDigest.processed_ s' <> [].
Proof.
  destruct (process_folds_buffer rational_libm merged_digest
              merged_digest_reachable eq_refl)
    as (s' & E & C & U & _ & _ & P & _).
  exists s'. auto.
Defined.

(** X14: the clustering loop of process() starts from a copy of the
    first centroid of the sorted sequence and then visits that centroid
    again: on a reachable Dirty digest the weights of the processed
    centroids after process() add up to the weights of all centroids
    before it plus the weight of that first centroid. *)
Theorem process_counts_seed_twice (libm : Libm) (s : TDigest.t) :
  reachable s -> Dirty s ->
  exists s' seed,
    TDigest.process s = Done s' /\
    hd_error (inplace_merge (std_sort (TDigest.unprocessed_ s))
                            (TDigest.processed_ s)) = Some seed /\
    In seed (TDigest.unprocessed_ s ++ TDigest.processed_ s) /\
    (wsum (TDigest.processed_ s') ==
     wsum (TDigest.unprocessed_ s) + wsum (TDigest.processed_ s) + wq seed)%Q.
Proof.
  intros R D.
  destruct (reachable_Inv s R) as [([Gp Sp] & Gu & _ & _ & Hne & _) _].
  destruct (process_dirty s D Gp Gu)
    as (first & rest & out & front & back & Em & _ & _ & _ & Hw & E).
  { intros H. apply app_eq_nil in H. destruct H. destruct (Hne D); contradiction. }
  eexists. exists first. split; [exact E|].
  split; [now rewrite Em|]. split.
  - assert (P : Permutation (TDigest.unprocessed_ s ++ TDigest.processed_ s)
                            (first :: rest)).
    { rewrite <- Em, <- inplace_merge_perm.
      apply Permutation_app_tail, std_sort_perm. }
    apply (Permutation_in first (Permutation_sym P)). now left.
  - cbn [TDigest.processed_]. rewrite Hw. lra.
Qed.

Lemma process_counts_seed_twice_witness :
  exists s' seed,
    TDigest.process (libm := rational_libm) merged_digest = Done s' /\
    In seed (TDigest.processed_ merged_digest) /\
    (wsum (TDigest.processed_ s') ==
     wsum (TDigest.processed_ merged_digest) + wq seed)%Q.
Proof.
  destruct (process_counts_seed_twice rational_libm merged_digest
              merged_digest_reachable eq_refl)
    as (s' & seed & E & _ & Hin & Hw).
  exists s', seed. split; [exact E|]. split; [exact Hin|].
  rewrite Hw. cbn [merged_digest TDigest.unprocessed_ wsum fold_right].
  change (wsum []) with 0%Q. lra.
Defined.

(* a weight that is a positive number *)
Definition positive_weight (c : Centroid.t) : Prop :=
  exists w, Centroid.weight c = Fin w /\ (0 < w)%Q.

Lemma good_positive_weight c : good c -> positive_weight c.
Proof.
  intros G. destruct (good_inv c G) as (m & w & -> & Hw). now exists w.
Qed.

(** X15: on every reachable digest, Dirty or Clean, every centroid,
    buffered or processed, has a positive weight, unprocessedWeight_ is
    the sum of the weights in the buffer, and processedWeight_ lies
    between 0 and the sum of the weights of the processed centroids. *)
Theorem running_sums_on_reachable (libm : Libm) (s : TDigest.t) :
  reachable s ->
  Forall positive_weight (TDigest.unprocessed_ s) /\
  Forall positive_weight (TDigest.processed_ s) /\
  exists p u,
    TDigest.processedWeight_ s = Fin p /\
    TDigest.unprocessedWeight_ s = Fin u /\
    (u == wsum (TDigest.unprocessed_ s))%Q /\
    (0 <= p <= wsum (TDigest.processed_ s))%Q.
Proof.
  intros R.
  destruct (reachable_Inv s R) as [([Gp _] & Gu & _) _].
  destruct (reachable_Wt s R) as (p & u & Ep & Eu & Hu & Hp0 & Hp & _).
  split; [|split].
  - eapply Forall_impl; [|exact Gu]. apply good_positive_weight.
  - eapply Forall_impl; [|exact Gp]. apply good_positive_weight.
  - exists p, u. auto.
Qed.

Lemma running_sums_on_reachable_witness :
  exists p u,
    TDigest.processedWeight_ merged_digest = Fin p /\
    TDigest.unprocessedWeight_ merged_digest = Fin u /\
    (u == wsum (TDigest.unprocessed_ merged_digest))%Q /\
    (0 <= p <= wsum (TDigest.processed_ merged_digest))%Q.
Proof.
  apply (proj2 (proj2
           (running_sums_on_reachable rational_libm merged_digest
              merged_digest_reachable))).
Defined.

(** ** The k-way merge *)

(** X16: mergeProcessed over a non-empty collection of digests, when the
    receiver has at least one processed centroid and every processed list
    involved is sorted by mean with finite means and positive weights,
    returns; the new processed list is sorted by mean and is a permutation
    of the receiver's centroids and those of all the digests, the buffer,
    unprocessedWeight_, min, max, the capacities and the dirty flag are
    untouched, and processedWeight_ has gained the processedWeight_ of
    each digest whose processed list is not empty. *)
Theorem mergeProcessed_sorted_permutation
        (others : list TDigest.t) (s : TDigest.t) :
  others <> [] -> TDigest.processed_ s <> [] ->
  tidy (TDigest.processed_ s) ->
  Forall (fun td => tidy (TDigest.processed_ td)) others ->
  exists s',
    TDigest.mergeProcessed others s = Done s' /\
    sorted_by_mean (TDigest.processed_ s') /\
    Permutation (flat_map TDigest.processed_ others ++ TDigest.processed_ s)
                (TDigest.processed_ s') /\
    TDigest.processedWeight_ s' =
      fold_left add_processedWeight others (TDigest.processedWeight_ s) /\
    TDigest.unprocessed_ s' = TDigest.unprocessed_ s /\
    TDigest.unprocessedWeight_ s' = TDigest.unprocessedWeight_ s /\
    TDigest.min s' = TDigest.min s /\ TDigest.max s' = TDigest.max s /\
    TDigest.maxProcessed_ s' = TDigest.maxProcessed_ s /\
    TDigest.maxUnprocessed_ s' = TDigest.maxUnprocessed_ s /\
    TDigest.dirty_ s' = TDigest.dirty_ s.
Proof.
  intros Hne Hp Ts To.
  destruct (mergeProcessed_ok others s Hne Hp Ts To)
    as (sorted & pw & E & S & P).
  eexists. split; [exact E|].
  pose proof (mergeProcessed_weight others s _ E) as Hw.
  cbn [TDigest.processed_ TDigest.processedWeight_ TDigest.unprocessed_
       TDigest.unprocessedWeight_ TDigest.min TDigest.max
       TDigest.maxProcessed_ TDigest.maxUnprocessed_ TDigest.dirty_] in *.
  repeat split; assumption.
Qed.

Lemma compressed_sample_tidy (x : Z) :
  tidy (TDigest.processed_ (compressed_sample x)).
Proof.
  assert (G : good (Centroid.mk (of_Z x) (of_Z 1))) by reflexivity.
  assert (L : mean_le (Centroid.mk (of_Z x) (of_Z 1))
                      (Centroid.mk (of_Z x) (of_Z 1))).
  { now apply mean_le_refl. }
  split.
  - constructor; [exact G|]. constructor; [exact G | constructor].
  - constructor.
    + constructor; [constructor | constructor].
    + constructor; [exact L | constructor].
Qed.

Lemma mergeProcessed_sorted_permutation_witness :
  exists s',
    TDigest.mergeProcessed [compressed_sample 10] (compressed_sample 5)
      = Done s' /\
    sorted_by_mean (TDigest.processed_ s') /\
    TDigest.processedWeight_ s' = of_Z 2.
Proof.
  destruct (mergeProcessed_sorted_permutation
              [compressed_sample 10] (compressed_sample 5))
    as (s' & E & S & _ & W & _).
  - discriminate.
  - discriminate.
  - apply compressed_sample_tidy.
  - constructor; [apply compressed_sample_tidy | constructor].
  - exists s'. split; [exact E|]. split; [exact S|]. rewrite W. reflexivity.
Defined.

(** ** checkWeights *)

(* the centroids checkWeights looks at: those whose weight is not 1 *)
Definition heavy (c : Centroid.t) : bool :=
  negb (Centroid.weight c ==? of_Z 1)%V.

Lemma Vadd_of_Z (a b : Z) : (of_Z a + of_Z b)%V = of_Z (a + b).
Proof.
  unfold Vadd, lift2, of_Z. f_equal.
  rewrite <- (Qred_inject_Z (a + b)). apply Qred_complete.
  now rewrite inject_Z_plus.
Qed.

Lemma checkWeights_loop_count (libm : Libm) (s : TDigest.t) (total : Value)
      (sorted : list Centroid.t) : forall (b : Z) (k1 q : Value),
  exists n : Z,
    checkWeights_loop s sorted total (of_Z b) k1 q = of_Z n /\
    (b <= n <= b + 2 * Z.of_nat (length (filter heavy sorted)))%Z.
Proof.
  induction sorted as [| c rest IH]; intros b k1 q.
  - exists b. split; [reflexivity | simpl; lia].
  - cbn [checkWeights_loop filter]. unfold heavy at 1.
    destruct (negb (Centroid.weight c ==? of_Z 1)%V).
    + rewrite !andb_true_r.
      destruct (_ >? of_Z 1)%V; destruct (_ >? Fin (3 # 2))%V;
        rewrite ?Vadd_of_Z;
        match goal with
        | |- context [checkWeights_loop s rest total (of_Z ?b') ?k ?q'] =>
            destruct (IH b' k q') as (n & -> & Hn)
        end;
        exists n; (split; [reflexivity | cbn [length]; lia]).
    + rewrite !andb_false_r.
      match goal with
      | |- context [checkWeights_loop s rest total (of_Z ?b') ?k ?q'] =>
          destruct (IH b' k q') as (n & -> & Hn)
      end.
      exists n. split; [reflexivity | lia].
Qed.

(** X17: checkWeights(sorted, total) always returns, whatever the weights,
    the total and the values of asin: its count lies between 0 and twice
    the number of centroids whose weight is not 1, so it is 0 when every
    weight is 1. *)
Theorem checkWeights_bounds (libm : Libm) (s : TDigest.t)
        (sorted : list Centroid.t) (total : Value) :
  (exists n : Z,
     checkWeights2 s sorted total = Done n /\
     (0 <= n <= 2 * Z.of_nat (length (filter heavy sorted)))%Z) /\
  (exists n : Z,
     checkWeights s = Done n /\
     (0 <= n <= 2 * Z.of_nat (length (filter heavy (TDigest.processed_ s))))%Z).
Proof.
  assert (H : forall l tot, exists n : Z,
             checkWeights2 s l tot = Done n /\
             (0 <= n <= 2 * Z.of_nat (length (filter heavy l)))%Z).
  { intros l tot.
    destruct (checkWeights_loop_count libm s tot l 0 (of_Z 0) (of_Z 0))
      as (n & E & Hn).
    exists n. unfold checkWeights2. rewrite E. split; [|lia].
    unfold to_long, of_Z, inject_Z. cbn [Qnum Qden]. now rewrite Z.quot_1_r. }
  split; [apply H | apply (H (TDigest.processed_ s))].
Qed.

(** ** The constructor from vectors *)

Lemma Qred_zero_product (a b : Q) : (b == 0)%Q -> Qred (a * b) = 0%Q.
Proof.
  intros E. change 0%Q with (Qred 0). apply Qred_complete. rewrite E. ring.
Qed.

(** X19: the constructor from two vectors of centroids leaves both weight
    sums at 0, min at the largest double and the digest Clean.  So
    totalWeight() is 0 whatever the vectors hold, no query folds the
    unprocessed vector in, and with two or more processed centroids, the
    first of weight at least 1 and of a mean above -2^970 (so that
    mean(0) - min does not overflow), quantile(q) is the largest double
    for every 0 <= q <= 1 and cdf(x) is 0 for every x up to it. *)
Theorem vector_constructor_queries (libm : Libm)
        (m0 w0 : Q) (c1 : Centroid.t) (l unprocessed : list Centroid.t)
        (compression : Value) (unmergedSize mergedSize : Index) (qq x : Q) :
  (1 <= w0)%Q -> (- inject_Z (2 ^ 970) < m0)%Q ->
  (0 <= qq <= 1)%Q -> (Fin x <=? DBL_MAX)%V = true ->
  let s := TDigest.of_vectors (Centroid.mk (Fin m0) (Fin w0) :: c1 :: l)
             unprocessed compression unmergedSize mergedSize in
  TDigest.totalWeight s = Done 0%Z /\
  TDigest.process s = Done s /\
  TDigest.unprocessed_ s = unprocessed /\
  TDigest.quantile (Fin qq) s = Done (s, (DBL_MAX, true)) /\
  TDigest.cdf (Fin x) s = Done (s, (of_Z 0, true)).
Proof.
  intros Hw1 _ Hq Hx s.
  assert (Hw : (0 < w0)%Q) by lra.
  assert (Pc : TDigest.process s = Done s) by reflexivity.
  split; [reflexivity|]. split; [exact Pc|]. split; [reflexivity|].
  unfold TDigest.quantile, TDigest.cdf. rewrite Pc. cbn [bind]. split.
  - unfold TDigest.quantileProcessed. rewrite (valid_q_passes qq Hq).
    unfold TDigest.weight.
    cbn [s TDigest.of_vectors TDigest.processed_ TDigest.processedWeight_
         TDigest.new TDigest.min at_index nth_error bind Centroid.weight].
    assert (Ei : (Fin qq * of_Z 0)%V = of_Z 0).
    { unfold Vmul, lift2, of_Z. f_equal. now apply Qred_zero_product. }
    rewrite Ei.
    assert (Lt : (of_Z 0 <? Fin w0 / of_Z 2)%V = true).
    { unfold Vdiv, of_Z.
      change (Qeq_bool (inject_Z 2) 0%Q) with false. cbv iota.
      apply Vltb_Fin. rewrite Qred_correct.
      change (inject_Z 0) with 0%Q. change (inject_Z 2) with 2%Q.
      unfold Qdiv. change (/ 2)%Q with (1 # 2)%Q. lra. }
    rewrite Lt, (positive_gtb w0 Hw). cbn [CHECK bind].
    assert (Ev : (DBL_MAX + of_Z 2 * of_Z 0 / Fin w0 * (Fin m0 - DBL_MAX))%V
                 = DBL_MAX).
    { unfold DBL_MAX. set (big := ((2 ^ 53 - 1) * 2 ^ 971)%Z).
      unfold Vadd, Vsub, Vmul, Vdiv, lift2, of_Z.
      rewrite (positive_nonzero w0 Hw). apply (f_equal Fin).
      transitivity (Qred (inject_Z big)); [|apply Qred_inject_Z].
      apply Qred_complete. rewrite !Qred_correct.
      change (inject_Z 0) with 0%Q.
      generalize (inject_Z big). intros b.
      assert (E : (inject_Z 2 * 0 / w0 == 0)%Q) by (field; lra).
      rewrite E. ring. }
    unfold TDigest.mean.
    cbn [s TDigest.of_vectors TDigest.processed_ TDigest.new TDigest.min
         at_index nth_error bind Centroid.mean].
    rewrite Ev. reflexivity.
  - unfold TDigest.cdfProcessed.
    cbn [s TDigest.of_vectors TDigest.processed_ TDigest.new TDigest.min].
    rewrite Hx. reflexivity.
Qed.

Lemma vector_constructor_queries_witness :
  TDigest.quantile (libm := rational_libm) TDigest.half
    (TDigest.of_vectors
       [Centroid.mk (of_Z 1) (of_Z 1); Centroid.mk (of_Z 2) (of_Z 1)] []
       (of_Z 100) 0 0)
  = Done (TDigest.of_vectors
            [Centroid.mk (of_Z 1) (of_Z 1); Centroid.mk (of_Z 2) (of_Z 1)] []
            (of_Z 100) 0 0, (DBL_MAX, true)).
Proof.
  refine (proj1 (proj2 (proj2 (proj2
            (vector_constructor_queries rational_libm 1 1
               (Centroid.mk (of_Z 2) (of_Z 1)) [] [] (of_Z 100) 0 0
               (1 # 2) 2 _ _ _ _))))).
  - discriminate.
  - reflexivity.
  - split; discriminate.
  - reflexivity.
Defined.

(** ** Processed centroids are never lost *)

Section KeepsCentroids.
Context {libm : Libm}.

Lemma process_keeps_centroids s s' :
  Inv0 s -> TDigest.process s = Done s' ->
  Dirty s \/ TDigest.processed_ s <> [] -> TDigest.processed_ s' <> [].
Proof.
  intros I E H.
  destruct (TDigest.dirty_ s) eqn:D.
  - destruct I as ([Gp _] & Gu & _ & _ & Hne & _).
    destruct (process_dirty s D Gp Gu)
      as (first & rest & out & front & back & _ & Hf & _ & _ & _ & E').
    { intros H0. apply app_eq_nil in H0. destruct H0.
      destruct (Hne D); contradiction. }
    rewrite E' in E. inversion E; subst. cbn [TDigest.processed_].
    intros ->. discriminate.
  - rewrite (process_clean s D) in E. inversion E; subst.
    destruct H as [H | H]; [|exact H]. unfold Dirty in H. congruence.
Qed.

Lemma processIfNecessary_keeps_centroids s s' :
  Inv0 s -> TDigest.processIfNecessary s = Done s' ->
  TDigest.processed_ s <> [] -> TDigest.processed_ s' <> [].
Proof.
  intros I E H. unfold TDigest.processIfNecessary in E.
  destruct (_ || _).
  - apply (process_keeps_centroids s s' I E). now right.
  - now inversion E; subst.
Qed.

End KeepsCentroids.

(** X20: once a reachable digest has a processed centroid it keeps at
    least one: after every add, merge of reachable digests, compress,
    quantile and cdf call the processed list is again not empty, so that a
    later merge into the digest finds the list it reads first. *)
Theorem processed_centroids_never_lost (libm : Libm) (s : TDigest.t) :
  reachable s -> TDigest.processed_ s <> [] ->
  (forall x s', TDigest.add x s = Done s' -> TDigest.processed_ s' <> []) /\
  (forall others s', Forall reachable others ->
      TDigest.add_all others s = Done s' -> TDigest.processed_ s' <> []) /\
  (forall s', TDigest.compress s = Done s' -> TDigest.processed_ s' <> []) /\
  (forall q s' r, TDigest.quantile q s = Done (s', r) ->
      TDigest.processed_ s' <> []) /\
  (forall x s' r, TDigest.cdf x s = Done (s', r) ->
      TDigest.processed_ s' <> []).
Proof.
  intros R Hp. pose proof (reachable_Inv s R) as I.
  pose proof (reachable_Wt s R) as W.
  split; [|split; [|split; [|split]]].
  - intros x s' E. rewrite add_unfold in E. destruct (isnan x) eqn:N.
    + now inversion E; subst.
    + apply (processIfNecessary_keeps_centroids (pushed x s) s'); auto.
      apply pushed_Inv0; [exact N | apply I].
  - intros others s' Ro E.
    destruct others as [| o os] eqn:Eo; [now inversion E; subst|].
    rewrite <- Eo in *.
    destruct (add_all_merged others s) as (s3 & E3 & I3 & _ & _ & H3 & _); auto.
    { rewrite Eo. discriminate. }
    { eapply Forall_impl; [|exact Ro]. intros t. apply reachable_Inv. }
    { eapply Forall_impl; [|exact Ro]. intros t. apply reachable_Wt. }
    rewrite E3 in E.
    apply (processIfNecessary_keeps_centroids s3 s' I3 E H3).
  - intros s' E. rewrite (compress_changes_nothing libm s R) in E.
    now inversion E; subst.
  - intros q s' r E. unfold TDigest.quantile in E.
    destruct (TDigest.process s) as [s1 |] eqn:E1; cbn [bind] in E; [|discriminate].
    destruct (TDigest.quantileProcessed q s1); cbn [bind] in E; [|discriminate].
    inversion E; subst.
    apply (process_keeps_centroids s s' (proj1 I) E1). now right.
  - intros x s' r E. unfold TDigest.cdf in E.
    destruct (TDigest.process s) as [s1 |] eqn:E1; cbn [bind] in E; [|discriminate].
    destruct (TDigest.cdfProcessed x s1); cbn [bind] in E; [|discriminate].
    inversion E; subst.
    apply (process_keeps_centroids s s' (proj1 I) E1). now right.
Qed.

Lemma processed_centroids_never_lost_witness :
  exists s',
    TDigest.add (libm := rational_libm) (of_Z 7) (compressed_sample 5)
      = Done s' /\
    TDigest.processed_ s' <> [].
Proof.
  assert (R : reachable (libm := rational_libm) (compressed_sample 5))
    by (apply compressed_sample_reachable; now left).
  destruct (processed_centroids_never_lost rational_libm (compressed_sample 5) R)
    as [H _]; [discriminate|].
  exists (pushed (of_Z 7) (compressed_sample 5)).
  split; [reflexivity|]. apply (H (of_Z 7)). reflexivity.
Defined.

(** ** min and max only widen *)

Definition widens (s s' : TDigest.t) : Prop :=
  Vle (TDigest.min s') (TDigest.min s) /\ Vle (TDigest.max s) (TDigest.max s').

Section Widening.
Context {libm : Libm}.

Lemma widens_refl s : Inv0 s -> widens s s.
Proof.
  intros (_ & _ & Fmin & Fmax & _). split; now apply Vle_refl.
Qed.

Lemma process_widens s s' :
  Inv0 s -> TDigest.process s = Done s' -> widens s s'.
Proof.
  intros I E. destruct (TDigest.dirty_ s) eqn:D.
  - destruct I as ([Gp _] & Gu & Fmin & Fmax & Hne & _).
    destruct (process_dirty s D Gp Gu)
      as (first & rest & out & front & back & _ & Hf & Hb & Gout & _ & E').
    { intros H0. apply app_eq_nil in H0. destruct H0.
      destruct (Hne D); contradiction. }
    rewrite E' in E. inversion E; subst. unfold widens.
    cbn [TDigest.min TDigest.max].
    assert (Gf : good front).
    { destruct out; [discriminate|]. inversion Hf; subst. now inversion Gout. }
    assert (Gb : good back).
    { unfold at_index in Hb.
      destruct (nth_error out (length out - 1)) eqn:En; [|discriminate].
      inversion Hb; subst. rewrite Forall_forall in Gout.
      apply Gout. now apply (nth_error_In out (length out - 1)). }
    split.
    + apply std_min_le_l; auto using good_finite.
    + apply std_max_ge_l; auto using good_finite.
  - rewrite (process_clean s D) in E. inversion E; subst.
    now apply widens_refl.
Qed.

Lemma processIfNecessary_widens s s' :
  Inv0 s -> TDigest.processIfNecessary s = Done s' -> widens s s'.
Proof.
  intros I E. unfold TDigest.processIfNecessary in E.
  destruct (_ || _).
  - now apply process_widens.
  - inversion E; subst. now apply widens_refl.
Qed.

Lemma add_widens x s s' :
  Inv s -> TDigest.add x s = Done s' -> widens s s'.
Proof.
  intros [I _] E. rewrite add_unfold in E. destruct (isnan x) eqn:N.
  - inversion E; subst. now apply widens_refl.
  - apply (processIfNecessary_widens (pushed x s) s'); [|exact E].
    now apply pushed_Inv0.
Qed.

Lemma add_all_widens others s s' :
  Inv s -> Wt s -> Forall Inv others -> Forall Wt others ->
  TDigest.add_all others s = Done s' -> widens s s'.
Proof.
  intros I W Io Wo E.
  destruct others as [| o os] eqn:Eo.
  { inversion E; subst. apply widens_refl. apply I. }
  rewrite <- Eo in *.
  assert (Hne : others <> []) by (rewrite Eo; discriminate).
  destruct (TDigest.processed_ s) as [| p0 ps] eqn:Ep.
  { unfold TDigest.add_all in E. rewrite Eo in E at 1.
    cbn [length Nat.ltb Nat.leb] in E.
    rewrite mergeProcessed_empty_receiver in E by assumption. discriminate. }
  destruct (add_all_merged others s)
    as (s3 & E3 & I3 & _ & _ & _ & Emin & Emax & _); auto.
  { rewrite Ep. discriminate. }
  rewrite E3 in E.
  pose proof (processIfNecessary_widens s3 s' I3 E) as [H1 H2].
  unfold widens. now rewrite <- Emin, <- Emax.
Qed.

Lemma widens_limits s s' :
  widens s s' ->
  Vle (TDigest.min s) DBL_MAX /\ Vle DBL_MIN (TDigest.max s) ->
  Vle (TDigest.min s') DBL_MAX /\ Vle DBL_MIN (TDigest.max s').
Proof.
  intros [H1 H2] [L1 L2]. split; eapply Vle_trans; eauto.
Qed.

Lemma reachable_limits s :
  reachable s ->
  Vle (TDigest.min s) DBL_MAX /\ Vle DBL_MIN (TDigest.max s).
Proof.
  induction 1 as [c u m | s x s' R IH E | s others s' R IH Ro IHo E
                  | s s' R IH E | s q s' r R IH E | s x s' r R IH E].
  - split; apply Vle_refl; reflexivity.
  - apply (widens_limits s s'); [|exact IH].
    exact (add_widens x s s' (reachable_Inv s R) E).
  - apply (widens_limits s s'); [|exact IH].
    apply (add_all_widens others s s'); auto.
    + now apply reachable_Inv.
    + now apply reachable_Wt.
    + apply Forall_forall. intros o Ho. apply reachable_Inv. now apply Ro.
    + apply Forall_forall. intros o Ho. apply reachable_Wt. now apply Ro.
  - rewrite (compress_changes_nothing libm s R) in E. now inversion E; subst.
  - unfold TDigest.quantile in E.
    destruct (TDigest.process s) as [s1 |] eqn:E1; cbn [bind] in E; [|discriminate].
    destruct (TDigest.quantileProcessed q s1); cbn [bind] in E; [|discriminate].
    inversion E; subst. apply (widens_limits s s'); [|exact IH].
    exact (process_widens s s' (proj1 (reachable_Inv s R)) E1).
  - unfold TDigest.cdf in E.
    destruct (TDigest.process s) as [s1 |] eqn:E1; cbn [bind] in E; [|discriminate].
    destruct (TDigest.cdfProcessed x s1); cbn [bind] in E; [|discriminate].
    inversion E; subst. apply (widens_limits s s'); [|exact IH].
    exact (process_widens s s' (proj1 (reachable_Inv s R)) E1).
Qed.

End Widening.

(** X21: min and max only ever widen.  Every add, merge, quantile and cdf
    call on a reachable digest leaves a min that is at most the former min
    and a max that is at least the former max; so on every reachable
    digest min is at most the largest double and max is at least the
    smallest positive normal double, the values the constructor sets: max
    is never negative. *)
Theorem min_max_only_widen (libm : Libm) (s : TDigest.t) :
  reachable s ->
  Vle (TDigest.min s) DBL_MAX /\ Vle DBL_MIN (TDigest.max s) /\
  (forall x s', TDigest.add x s = Done s' -> widens s s') /\
  (forall others s', Forall reachable others ->
      TDigest.add_all others s = Done s' -> widens s s') /\
  (forall q s' r, TDigest.quantile q s = Done (s', r) -> widens s s') /\
  (forall x s' r, TDigest.cdf x s = Done (s', r) -> widens s s').
Proof.
  intros R. pose proof (reachable_Inv s R) as I.
  pose proof (reachable_Wt s R) as W.
  destruct (reachable_limits s R) as [L1 L2].
  split; [exact L1|]. split; [exact L2|].
  split; [|split; [|split]].
  - intros x s' E. now apply (add_widens x s s').
  - intros others s' Ro E. apply (add_all_widens others s s'); auto.
    + eapply Forall_impl; [|exact Ro]. intros t. apply reachable_Inv.
    + eapply Forall_impl; [|exact Ro]. intros t. apply reachable_Wt.
  - intros q s' r E. unfold TDigest.quantile in E.
    destruct (TDigest.process s) as [s1 |] eqn:E1; cbn [bind] in E; [|discriminate].
    destruct (TDigest.quantileProcessed q s1); cbn [bind] in E; [|discriminate].
    inversion E; subst. exact (process_widens s s' (proj1 I) E1).
  - intros x s' r E. unfold TDigest.cdf in E.
    destruct (TDigest.process s) as [s1 |] eqn:E1; cbn [bind] in E; [|discriminate].
    destruct (TDigest.cdfProcessed x s1); cbn [bind] in E; [|discriminate].
    inversion E; subst. exact (process_widens s s' (proj1 I) E1).
Qed.

Lemma min_max_only_widen_witness :
  Vle (TDigest.min merged_digest) DBL_MAX /\
  Vle DBL_MIN (TDigest.max merged_digest).
Proof.
  destruct (min_max_only_widen rational_libm merged_digest
              merged_digest_reachable) as (L1 & L2 & _).
  split; [exact L1 | exact L2].
Defined.

(** ** The closing interpolation of quantileProcessed is out of reach *)

Section FinalSegment.
Context {libm : Libm}.
Hypothesis bounded_sine : sine_bounded libm.

Lemma add_all_Room others s s' :
  Inv s -> Wt s -> Room s ->
  Forall Inv others -> Forall Wt others -> Forall Room others ->
  TDigest.add_all others s = Done s' -> Room s'.
Proof.
  intros I W K Io Wo Ko E.
  destruct others as [| o os] eqn:Eo.
  { now inversion E; subst. }
  rewrite <- Eo in *.
  assert (Hne : others <> []) by (rewrite Eo; discriminate).
  destruct (TDigest.processed_ s) as [| p0 ps] eqn:Ep.
  { unfold TDigest.add_all in E. rewrite Eo in E at 1.
    cbn [length Nat.ltb Nat.leb] in E.
    rewrite mergeProcessed_empty_receiver in E by assumption. discriminate. }
  destruct (add_all_merged others s) as (s3 & E3 & I3 & W3 & _ & _ & _ & _ & K3);
    auto.
  { rewrite Ep. discriminate. }
  rewrite E3 in E.
  exact (processIfNecessary_Room bounded_sine s3 s' I3 W3 (K3 K Ko) E).
Qed.

Lemma reachable_Room s : reachable s -> Room s.
Proof.
  induction 1 as [c u m | s x s' R IH E | s others s' R IH Ro IHo E
                  | s s' R IH E | s q s' r R IH E | s x s' r R IH E].
  - apply new_Room.
  - exact (add_Room bounded_sine x s s' (reachable_Inv s R) (reachable_Wt s R) IH E).
  - refine (add_all_Room others s s' (reachable_Inv s R) (reachable_Wt s R)
                         IH _ _ _ E).
    + apply Forall_forall. intros o Ho. apply reachable_Inv. now apply Ro.
    + apply Forall_forall. intros o Ho. apply reachable_Wt. now apply Ro.
    + apply Forall_forall. exact IHo.
  - rewrite (compress_changes_nothing libm s R) in E. now inversion E; subst.
  - unfold TDigest.quantile in E.
    destruct (TDigest.process s) as [s1 |] eqn:E1; cbn [bind] in E; [|discriminate].
    destruct (TDigest.quantileProcessed q s1); cbn [bind] in E; [|discriminate].
    inversion E; subst.
    exact (process_Room bounded_sine s s' (proj1 (reachable_Inv s R))
                        (reachable_Wt s R) IH E1).
  - unfold TDigest.cdf in E.
    destruct (TDigest.process s) as [s1 |] eqn:E1; cbn [bind] in E; [|discriminate].
    destruct (TDigest.cdfProcessed x s1); cbn [bind] in E; [|discriminate].
    inversion E; subst.
    exact (process_Room bounded_sine s s' (proj1 (reachable_Inv s R))
                        (reachable_Wt s R) IH E1).
Qed.

End FinalSegment.

(* finitely many finite means lie between two rationals *)
Lemma means_within l :
  Forall good l ->
  exists lo hi, Forall (fun c => Vle (Fin lo) (Centroid.mean c) /\
                                 Vle (Centroid.mean c) (Fin hi)) l.
Proof.
  induction 1 as [| c l G _ (lo & hi & IH)].
  - exists 0%Q, 0%Q. constructor.
  - destruct (good_inv c G) as (m & w & -> & _).
    exists (if Qlt_le_dec m lo then m else lo),
           (if Qlt_le_dec hi m then m else hi).
    constructor.
    + simpl. destruct (Qlt_le_dec m lo), (Qlt_le_dec hi m); split; lra.
    + eapply Forall_impl; [|exact IH].
      intros d [H1 H2]. destruct (Centroid.mean d) as [| md]; [contradiction|].
      simpl in *.
      destruct (Qlt_le_dec m lo), (Qlt_le_dec hi m); split; lra.
Qed.

(** X22: on every digest built from the scalar constructor by add, merge,
    compress and query calls, with a sine that stays at or below 1, the
    running sum processedWeight_ leaves room for the whole of the last
    processed centroid: processedWeight_ + weight(n-1) is at most the sum
    of the weights of the processed centroids (the seed of every process()
    is counted twice in the list and once in the sum).  With two or more
    processed centroids the index q * processedWeight_ of a valid q thus
    stays below the last half-weight boundary, the walk over the centroid
    pairs never ends without a bracket, and the closing interpolation of
    quantileProcessed is not executed; with finite means the walk returns
    its interpolation. *)
Theorem final_segment_never_entered (libm : Libm) (s : TDigest.t) (qq : Q)
        (c0 c1 : Centroid.t) (l : list Centroid.t) :
  sine_bounded libm -> reachable s -> (0 <= qq <= 1)%Q ->
  TDigest.processed_ s = c0 :: c1 :: l ->
  let back := last (c1 :: l) c0 in
  let index := (Fin qq * TDigest.processedWeight_ s)%V in
  (pwq s + wq back <= wsum (TDigest.processed_ s))%Q /\
  (qq * pwq s < wsum (TDigest.processed_ s) - wq back / 2)%Q /\
  ((index <? Centroid.weight c0 / of_Z 2)%V = false ->
   TDigest.quantile_walk s index (length (c1 :: l)) 0
                         (Centroid.weight c0 / of_Z 2)%V <> Done None /\
   (Forall finite_mean (TDigest.processed_ s) ->
    exists r, TDigest.quantile_walk s index (length (c1 :: l)) 0
                (Centroid.weight c0 / of_Z 2)%V = Done (Some r))).
Proof.
  intros B R [Hq0 Hq1] El back index.
  destruct (reachable_Room B s R) as (_ & _ & Kl).
  destruct (reachable_Inv s R) as [([Gp _] & _) _].
  destruct (reachable_Wt s R) as (p & u & Ep & _ & _ & Hp0 & Hp & _).
  assert (Eb : ends_with back (TDigest.processed_ s)).
  { destruct (@exists_last _ (c1 :: l)) as (pre & b & E); [discriminate|].
    exists (c0 :: pre). rewrite El. unfold back. rewrite E, last_last.
    reflexivity. }
  assert (Hback : (0 < wq back)%Q).
  { apply good_wq. rewrite Forall_forall in Gp. apply Gp.
    now apply ends_with_In. }
  specialize (Kl back Eb). unfold pwq in *. subst index.
  rewrite Ep in *. cbn [rational] in *.
  assert (Hx : (qq * p < wsum (TDigest.processed_ s) - wq back / 2)%Q).
  { unfold Qdiv. change (/ 2)%Q with (1 # 2)%Q. nra. }
  split; [exact Kl|]. split; [exact Hx|]. intros C.
  destruct (means_within _ Gp) as (lo & hi & Hb).
  assert (G0 : good c0) by (rewrite El in Gp; now inversion Gp).
  destruct (good_inv c0 G0) as (m0 & w0 & -> & Hw0).
  cbn [Centroid.weight] in *.
  change (Fin qq * Fin p)%V with (Fin (Qred (qq * p))) in *.
  change (Fin w0 / of_Z 2)%V with (Fin (Qred (w0 / 2))) in *.
  assert (Ha : (Qred (w0 / 2) <= Qred (qq * p))%Q).
  { unfold Vltb in C. now apply negb_false_iff, Qle_bool_iff in C. }
  destruct (quantile_walk_range s lo hi (Qred (qq * p)) Gp Hb (c1 :: l)
              (Centroid.mk (Fin m0) (Fin w0)) 0 (Qred (w0 / 2)))
    as (found & -> & Hf); [now rewrite El | exact Ha |].
  destruct found as [r |].
  - split; [discriminate|]. intros _. now exists r.
  - exfalso. rewrite !Qred_correct in Hf.
    pose proof (pairs_sum_total (Centroid.mk (Fin m0) (Fin w0)) (c1 :: l)) as Ht.
    fold back in Ht. rewrite <- El in Ht, Hf.
    change (wq (Centroid.mk (Fin m0) (Fin w0))) with w0 in Ht.
    unfold Qdiv in *. change (/ 2)%Q with (1 # 2)%Q in *. lra.
Qed.

Lemma final_segment_never_entered_witness :
  (pwq merged_digest + 1 <= wsum (TDigest.processed_ merged_digest))%Q /\
  TDigest.quantile_walk merged_digest (Fin 1 * of_Z 2)%V 3 0
                        (of_Z 1 / of_Z 2)%V <> Done None.
Proof.
  destruct (final_segment_never_entered rational_libm merged_digest 1
              (Centroid.mk (of_Z 5) (of_Z 1)) (Centroid.mk (of_Z 5) (of_Z 1))
              [Centroid.mk (of_Z 10) (of_Z 1); Centroid.mk (of_Z 10) (of_Z 1)]
              rational_libm_bounded merged_digest_reachable)
    as (H1 & _ & H3).
  - split; discriminate.
  - reflexivity.
  - split; [exact H1|]. apply H3. reflexivity.
Defined.
